(** * encryptest: the password cipher of the chat application

    A shallow embedding of the cipher, key derivation and Base64 framing
    of the React application (the four revisions of [App.tsx]), together
    with the browser primitives they call: [TextEncoder], [TextDecoder],
    [btoa], [atob], [String.fromCharCode] and [crypto.subtle.digest].

    JavaScript strings are sequences of UTF-16 code units and typed arrays
    are sequences of bytes; both are lists of integers here, with the
    ranges stated where a property needs them. *)

From Stdlib Require Import ZArith List Bool Lia ZifyNat String Ascii.
From stdpp Require Import base list gmap.

Local Open Scope Z_scope.

(** ** JavaScript values *)

(** A string is its sequence of UTF-16 code units, a [Uint8Array] its
    sequence of bytes. *)
Abbreviation jsstring := (list Z) (only parsing).
Abbreviation Uint8Array := (list Z) (only parsing).

Definition is_code_unit (c : Z) : bool := (0 <=? c) && (c <? 65536).
Definition is_byte (b : Z) : bool := (0 <=? b) && (b <? 256).

(** [bytes_ok a]: every element is a byte, as in any [Uint8Array];
    [string_ok s]: every element is a 16-bit code unit, as in any string. *)
Definition bytes_ok (a : list Z) : bool := forallb is_byte a.
Definition string_ok (s : list Z) : bool := forallb is_code_unit s.

(** The failure conditions of the specification, and the two errors of
    the language itself that the application can run into.  [atob] throws
    an [InvalidCharacterError], which is the [InvalidEncoding] condition;
    [RangeError] is thrown by a call with more arguments than the engine
    takes, [TypeError] by a property read on [undefined] and by a call of
    what is not a function. *)
Inductive condition : Set :=
  InvalidKey | InvalidEncoding | InvalidText | RangeError | TypeError.

(** What the language leaves to the engine that runs the application:
    the number of arguments one call may have (a call with more throws a
    [RangeError]), and the source text that [toString] gives for a
    built-in function of a given name. *)
Class Engine : Set := {
  max_arguments : Z;
  native_source : list Z -> list Z
}.

(** The completion of an evaluation: a value, or a thrown condition. *)
Inductive completion (A : Type) : Type :=
| Normal (a : A)
| Throw (c : condition).
Arguments Normal {A} a.
Arguments Throw {A} c.

Global Instance completion_ret : MRet completion := fun A a => Normal a.
Global Instance completion_bind : MBind completion := fun A B k m =>
  match m with
  | Normal a => k a
  | Throw c => Throw c
  end.

(** A number used as an index: the remainder by zero is [NaN]. *)
Inductive number : Set := NaN | Num (z : Z).

(** [a % b] on non-negative integers. *)
Definition remainder (a b : Z) : number :=
  if b =? 0 then NaN else Num (Z.rem a b).

(** [a[n]]: [None] is [undefined] (index out of range, or [NaN]). *)
Definition element (a : list Z) (n : number) : option Z :=
  match n with
  | NaN => None
  | Num z => if z <? 0 then None else a !! Z.to_nat z
  end.

(** [ToInt32]: [undefined] converts to 0, an integer wraps to 32 bits
    (two's complement). *)
Definition ToInt32 (v : option Z) : Z :=
  match v with
  | None => 0
  | Some z => (z + 2147483648) mod 4294967296 - 2147483648
  end.

(** [ToUint8], the conversion on a store into a [Uint8Array]. *)
Definition ToUint8 (z : Z) : Z := z mod 256.

(** [x ^ y] *)
Definition bitxor (x y : option Z) : Z := Z.lxor (ToInt32 x) (ToInt32 y).

(** [byte ^ key[index % key.length]], the expression the two digest
    revisions map over the data. *)
Definition xor_with_key (key : Uint8Array) (index : nat) (byte : Z) : Z :=
  bitxor (Some byte)
    (element key (remainder (Z.of_nat index) (Z.of_nat (length key)))).

(** ** Browser primitives: the UTF-8 codec

    [new TextEncoder().encode(s)]: the string is first converted to a
    sequence of Unicode scalar values (a surrogate pair is one scalar
    value, an unpaired surrogate becomes U+FFFD), each of which is then
    written in UTF-8. *)

Definition is_lead (c : Z) : bool := (0xD800 <=? c) && (c <=? 0xDBFF).
Definition is_trail (c : Z) : bool := (0xDC00 <=? c) && (c <=? 0xDFFF).

Fixpoint scalar_values (s : jsstring) : list Z :=
  match s with
  | [] => []
  | c :: rest =>
      if is_lead c then
        match rest with
        | d :: rest' =>
            if is_trail d
            then (0x10000 + Z.shiftl (c - 0xD800) 10 + (d - 0xDC00)) :: scalar_values rest'
            else 0xFFFD :: scalar_values rest
        | [] => [0xFFFD]
        end
      else if is_trail c then 0xFFFD :: scalar_values rest
      else c :: scalar_values rest
  end.

Definition utf8_bytes (cp : Z) : list Z :=
  if cp <? 0x80 then [cp]
  else if cp <? 0x800 then
    [Z.lor 0xC0 (Z.shiftr cp 6); Z.lor 0x80 (Z.land cp 0x3F)]
  else if cp <? 0x10000 then
    [Z.lor 0xE0 (Z.shiftr cp 12);
     Z.lor 0x80 (Z.land (Z.shiftr cp 6) 0x3F);
     Z.lor 0x80 (Z.land cp 0x3F)]
  else
    [Z.lor 0xF0 (Z.shiftr cp 18);
     Z.lor 0x80 (Z.land (Z.shiftr cp 12) 0x3F);
     Z.lor 0x80 (Z.land (Z.shiftr cp 6) 0x3F);
     Z.lor 0x80 (Z.land cp 0x3F)].

Definition TextEncoder_encode (s : jsstring) : Uint8Array :=
  scalar_values s ≫= utf8_bytes.

(** [new TextDecoder().decode(bytes)]: the UTF-8 decoder of the Encoding
    Standard in its default, non-fatal mode (a malformed sequence yields
    U+FFFD and decoding goes on), with [ignoreBOM] false (a leading
    U+FEFF is removed from the result). *)

Record utf8_decoder : Set := Utf8Decoder {
  code_point : Z;
  bytes_seen : Z;
  bytes_needed : Z;
  lower_boundary : Z;
  upper_boundary : Z
}.

Definition utf8_fresh : utf8_decoder := Utf8Decoder 0 0 0 0x80 0xBF.

(** A byte read when no sequence is open. *)
Definition utf8_lead (b : Z) : utf8_decoder * list Z :=
  if b <=? 0x7F then (utf8_fresh, [b])
  else if (0xC2 <=? b) && (b <=? 0xDF) then
    (Utf8Decoder (Z.land b 0x1F) 0 1 0x80 0xBF, [])
  else if (0xE0 <=? b) && (b <=? 0xEF) then
    (Utf8Decoder (Z.land b 0xF) 0 2
       (if b =? 0xE0 then 0xA0 else 0x80)
       (if b =? 0xED then 0x9F else 0xBF), [])
  else if (0xF0 <=? b) && (b <=? 0xF4) then
    (Utf8Decoder (Z.land b 0x7) 0 3
       (if b =? 0xF0 then 0x90 else 0x80)
       (if b =? 0xF4 then 0x8F else 0xBF), [])
  else (utf8_fresh, [0xFFFD]).

(** One byte: the new decoder state and the code points emitted.  A byte
    outside the boundaries of an open sequence ends it with U+FFFD and is
    then read again as the first byte of a new sequence. *)
Definition utf8_handler (d : utf8_decoder) (b : Z) : utf8_decoder * list Z :=
  if bytes_needed d =? 0 then utf8_lead b
  else if (b <? lower_boundary d) || (upper_boundary d <? b) then
    (fst (utf8_lead b), 0xFFFD :: snd (utf8_lead b))
  else
    let cp := Z.lor (Z.shiftl (code_point d) 6) (Z.land b 0x3F) in
    if bytes_seen d + 1 =? bytes_needed d then (utf8_fresh, [cp])
    else (Utf8Decoder cp (bytes_seen d + 1) (bytes_needed d) 0x80 0xBF, []).

Fixpoint utf8_decode (d : utf8_decoder) (input : list Z) : list Z :=
  match input with
  | [] => if bytes_needed d =? 0 then [] else [0xFFFD]
  | b :: rest =>
      snd (utf8_handler d b) ++ utf8_decode (fst (utf8_handler d b)) rest
  end.

Definition strip_BOM (cps : list Z) : list Z :=
  match cps with
  | c :: rest => if c =? 0xFEFF then rest else cps
  | [] => []
  end.

(** A code point as UTF-16 code units. *)
Definition code_units (cp : Z) : list Z :=
  if cp <? 0x10000 then [cp]
  else [0xD800 + Z.shiftr (cp - 0x10000) 10;
        0xDC00 + Z.land (cp - 0x10000) 0x3FF].

Definition TextDecoder_decode (input : Uint8Array) : jsstring :=
  strip_BOM (utf8_decode utf8_fresh input) ≫= code_units.

(** [String.fromCharCode(...codes)]: the elements of [codes] are spread
    into the arguments of one call, which throws when they are more than
    the engine takes; each argument is taken modulo 2^16. *)
Definition String_fromCharCode {engine : Engine} (codes : list Z) : completion jsstring :=
  if Z.of_nat (length codes) <=? max_arguments
  then Normal ((fun c => c mod 65536) <$> codes)
  else Throw RangeError.

(** [[...s].map((c) => c.charCodeAt(0))]: the iteration is by code point,
    and the first code unit of each is taken. *)
Fixpoint spread_charCodes (s : jsstring) : list Z :=
  match s with
  | [] => []
  | c :: rest =>
      if is_lead c then
        match rest with
        | d :: rest' =>
            if is_trail d then c :: spread_charCodes rest'
            else c :: spread_charCodes rest
        | [] => [c]
        end
      else c :: spread_charCodes rest
  end.

(** ** Browser primitives: Base64

    [btoa(s)] throws when [s] has a code unit above U+00FF and otherwise
    writes the code units, taken as bytes, in padded Base64. *)

Definition base64_char (i : Z) : Z :=
  if i <? 26 then 65 + i
  else if i <? 52 then 97 + (i - 26)
  else if i <? 62 then 48 + (i - 52)
  else if i =? 62 then 43
  else 47.

Fixpoint base64_encode (input : list Z) : list Z :=
  match input with
  | [] => []
  | [x] =>
      [base64_char (Z.shiftr x 2);
       base64_char (Z.shiftl (Z.land x 3) 4);
       61; 61]
  | [x; y] =>
      [base64_char (Z.shiftr x 2);
       base64_char (Z.lor (Z.shiftl (Z.land x 3) 4) (Z.shiftr y 4));
       base64_char (Z.shiftl (Z.land y 15) 2);
       61]
  | x :: y :: z :: rest =>
      base64_char (Z.shiftr x 2)
      :: base64_char (Z.lor (Z.shiftl (Z.land x 3) 4) (Z.shiftr y 4))
      :: base64_char (Z.lor (Z.shiftl (Z.land y 15) 2) (Z.shiftr z 6))
      :: base64_char (Z.land z 63)
      :: base64_encode rest
  end.

Definition btoa (s : jsstring) : completion jsstring :=
  if forallb (fun c => c <=? 0xFF) s then Normal (base64_encode s)
  else Throw InvalidEncoding.

(** [atob(s)] is the forgiving-base64 decode of the Infra Standard: ASCII
    whitespace is removed; when the length is then a multiple of four, one
    or two trailing [=] are removed; a length of 1 modulo 4 or a character
    outside the alphabet throws; the remaining characters are read six bits
    at a time, and the bits left over at the end are dropped. *)

Definition is_ascii_whitespace (c : Z) : bool :=
  (c =? 9) || (c =? 10) || (c =? 12) || (c =? 13) || (c =? 32).

Definition base64_index (c : Z) : option Z :=
  if (65 <=? c) && (c <=? 90) then Some (c - 65)
  else if (97 <=? c) && (c <=? 122) then Some (c - 71)
  else if (48 <=? c) && (c <=? 57) then Some (c + 4)
  else if c =? 43 then Some 62
  else if c =? 47 then Some 63
  else None.

(** Remove a trailing [=], if there is one. *)
Definition drop_trailing_equals (data : list Z) : list Z :=
  match reverse data with
  | c :: r => if c =? 61 then reverse r else data
  | [] => data
  end.

Definition remove_padding (data : list Z) : list Z :=
  if (length data mod 4 =? 0)%nat
  then drop_trailing_equals (drop_trailing_equals data)
  else data.

Fixpoint base64_bits (buffer bits : Z) (indices : list Z) : list Z :=
  match indices with
  | [] =>
      if bits =? 12 then [Z.shiftr buffer 4]
      else if bits =? 18 then
        [Z.shiftr buffer 10; Z.land (Z.shiftr buffer 2) 255]
      else []
  | n :: rest =>
      let buffer' := Z.lor (Z.shiftl buffer 6) n in
      if bits + 6 =? 24 then
        Z.shiftr buffer' 16 :: Z.land (Z.shiftr buffer' 8) 255
        :: Z.land buffer' 255 :: base64_bits 0 0 rest
      else base64_bits buffer' (bits + 6) rest
  end.

Definition atob (s : jsstring) : completion jsstring :=
  let data := remove_padding (List.filter (fun c => negb (is_ascii_whitespace c)) s) in
  if (length data mod 4 =? 1)%nat then Throw InvalidEncoding
  else
    match mapM base64_index data with
    | None => Throw InvalidEncoding
    | Some indices => Normal (base64_bits 0 0 indices)
    end.

(** ** Browser primitives: SHA-256

    [crypto.subtle.digest("SHA-256", data)], as in FIPS 180-4, on 32-bit
    words kept as integers below 2^32. *)

Definition w32 (z : Z) : Z := z mod 4294967296.
Definition rotr (n x : Z) : Z := Z.lor (Z.shiftr x n) (w32 (Z.shiftl x (32 - n))).
Definition Ch (x y z : Z) : Z :=
  Z.lxor (Z.land x y) (Z.land (Z.lxor x 0xFFFFFFFF) z).
Definition Maj (x y z : Z) : Z :=
  Z.lxor (Z.lxor (Z.land x y) (Z.land x z)) (Z.land y z).
Definition Sigma0 (x : Z) : Z := Z.lxor (Z.lxor (rotr 2 x) (rotr 13 x)) (rotr 22 x).
Definition Sigma1 (x : Z) : Z := Z.lxor (Z.lxor (rotr 6 x) (rotr 11 x)) (rotr 25 x).
Definition sigma0 (x : Z) : Z := Z.lxor (Z.lxor (rotr 7 x) (rotr 18 x)) (Z.shiftr x 3).
Definition sigma1 (x : Z) : Z := Z.lxor (Z.lxor (rotr 17 x) (rotr 19 x)) (Z.shiftr x 10).

Definition K256 : list Z :=
  [1116352408; 1899447441; 3049323471; 3921009573; 961987163; 1508970993;
   2453635748; 2870763221; 3624381080; 310598401; 607225278; 1426881987;
   1925078388; 2162078206; 2614888103; 3248222580; 3835390401; 4022224774;
   264347078; 604807628; 770255983; 1249150122; 1555081692; 1996064986;
   2554220882; 2821834349; 2952996808; 3210313671; 3336571891; 3584528711;
   113926993; 338241895; 666307205; 773529912; 1294757372; 1396182291;
   1695183700; 1986661051; 2177026350; 2456956037; 2730485921; 2820302411;
   3259730800; 3345764771; 3516065817; 3600352804; 4094571909; 275423344;
   430227734; 506948616; 659060556; 883997877; 958139571; 1322822218;
   1537002063; 1747873779; 1955562222; 2024104815; 2227730452; 2361852424;
   2428436474; 2756734187; 3204031479; 3329325298].

Record sha_state : Set := ShaState {
  sha_a : Z; sha_b : Z; sha_c : Z; sha_d : Z;
  sha_e : Z; sha_f : Z; sha_g : Z; sha_h : Z
}.

Definition sha_initial : sha_state :=
  ShaState 1779033703 3144134277 1013904242 2773480762
           1359893119 2600822924 528734635 1541459225.

(** The padded message: the byte 0x80, zero bytes up to 56 modulo 64, and
    the length in bits as a 64-bit big-endian integer. *)
Definition big_endian (n : nat) (z : Z) : list Z :=
  (fun i => Z.land (Z.shiftr z (8 * Z.of_nat i)) 255) <$> reverse (seq 0 n).

Definition sha_pad (msg : list Z) : list Z :=
  let len := Z.of_nat (length msg) in
  msg ++ [0x80] ++ replicate (Z.to_nat ((55 - len) mod 64)) 0
      ++ big_endian 8 (8 * len).

(** The 16 big-endian words of a 64-byte block. *)
Fixpoint sha_words (n : nat) (block : list Z) : list Z :=
  match n with
  | O => []
  | S n' =>
      match block with
      | b0 :: b1 :: b2 :: b3 :: rest =>
          Z.lor (Z.lor (Z.lor (Z.shiftl b0 24) (Z.shiftl b1 16)) (Z.shiftl b2 8)) b3
          :: sha_words n' rest
      | _ => 0 :: sha_words n' []
      end
  end.

(** The message schedule, most recent word first: [sched] holds
    W(t-1), W(t-2), ... *)
Fixpoint sha_schedule (n : nat) (sched : list Z) : list Z :=
  match n with
  | O => sched
  | S n' =>
      let w i := default 0 (sched !! i) in
      sha_schedule n'
        (w32 (sigma1 (w 1%nat) + w 6%nat + sigma0 (w 14%nat) + w 15%nat) :: sched)
  end.

Definition sha_round (s : sha_state) (kw : Z * Z) : sha_state :=
  let t1 := w32 (sha_h s + Sigma1 (sha_e s) + Ch (sha_e s) (sha_f s) (sha_g s)
                 + fst kw + snd kw) in
  let t2 := w32 (Sigma0 (sha_a s) + Maj (sha_a s) (sha_b s) (sha_c s)) in
  ShaState (w32 (t1 + t2)) (sha_a s) (sha_b s) (sha_c s)
           (w32 (sha_d s + t1)) (sha_e s) (sha_f s) (sha_g s).

Definition sha_block (s : sha_state) (block : list Z) : sha_state :=
  let w := reverse (sha_schedule 48 (reverse (sha_words 16 block))) in
  let r := fold_left sha_round (zip K256 w) s in
  ShaState (w32 (sha_a s + sha_a r)) (w32 (sha_b s + sha_b r))
           (w32 (sha_c s + sha_c r)) (w32 (sha_d s + sha_d r))
           (w32 (sha_e s + sha_e r)) (w32 (sha_f s + sha_f r))
           (w32 (sha_g s + sha_g r)) (w32 (sha_h s + sha_h r)).

Fixpoint sha_blocks (n : nat) (s : sha_state) (padded : list Z) : sha_state :=
  match n with
  | O => s
  | S n' => sha_blocks n' (sha_block s (take 64 padded)) (drop 64 padded)
  end.

Definition SHA256 (msg : list Z) : list Z :=
  let padded := sha_pad msg in
  let s := sha_blocks (length padded / 64) sha_initial padded in
  [sha_a s; sha_b s; sha_c s; sha_d s; sha_e s; sha_f s; sha_g s; sha_h s]
    ≫= big_endian 4.

(** [await crypto.subtle.digest("SHA-256", data)] followed by
    [new Uint8Array(hashBuffer)]. *)
Definition crypto_subtle_digest_SHA256 (data : Uint8Array) : Uint8Array :=
  SHA256 data.

(** ** The application

    A string literal of the source, from its UTF-8 bytes. *)
Definition js (literal : string) : jsstring :=
  TextDecoder_decode ((fun a => Z.of_N (N_of_ascii a)) <$> list_ascii_of_string literal).

(** [!s] on a string: only the empty string is falsy. *)
Definition falsy (s : jsstring) : bool :=
  match s with
  | [] => true
  | _ :: _ => false
  end.

Inductive Mode : Set := encrypt | decrypt.

(** The [ChatLog] interface: a record of the [messages] collection. *)
Module Log.
Record ChatLog : Set := Build {
  sender : jsstring;
  password : jsstring;
  text : jsstring;
  mode : Mode;
  timestamp : Z
}.
End Log.

(** *** The legacy revision ([src/App.tsx]; the revision without
    pagination has the same derivation and handler) *)
Module LegacyApp.

(** [for (let i = 0; i < password.length; i++)
       hash = (hash * 31 + password.charCodeAt(i)) % 256;]
    The test [i < password.length] holds exactly when the string has a
    code unit at [i]. *)
Fixpoint deriveKeyFromPassword_loop (password : jsstring) (fuel i : nat) (hash : Z) : Z :=
  match fuel, password !! i with
  | S fuel', Some charCode =>
      deriveKeyFromPassword_loop password fuel' (S i) (Z.rem (hash * 31 + charCode) 256)
  | _, _ => hash
  end.

Definition deriveKeyFromPassword (password : jsstring) : Z :=
  deriveKeyFromPassword_loop password (length password) 0 0.

(** The component state the handler reads and writes, the [messages]
    collection and the alerts shown. *)
Record World : Set := Build {
  sender : jsstring;
  password : jsstring;
  text : jsstring;
  mode : Mode;
  decryptedResult : jsstring;
  messages : list Log.ChatLog;
  alerts : list jsstring
}.

(** The encrypt branch up to [btoa]. *)
Definition encryptText {engine : Engine} (text : jsstring) (key : Z) : completion jsstring :=
  let bytes := TextEncoder_encode text in
  let encrypted := (fun b => ToUint8 (bitxor (Some b) (Some key))) <$> bytes in
  encryptedStr ← String_fromCharCode encrypted;
  btoa encryptedStr.

(** The body of [try] in the decrypt branch. *)
Definition decryptText (text : jsstring) (key : Z) : completion jsstring :=
  binaryStr ← atob text;
  let encrypted := spread_charCodes binaryStr in
  let decryptedBytes := (fun b => bitxor (Some b) (Some key)) <$> encrypted in
  mret (TextDecoder_decode (ToUint8 <$> decryptedBytes)).

(** An error thrown in the encrypt branch is thrown outside [try]: the
    promise of the handler is rejected before a record is written or a
    setter is called, and the state stays as it is. *)
Definition handleProcess {engine : Engine} (now : Z) (w : World) : World :=
  if falsy (text w)
     || (match mode w with
         | encrypt => falsy (password w) || falsy (sender w)
         | decrypt => false
         end)
  then w
  else
    let key := deriveKeyFromPassword (password w) in
    match mode w with
    | encrypt =>
        match encryptText (text w) key with
        | Normal base64 =>
            Build (sender w) (password w) [] (mode w) (decryptedResult w)
              (messages w ++ [Log.Build (sender w) (js "***") base64 (mode w) now])
              (alerts w)
        | Throw _ => w
        end
    | decrypt =>
        match decryptText (text w) key with
        | Normal decryptedText =>
            Build (sender w) (password w) [] (mode w) decryptedText
              (messages w) (alerts w)
        | Throw _ =>
            Build (sender w) (password w) (text w) (mode w) (decryptedResult w)
              (messages w)
              (alerts w ++ [js "⚠️ 복호화 실패: 올바른 Base64 형식이 아닙니다."])
        end
    end.

End LegacyApp.

(** *** The digest revision with [deriveKeyBytes], [xorEncryptDecrypt]
    and [handleProcess] *)
Module CipherApp.

Definition deriveKeyBytes (password : jsstring) : Uint8Array :=
  let data := TextEncoder_encode password in
  crypto_subtle_digest_SHA256 data.

(** [data.map((byte, index) => byte ^ key[index % key.length])] on a
    [Uint8Array]: each result is stored with [ToUint8].  The body has no
    [throw]. *)
Definition xorEncryptDecrypt (data key : Uint8Array) : completion Uint8Array :=
  mret (imap (fun index byte => ToUint8 (xor_with_key key index byte)) data).

Record World : Set := Build {
  sender : jsstring;
  password : jsstring;
  text : jsstring;
  mode : Mode;
  decryptedResult : jsstring;
  messages : list Log.ChatLog;
  alerts : list jsstring
}.

Definition encryptText {engine : Engine} (text : jsstring) (keyBytes : Uint8Array) :
    completion jsstring :=
  let bytes := TextEncoder_encode text in
  encrypted ← xorEncryptDecrypt bytes keyBytes;
  encryptedStr ← String_fromCharCode encrypted;
  btoa encryptedStr.

(** The body of [try] in the decrypt branch. *)
Definition decryptText (text : jsstring) (keyBytes : Uint8Array) : completion jsstring :=
  binaryStr ← atob text;
  let encrypted := ToUint8 <$> spread_charCodes binaryStr in
  decryptedBytes ← xorEncryptDecrypt encrypted keyBytes;
  mret (TextDecoder_decode decryptedBytes).

(** An error thrown in the encrypt branch is thrown outside [try]: the
    promise of the handler is rejected before a record is written or a
    setter is called, and the state stays as it is. *)
Definition handleProcess {engine : Engine} (now : Z) (w : World) : World :=
  if falsy (text w)
     || (match mode w with
         | encrypt => falsy (password w) || falsy (sender w)
         | decrypt => false
         end)
  then w
  else
    let keyBytes := deriveKeyBytes (password w) in
    match mode w with
    | encrypt =>
        match encryptText (text w) keyBytes with
        | Normal base64 =>
            Build (sender w) (password w) [] (mode w) (decryptedResult w)
              (messages w ++ [Log.Build (sender w) (js "***") base64 (mode w) now])
              (alerts w)
        | Throw _ => w
        end
    | decrypt =>
        match decryptText (text w) keyBytes with
        | Normal decryptedText =>
            Build (sender w) (password w) [] (mode w) decryptedText
              (messages w) (alerts w)
        | Throw _ =>
            Build (sender w) (password w) (text w) (mode w) (decryptedResult w)
              (messages w)
              (alerts w ++ [js "⚠️ 복호화 실패: 올바른 Base64 형식이 아닙니다."])
        end
    end.

End CipherApp.

(** *** The digest revision with [deriveKeyFromPassword], [handleEncrypt]
    and [handleDecrypt] *)
Module DigestApp.

Definition deriveKeyFromPassword (password : jsstring) : Uint8Array :=
  let data := TextEncoder_encode password in
  crypto_subtle_digest_SHA256 data.

Record World : Set := Build {
  sender : jsstring;
  password : jsstring;
  text : jsstring;
  result : jsstring;
  messages : list Log.ChatLog
}.

(** [handleEncrypt] from the derivation of the key to [btoa]. *)
Definition encryptText {engine : Engine} (text password : jsstring) : completion jsstring :=
  let key := deriveKeyFromPassword password in
  let bytes := TextEncoder_encode text in
  let encrypted := imap (fun i b => ToUint8 (xor_with_key key i b)) bytes in
  encryptedStr ← String_fromCharCode encrypted;
  btoa encryptedStr.

(** An error thrown before [setResult] leaves the state as it is: there
    is no [try] in this handler. *)
Definition handleEncrypt {engine : Engine} (now : Z) (w : World) : World :=
  if falsy (text w) || falsy (password w) || falsy (sender w) then w
  else
    match encryptText (text w) (password w) with
    | Normal base64 =>
        Build (sender w) (password w) [] base64
          (messages w ++ [Log.Build (sender w) (js "") base64 encrypt now])
    | Throw _ => w
    end.

(** [new Uint8Array(decryptedBytes)], the bytes [handleDecrypt] hands to
    the decoder. *)
Definition decryptedBytes (binaryStr : jsstring) (key : Uint8Array) : Uint8Array :=
  let encrypted := spread_charCodes binaryStr in
  let decryptedBytes := imap (fun i b => xor_with_key key i b) encrypted in
  ToUint8 <$> decryptedBytes.

(** The body of [try] in [handleDecrypt]. *)
Definition decryptText (text password : jsstring) : completion jsstring :=
  let key := deriveKeyFromPassword password in
  binaryStr ← atob text;
  mret (TextDecoder_decode (decryptedBytes binaryStr key)).

Definition handleDecrypt (w : World) : World :=
  if falsy (text w) || falsy (password w) then w
  else
    match decryptText (text w) (password w) with
    | Normal decryptedText =>
        Build (sender w) (password w) (text w) decryptedText (messages w)
    | Throw _ =>
        Build (sender w) (password w) (text w)
          (js "복호화 실패: 키가 맞지 않거나 형식 오류") (messages w)
    end.

End DigestApp.

(** ** Notions of the specification *)

(** The rolling hash in the words of the specification: the hash starts
    at 0 and each char code [c] replaces it by [(hash * 31 + c) % 256]. *)
Definition rolling_hash (password : list Z) : Z :=
  fold_left (fun hash charCode => (hash * 31 + charCode) mod 256) password 0.

(** A Unicode scalar value: a code point that is not a surrogate. *)
Definition is_scalar_value (cp : Z) : bool :=
  (0 <=? cp) && (cp <? 0x110000) && negb ((0xD800 <=? cp) && (cp <=? 0xDFFF)).

(** A well-formed string: 16-bit code units in which every surrogate is
    half of a lead-trail pair. *)
Fixpoint well_formed (s : list Z) : bool :=
  match s with
  | [] => true
  | c :: rest =>
      if is_lead c then
        match rest with
        | d :: rest' => is_trail d && well_formed rest'
        | [] => false
        end
      else is_code_unit c && negb (is_trail c) && well_formed rest
  end.

(** The standard Base64 alphabet: [A-Z], [a-z], [0-9], [+] and [/]. *)
Definition base64_alphabet (c : Z) : bool :=
  ((65 <=? c) && (c <=? 90)) || ((97 <=? c) && (c <=? 122))
  || ((48 <=? c) && (c <=? 57)) || (c =? 43) || (c =? 47).

(** [s] is alphabet characters followed by exactly [pad] characters [=]. *)
Definition padded_with (pad : nat) (s : list Z) : bool :=
  (pad <=? length s)%nat
  && forallb base64_alphabet (take (length s - pad) s)
  && forallb (Z.eqb 61) (drop (length s - pad) s).

(** Valid padded standard Base64: the length is a multiple of four, and
    the characters are of the alphabet except for at most two [=] that
    end the string. *)
Definition valid_padded_base64 (s : list Z) : bool :=
  (length s mod 4 =? 0)%nat
  && (padded_with 0 s || padded_with 1 s || padded_with 2 s).

(** Base64 without its padding: alphabet characters only, the length 2 or
    3 modulo 4. *)
Definition unpadded_base64 (s : list Z) : bool :=
  forallb base64_alphabet s
  && ((length s mod 4 =? 2)%nat || (length s mod 4 =? 3)%nat).

(** [s] with its ASCII whitespace removed. *)
Definition without_whitespace (s : list Z) : list Z :=
  List.filter (fun c => negb (is_ascii_whitespace c)) s.

(** The string begins with U+FEFF, the byte order mark. *)
Definition starts_with_BOM (s : list Z) : bool :=
  match s with
  | c :: _ => c =? 0xFEFF
  | [] => false
  end.

(** The six-bit groups of a byte sequence, in the order Base64 writes
    them; the last group of a sequence that is not a multiple of three
    bytes long is filled with zero bits. *)
Fixpoint sextets (input : list Z) : list Z :=
  match input with
  | [] => []
  | [x] => [x / 4; x mod 4 * 16]
  | [x; y] => [x / 4; x mod 4 * 16 + y / 16; y mod 16 * 4]
  | x :: y :: z :: rest =>
      x / 4 :: x mod 4 * 16 + y / 16 :: y mod 16 * 4 + z / 64 :: z mod 64
      :: sextets rest
  end.

(** The number of [=] that pad the Base64 of [n] bytes. *)
Definition padding_length (n : nat) : nat :=
  match (n mod 3)%nat with
  | 1%nat => 2
  | 2%nat => 1
  | _ => 0
  end.

(** Well-formed UTF-8 (the Unicode Standard, table 3-7): the range of
    the second byte of a sequence, by its first byte. *)
Definition second_byte_range (b0 : Z) : Z * Z :=
  if b0 =? 0xE0 then (0xA0, 0xBF)
  else if b0 =? 0xED then (0x80, 0x9F)
  else if b0 =? 0xF0 then (0x90, 0xBF)
  else if b0 =? 0xF4 then (0x80, 0x8F)
  else (0x80, 0xBF).

Definition in_byte_range (r : Z * Z) (b : Z) : bool :=
  (fst r <=? b) && (b <=? snd r).

Definition continuation_byte (b : Z) : bool := in_byte_range (0x80, 0xBF) b.

Fixpoint valid_utf8 (input : list Z) : bool :=
  match input with
  | [] => true
  | b0 :: r0 =>
      if (0 <=? b0) && (b0 <=? 0x7F) then valid_utf8 r0
      else if (0xC2 <=? b0) && (b0 <=? 0xDF) then
        match r0 with
        | b1 :: r1 => continuation_byte b1 && valid_utf8 r1
        | _ => false
        end
      else if (0xE0 <=? b0) && (b0 <=? 0xEF) then
        match r0 with
        | b1 :: b2 :: r2 =>
            in_byte_range (second_byte_range b0) b1 && continuation_byte b2
            && valid_utf8 r2
        | _ => false
        end
      else if (0xF0 <=? b0) && (b0 <=? 0xF4) then
        match r0 with
        | b1 :: b2 :: b3 :: r3 =>
            in_byte_range (second_byte_range b0) b1 && continuation_byte b2
            && continuation_byte b3 && valid_utf8 r3
        | _ => false
        end
      else false
  end.


(** The string with U+FFFD in place of every surrogate that is not half
    of a lead-trail pair. *)
Fixpoint replace_unpaired_surrogates (s : list Z) : list Z :=
  match s with
  | [] => []
  | c :: rest =>
      if is_lead c then
        match rest with
        | d :: rest' =>
            if is_trail d then c :: d :: replace_unpaired_surrogates rest'
            else 0xFFFD :: replace_unpaired_surrogates rest
        | [] => [0xFFFD]
        end
      else if is_trail c then 0xFFFD :: replace_unpaired_surrogates rest
      else c :: replace_unpaired_surrogates rest
  end.

(** [pasted] is [s] with tabs, line feeds, form feeds, carriage returns
    and spaces put in anywhere, as a text copied from the log and pasted
    into the text box may come. *)
Fixpoint is_pasted (s pasted : list Z) : bool :=
  match pasted with
  | [] => falsy s
  | c :: rest =>
      (existsb (Z.eqb c) [9; 10; 12; 13; 32] && is_pasted s rest)
      || match s with
         | d :: s' => (c =? d) && is_pasted s' rest
         | [] => false
         end
  end.

(** [s] without its characters [=]. *)
Definition without_equals (s : list Z) : list Z :=
  List.filter (fun c => negb (c =? 61)) s.

(** [pasted] comes from the Base64 text [s], whole or without its
    padding. *)
Definition pasted_from (s pasted : list Z) : bool :=
  is_pasted s pasted || is_pasted (without_equals s) pasted.

(** The states the UTF-8 decoder can be in: no sequence open, or a
    sequence of two, three or four bytes open after one, two or three of
    them, with the bits read so far and the boundaries of the next byte. *)
Definition utf8_state_ok (d : utf8_decoder) : Prop :=
  bytes_needed d = 0
  \/ (bytes_needed d = 1 /\ bytes_seen d = 0 /\ 2 <= code_point d <= 31
      /\ lower_boundary d = 0x80 /\ upper_boundary d = 0xBF)
  \/ (bytes_needed d = 2 /\ bytes_seen d = 0 /\ 0 <= code_point d <= 15
      /\ lower_boundary d = (if code_point d =? 0 then 0xA0 else 0x80)
      /\ upper_boundary d = (if code_point d =? 13 then 0x9F else 0xBF))
  \/ (bytes_needed d = 2 /\ bytes_seen d = 1
      /\ 0x20 <= code_point d <= 0x3FF /\ ~ (0x360 <= code_point d <= 0x37F)
      /\ lower_boundary d = 0x80 /\ upper_boundary d = 0xBF)
  \/ (bytes_needed d = 3 /\ bytes_seen d = 0 /\ 0 <= code_point d <= 4
      /\ lower_boundary d = (if code_point d =? 0 then 0x90 else 0x80)
      /\ upper_boundary d = (if code_point d =? 4 then 0x8F else 0xBF))
  \/ (bytes_needed d = 3 /\ bytes_seen d = 1 /\ 0x10 <= code_point d <= 0x10F
      /\ lower_boundary d = 0x80 /\ upper_boundary d = 0xBF)
  \/ (bytes_needed d = 3 /\ bytes_seen d = 2 /\ 0x400 <= code_point d <= 0x43FF
      /\ lower_boundary d = 0x80 /\ upper_boundary d = 0xBF).

(** ** The rest of the application: inline decryption and pagination *)

(** A log as the snapshot listener hands it to the component: the record
    and the document id.  [log.id!] as an object key is the id, or the
    string "undefined" when there is none. *)
Record Entry : Set := MkEntry {
  entry_id : option (list Z);
  entry_log : Log.ChatLog
}.

Definition id_key (e : Entry) : list Z :=
  match entry_id e with
  | Some id => id
  | None => js "undefined"
  end.

(** *** Objects used as maps

    The component keeps objects keyed by the id of a log.  Each starts
    as [{}] and is replaced by [{ ...prev, [log.id!]: value }]: the own
    properties are the entries written so far, and a key that has none
    is looked up in [Object.prototype]. *)

(** What [Object.prototype] holds: built-in functions, each with its
    name and its [length], and under [__proto__] the prototype object
    itself. *)
Inductive builtin : Set :=
| builtin_function (name : list Z) (arity : Z)
| prototype_object.

Definition Object_prototype_properties : list (list Z * builtin) :=
  [ (js "constructor", builtin_function (js "Object") 1);
    (js "hasOwnProperty", builtin_function (js "hasOwnProperty") 1);
    (js "isPrototypeOf", builtin_function (js "isPrototypeOf") 1);
    (js "propertyIsEnumerable", builtin_function (js "propertyIsEnumerable") 1);
    (js "toLocaleString", builtin_function (js "toLocaleString") 0);
    (js "toString", builtin_function (js "toString") 0);
    (js "valueOf", builtin_function (js "valueOf") 0);
    (js "__defineGetter__", builtin_function (js "__defineGetter__") 2);
    (js "__defineSetter__", builtin_function (js "__defineSetter__") 2);
    (js "__lookupGetter__", builtin_function (js "__lookupGetter__") 1);
    (js "__lookupSetter__", builtin_function (js "__lookupSetter__") 1);
    (js "__proto__", prototype_object) ].

Definition Object_prototype (key : list Z) : option builtin :=
  snd <$> List.find (fun entry => bool_decide (fst entry = key))
            Object_prototype_properties.

(** [o[key]]: an own property, an inherited one, or [undefined]. *)
Inductive property (A : Type) : Type :=
| own (a : A)
| inherited (f : builtin)
| undefined.
Arguments own {A} a.
Arguments inherited {A} f.
Arguments undefined {A}.

Definition get {A} (o : gmap (list Z) A) (key : list Z) : property A :=
  match o !! key with
  | Some a => own a
  | None =>
      match Object_prototype key with
      | Some f => inherited f
      | None => undefined
      end
  end.



(** The value of [o[key] || b] for a string [b]: a string, or what was
    inherited. *)
Inductive value : Set :=
| string_value (s : list Z)
| builtin_value (f : builtin).

Definition or_string (p : property (list Z)) (b : list Z) : value :=
  match p with
  | own s => string_value (if falsy s then b else s)
  | inherited f => builtin_value f
  | undefined => string_value b
  end.

(** [ToString], which [TextEncoder.encode] applies to its argument. *)
Definition ToString {engine : Engine} (v : value) : list Z :=
  match v with
  | string_value s => s
  | builtin_value (builtin_function name _) => native_source name
  | builtin_value prototype_object => js "[object Object]"
  end.

(** The state of the log list: the decrypted texts by id, the open
    password inputs, the passwords typed in them (the own properties of
    the three objects), and the alerts shown. *)
Record View : Type := MkView {
  visibleDecryptIds : gmap (list Z) (list Z);
  showPasswordInputs : gmap (list Z) bool;
  inlinePasswords : gmap (list Z) (list Z);
  view_alerts : list (list Z)
}.



Module DigestInline.

(** [handleInlineDecrypt(log, password)]: the body of [try] is that of
    [handleDecrypt]; there is no test of the password. *)
Definition handleInlineDecrypt (e : Entry) (password : jsstring) (v : View) : View :=
  match DigestApp.decryptText (Log.text (entry_log e)) password with
  | Normal decryptedText =>
      MkView (<[id_key e := decryptedText]> (visibleDecryptIds v))
        (showPasswordInputs v) (inlinePasswords v) (view_alerts v)
  | Throw _ =>
      MkView (visibleDecryptIds v) (showPasswordInputs v) (inlinePasswords v)
        (view_alerts v ++ [js "복호화 실패: 키가 맞지 않거나 암호문 형식이 잘못됨."])
  end.

(** The confirm button and the Enter key:
    [await handleInlineDecrypt(log, inlinePasswords[log.id!] || "");
     setShowPasswordInputs((prev) => ({ ...prev, [log.id!]: false }))].
    The handler uses its password in [encoder.encode(password)] only,
    which converts it to a string. *)
Definition confirm {engine : Engine} (e : Entry) (v : View) : View :=
  let password := ToString (or_string (get (inlinePasswords v) (id_key e)) (js "")) in
  let v' := handleInlineDecrypt e password v in
  MkView (visibleDecryptIds v') (<[id_key e := false]> (showPasswordInputs v'))
    (inlinePasswords v') (view_alerts v').

End DigestInline.

Module CipherInline.

Definition handleInlineDecrypt (e : Entry) (password : jsstring) (v : View) : View :=
  match CipherApp.decryptText (Log.text (entry_log e))
          (CipherApp.deriveKeyBytes password) with
  | Normal decryptedText =>
      MkView (<[id_key e := decryptedText]> (visibleDecryptIds v))
        (showPasswordInputs v) (inlinePasswords v) (view_alerts v)
  | Throw _ =>
      MkView (visibleDecryptIds v) (showPasswordInputs v) (inlinePasswords v)
        (view_alerts v ++ [js "❌ 복호화 실패!"])
  end.

(** The confirm button:
    [handleInlineDecrypt(log, inlinePasswords[log.id!] || "");
     setShowPasswordInputs((prev) => ({ ...prev, [log.id!]: false }))]. *)
Definition confirm {engine : Engine} (e : Entry) (v : View) : View :=
  let password := ToString (or_string (get (inlinePasswords v) (id_key e)) (js "")) in
  let v' := handleInlineDecrypt e password v in
  MkView (visibleDecryptIds v') (<[id_key e := false]> (showPasswordInputs v'))
    (inlinePasswords v') (view_alerts v').

End CipherInline.

Module LegacyInline.

(** The state of the log list in the legacy revision: the decrypted
    texts by id, the passwords answered to the prompt by id (the own
    properties of the two objects), and the alerts shown. *)
Record View : Type := MkView {
  visibleDecryptIds : gmap (list Z) (list Z);
  decryptInputs : gmap (list Z) (list Z);
  alerts : list (list Z)
}.

(** [deriveKeyFromPassword(decryptInputs[log.id!])].  On [undefined] the
    read of [password.length] throws.  A built-in function has its
    [length] and no [charCodeAt]: with [length] 0 the loop is not entered
    and the key is 0, otherwise the call of [password.charCodeAt] throws.
    The prototype object has no [length]: [0 < undefined] is false and
    the key is 0. *)
Definition deriveKeyFromPassword (password : property (list Z)) : completion Z :=
  match password with
  | own s => Normal (LegacyApp.deriveKeyFromPassword s)
  | inherited (builtin_function _ arity) =>
      if 0 <? arity then Throw TypeError else Normal 0
  | inherited prototype_object => Normal 0
  | undefined => Throw TypeError
  end.

(** [handleInlineDecrypt(log)] as a render of the component defines it:
    [captured] is the [decryptInputs] of that render.  The key is derived
    outside [try]: an error there is not caught and ends the call with
    the state as it is. *)
Definition handleInlineDecrypt (captured : gmap (list Z) (list Z)) (e : Entry)
    (v : View) : View :=
  match deriveKeyFromPassword (get captured (id_key e)) with
  | Throw _ => v
  | Normal key =>
      match LegacyApp.decryptText (Log.text (entry_log e)) key with
      | Normal decryptedText =>
          MkView (<[id_key e := decryptedText]> (visibleDecryptIds v))
            (decryptInputs v) (alerts v)
      | Throw _ =>
          MkView (visibleDecryptIds v) (decryptInputs v)
            (alerts v ++ [js "❌ 복호화 실패!"])
      end
  end.


End LegacyInline.

Module Pagination.

Definition LOGS_PER_PAGE : Z := 10.

(** [Math.ceil(a / b)] for integers [a] and [b], [b] positive. *)
Definition Math_ceil_div (a b : Z) : Z :=
  if a mod b =? 0 then a / b else a / b + 1.

(** [a.slice(start, end)]: a negative index counts from the end, and both
    are clamped to the array. *)
Definition slice {A} (a : list A) (start finish : Z) : list A :=
  let len := Z.of_nat (length a) in
  let k := if start <? 0 then Z.max (len + start) 0 else Z.min start len in
  let final := if finish <? 0 then Z.max (len + finish) 0 else Z.min finish len in
  take (Z.to_nat (Z.max (final - k) 0)) (drop (Z.to_nat k) a).

Definition totalPages {A} (logs : list A) : Z :=
  Math_ceil_div (Z.of_nat (length logs)) LOGS_PER_PAGE.

Definition paginatedLogs {A} (logs : list A) (currentPage : Z) : list A :=
  slice logs ((currentPage - 1) * LOGS_PER_PAGE) (currentPage * LOGS_PER_PAGE).

(** The button to the previous page: disabled on page 1, otherwise
    [setCurrentPage((prev) => Math.max(prev - 1, 1))]. *)
Definition previous (currentPage : Z) : Z :=
  if currentPage =? 1 then currentPage else Z.max (currentPage - 1) 1.

(** The button to the next page: disabled on the last page and when there
    is no page, otherwise
    [setCurrentPage((prev) => Math.min(prev + 1, totalPages))]. *)
Definition next (pages currentPage : Z) : Z :=
  if (currentPage =? pages) || (pages =? 0) then currentPage
  else Z.min (currentPage + 1) pages.

End Pagination.

(** An engine for the examples: a call takes up to 65536 arguments, and
    the source text of a built-in function [f] is
    [function f() { [native code] }]. *)
Definition example_engine : Engine := {|
  max_arguments := 65536;
  native_source name := js "function " ++ name ++ js "() { [native code] }"
|}.

(** * Properties *)

(** ** Integer conversions and exclusive or on bytes *)

Lemma is_byte_range b : is_byte b = true <-> 0 <= b < 256.
Proof. unfold is_byte. rewrite andb_true_iff, Z.leb_le, Z.ltb_lt. tauto. Qed.

Lemma bytes_ok_lookup (a : list Z) i b :
  bytes_ok a = true -> a !! i = Some b -> 0 <= b < 256.
Proof.
  unfold bytes_ok. rewrite forallb_forall. intros Hall Hi.
  apply is_byte_range, Hall, list_elem_of_In, list_elem_of_lookup. eauto.
Qed.

Lemma bytes_ok_Forall (a : list Z) :
  bytes_ok a = true <-> Forall (fun b => 0 <= b < 256) a.
Proof.
  unfold bytes_ok. rewrite forallb_forall, Forall_forall.
  split; intros H b Hb.
  - apply is_byte_range, H, list_elem_of_In, Hb.
  - apply is_byte_range, H, list_elem_of_In, Hb.
Qed.

Lemma ToInt32_small z :
  -2147483648 <= z < 2147483648 -> ToInt32 (Some z) = z.
Proof. intros Hz. unfold ToInt32. rewrite Z.mod_small; lia. Qed.

Lemma ToUint8_byte b : 0 <= b < 256 -> ToUint8 b = b.
Proof. intros Hb. unfold ToUint8. apply Z.mod_small. lia. Qed.

Lemma lxor_below a b n :
  0 < n -> 0 <= a < 2 ^ n -> 0 <= b < 2 ^ n -> 0 <= Z.lxor a b < 2 ^ n.
Proof.
  intros Hn Ha Hb.
  assert (Hx : 0 <= Z.lxor a b) by (apply Z.lxor_nonneg; lia).
  split; [exact Hx|].
  destruct (Z.eq_dec (Z.lxor a b) 0) as [->|Hne].
  - apply Z.pow_pos_nonneg; lia.
  - apply Z.log2_lt_pow2; [lia|].
    pose proof (Z.log2_lxor a b ltac:(lia) ltac:(lia)) as Hl.
    assert (Z.log2 a < n).
    { destruct (Z.eq_dec a 0) as [->|]; [simpl; lia|apply Z.log2_lt_pow2; lia]. }
    assert (Z.log2 b < n).
    { destruct (Z.eq_dec b 0) as [->|]; [simpl; lia|apply Z.log2_lt_pow2; lia]. }
    lia.
Qed.

Lemma lxor_byte a b :
  0 <= a < 256 -> 0 <= b < 256 -> 0 <= Z.lxor a b < 256.
Proof. intros Ha Hb. apply (lxor_below a b 8); lia. Qed.

Lemma bitxor_bytes a b :
  0 <= a < 256 -> 0 <= b < 256 -> bitxor (Some a) (Some b) = Z.lxor a b.
Proof. intros Ha Hb. unfold bitxor. rewrite !ToInt32_small; lia. Qed.

Lemma bitxor_undefined a :
  0 <= a < 256 -> bitxor (Some a) None = a.
Proof.
  intros Ha. unfold bitxor. rewrite ToInt32_small by lia. simpl.
  apply Z.lxor_0_r.
Qed.

(** [key[index % key.length]] for a key that is not empty. *)
Lemma element_remainder (key : list Z) (i : nat) :
  (1 <= length key)%nat ->
  element key (remainder (Z.of_nat i) (Z.of_nat (length key)))
  = key !! (i mod length key)%nat.
Proof.
  intros Hk. unfold remainder, element.
  destruct (Z.eqb_spec (Z.of_nat (length key)) 0) as [H0|_]; [lia|].
  rewrite Z.rem_mod_nonneg by lia.
  rewrite <- Nat2Z.inj_mod.
  destruct (Z.ltb_spec (Z.of_nat (i mod length key)) 0) as [Hneg|_]; [lia|].
  now rewrite Nat2Z.id.
Qed.

Lemma key_lookup (key : list Z) (i : nat) :
  (1 <= length key)%nat -> is_Some (key !! (i mod length key)%nat).
Proof. intros Hk. apply lookup_lt_is_Some. apply Nat.mod_upper_bound. lia. Qed.

(** One keyed byte, for a key that is not empty. *)
Lemma keyed_byte (key : list Z) (i : nat) (b : Z) :
  bytes_ok key = true -> (1 <= length key)%nat -> 0 <= b < 256 ->
  exists k, key !! (i mod length key)%nat = Some k /\ 0 <= k < 256
    /\ bitxor (Some b) (element key (remainder (Z.of_nat i) (Z.of_nat (length key))))
       = Z.lxor b k.
Proof.
  intros Hkey Hlen Hb.
  destruct (key_lookup key i Hlen) as [k Hk].
  exists k. rewrite element_remainder, Hk by exact Hlen.
  pose proof (bytes_ok_lookup _ _ _ Hkey Hk).
  repeat split; try lia. now apply bitxor_bytes.
Qed.

(** ** The stream cipher *)

Section Stream.
Variables (key : Uint8Array).
Hypothesis key_bytes : bytes_ok key = true.
Hypothesis key_length : (1 <= length key)%nat.

Local Abbreviation f := (fun index byte => ToUint8 (xor_with_key key index byte)).

Lemma stream_byte (i : nat) (b : Z) :
  0 <= b < 256 ->
  exists k, key !! (i mod length key)%nat = Some k /\ 0 <= k < 256
            /\ f i b = Z.lxor b k.
Proof using key_bytes key_length.
  intros Hb.
  destruct (keyed_byte key i b key_bytes key_length Hb) as (k & Hk & Hr & Hx).
  exists k. repeat split; try lia; try exact Hk.
  cbv beta. unfold xor_with_key. rewrite Hx. apply ToUint8_byte, lxor_byte; lia.
Qed.

Lemma stream_bytes_ok (data : list Z) :
  bytes_ok data = true -> bytes_ok (imap f data) = true.
Proof using key_bytes key_length.
  intros Hd. apply bytes_ok_Forall, Forall_lookup. intros i x Hx.
  rewrite list_lookup_imap in Hx.
  destruct (data !! i) as [d|] eqn:Hi; [|discriminate].
  injection Hx as <-.
  pose proof (bytes_ok_lookup _ _ _ Hd Hi) as Hr.
  destruct (stream_byte i d Hr) as (k & _ & Hk & ->).
  apply lxor_byte; lia.
Qed.

Lemma stream_involutive (data : list Z) :
  bytes_ok data = true -> imap f (imap f data) = data.
Proof using key_bytes key_length.
  intros Hd. apply list_eq. intros i.
  rewrite !list_lookup_imap.
  destruct (data !! i) as [d|] eqn:Hi; [|reflexivity]. simpl.
  pose proof (bytes_ok_lookup _ _ _ Hd Hi) as Hr.
  destruct (stream_byte i d Hr) as (k & Hk & Hkr & Hf).
  destruct (stream_byte i (f i d)) as (k' & Hk' & _ & Hf').
  { rewrite Hf. apply lxor_byte; lia. }
  cbv beta in *. rewrite Hf', Hf. rewrite Hk in Hk'. injection Hk' as <-.
  now rewrite Z.lxor_assoc, Z.lxor_nilpotent, Z.lxor_0_r.
Qed.
End Stream.

(** C2: for a key of at least one byte, [xorEncryptDecrypt] returns as
    many bytes as it is given, and byte [i] of the result is
    [data[i] XOR key[i mod len(key)]]. *)
Theorem xorEncryptDecrypt_bytewise (data key : Uint8Array) :
  bytes_ok data = true -> bytes_ok key = true -> (1 <= length key)%nat ->
  exists out,
    CipherApp.xorEncryptDecrypt data key = Normal out
    /\ length out = length data
    /\ forall i, (i < length data)%nat ->
         exists d k, data !! i = Some d
                     /\ key !! (i mod length key)%nat = Some k
                     /\ out !! i = Some (Z.lxor d k).
Proof.
  intros Hd Hk Hlen. eexists. split; [reflexivity|].
  split; [apply length_imap|].
  intros i Hi.
  destruct (lookup_lt_is_Some_2 data i Hi) as [d Hdi].
  pose proof (bytes_ok_lookup _ _ _ Hd Hdi) as Hr.
  destruct (stream_byte key Hk Hlen i d Hr) as (k & Hki & _ & Hf).
  exists d, k. repeat split; try assumption.
  rewrite list_lookup_imap, Hdi. simpl. now rewrite Hf.
Qed.

Lemma xorEncryptDecrypt_bytewise_witness :
  exists out,
    CipherApp.xorEncryptDecrypt [104; 105; 33] [7; 200] = Normal out
    /\ length out = 3%nat
    /\ forall i, (i < 3)%nat ->
         exists d k, [104; 105; 33] !! i = Some d
                     /\ [7; 200] !! (i mod 2)%nat = Some k
                     /\ out !! i = Some (Z.lxor d k).
Proof.
  apply (xorEncryptDecrypt_bytewise [104; 105; 33] [7; 200]);
    [reflexivity | reflexivity | simpl; lia].
Defined.

(** C3: with a key of at least one byte, applying [xorEncryptDecrypt]
    twice with the same key gives the data back. *)
Theorem xorEncryptDecrypt_involution (data key : Uint8Array) :
  bytes_ok data = true -> bytes_ok key = true -> (1 <= length key)%nat ->
  exists out,
    CipherApp.xorEncryptDecrypt data key = Normal out
    /\ CipherApp.xorEncryptDecrypt out key = Normal data.
Proof.
  intros Hd Hk Hlen. eexists. split; [reflexivity|].
  unfold CipherApp.xorEncryptDecrypt, mret, completion_ret. f_equal.
  now apply stream_involutive.
Qed.

Lemma xorEncryptDecrypt_involution_witness :
  exists out,
    CipherApp.xorEncryptDecrypt [104; 105; 33] [7; 200] = Normal out
    /\ CipherApp.xorEncryptDecrypt out [7; 200] = Normal [104; 105; 33].
Proof.
  apply (xorEncryptDecrypt_involution [104; 105; 33] [7; 200]);
    [reflexivity | reflexivity | simpl; lia].
Defined.

(** C6, as the code has it: with a key of length 0 [xorEncryptDecrypt]
    does not fail; [key[NaN]] is [undefined], which [^] reads as 0, and
    the data comes back unchanged. *)
Theorem xorEncryptDecrypt_empty_key (data : Uint8Array) :
  bytes_ok data = true ->
  CipherApp.xorEncryptDecrypt data [] = Normal data.
Proof.
  intros Hd. unfold CipherApp.xorEncryptDecrypt, mret, completion_ret. f_equal.
  apply list_eq. intros i. rewrite list_lookup_imap.
  destruct (data !! i) as [d|] eqn:Hi; [|reflexivity]. simpl. f_equal.
  pose proof (bytes_ok_lookup _ _ _ Hd Hi) as Hr.
  change (ToUint8 (bitxor (Some d) None) = d).
  now rewrite bitxor_undefined, ToUint8_byte by lia.
Qed.

Lemma xorEncryptDecrypt_empty_key_witness :
  CipherApp.xorEncryptDecrypt [104; 105] [] = Normal [104; 105].
Proof. apply (xorEncryptDecrypt_empty_key [104; 105]). reflexivity. Defined.

(** C6 as stated fails: on the data [104; 105] and the empty key the
    transform returns a result, not the InvalidKey condition. *)
Lemma xorEncryptDecrypt_empty_key_counterexample :
  CipherApp.xorEncryptDecrypt [104; 105] [] = Normal [104; 105]
  /\ CipherApp.xorEncryptDecrypt [104; 105] [] <> Throw InvalidKey.
Proof. split; [reflexivity | discriminate]. Qed.

(** ** Bit operations as arithmetic *)

Lemma lor_disjoint hi lo k :
  0 <= k -> 0 <= lo < 2 ^ k -> Z.lor (hi * 2 ^ k) lo = hi * 2 ^ k + lo.
Proof.
  intros Hk Hlo. symmetry. apply Z.add_nocarry_lor, Z.bits_inj_0. intros n.
  rewrite Z.land_spec.
  destruct (Z.lt_ge_cases n k) as [Hlt|Hge].
  - now rewrite Z.mul_pow2_bits_low.
  - assert (Z.testbit lo n = false) as ->; [|apply andb_false_r].
    eapply (proj1 (Z.bounded_iff_bits_nonneg' k lo Hk ltac:(lia))); lia.
Qed.

Lemma lor_shiftl a b k :
  0 <= k -> 0 <= b < 2 ^ k -> Z.lor (Z.shiftl a k) b = a * 2 ^ k + b.
Proof. intros Hk Hb. rewrite Z.shiftl_mul_pow2 by lia. now apply lor_disjoint. Qed.

Lemma lor_x4 hi lo : 0 <= lo < 4 -> Z.lor (hi * 4) lo = hi * 4 + lo.
Proof. intros H. apply (lor_disjoint hi lo 2); lia. Qed.

Lemma lor_x16 hi lo : 0 <= lo < 16 -> Z.lor (hi * 16) lo = hi * 16 + lo.
Proof. intros H. apply (lor_disjoint hi lo 4); lia. Qed.

Lemma lor_x64 hi lo : 0 <= lo < 64 -> Z.lor (hi * 64) lo = hi * 64 + lo.
Proof. intros H. apply (lor_disjoint hi lo 6); lia. Qed.

Lemma lor_0x80 x : 0 <= x < 64 -> Z.lor 0x80 x = 128 + x.
Proof. intros Hx. apply (lor_disjoint 2 x 6); lia. Qed.

Lemma lor_0xC0 x : 0 <= x < 32 -> Z.lor 0xC0 x = 192 + x.
Proof. intros Hx. apply (lor_disjoint 6 x 5); lia. Qed.

Lemma lor_0xE0 x : 0 <= x < 16 -> Z.lor 0xE0 x = 224 + x.
Proof. intros Hx. apply (lor_disjoint 14 x 4); lia. Qed.

Lemma lor_0xF0 x : 0 <= x < 8 -> Z.lor 0xF0 x = 240 + x.
Proof. intros Hx. apply (lor_disjoint 30 x 3); lia. Qed.

Lemma land_mask x k : 0 <= k -> Z.land x (2 ^ k - 1) = x mod 2 ^ k.
Proof.
  intros Hk. rewrite <- Z.land_ones by lia. f_equal.
  rewrite Z.ones_equiv. lia.
Qed.

Lemma land_3 x : Z.land x 3 = x mod 4.
Proof. apply (land_mask x 2). lia. Qed.
Lemma land_7 x : Z.land x 7 = x mod 8.
Proof. apply (land_mask x 3). lia. Qed.
Lemma land_15 x : Z.land x 15 = x mod 16.
Proof. apply (land_mask x 4). lia. Qed.
Lemma land_31 x : Z.land x 31 = x mod 32.
Proof. apply (land_mask x 5). lia. Qed.
Lemma land_63 x : Z.land x 63 = x mod 64.
Proof. apply (land_mask x 6). lia. Qed.
Lemma land_255 x : Z.land x 255 = x mod 256.
Proof. apply (land_mask x 8). lia. Qed.
Lemma land_1023 x : Z.land x 1023 = x mod 1024.
Proof. apply (land_mask x 10). lia. Qed.

Lemma shiftr_div a k : 0 <= k -> Z.shiftr a k = a / 2 ^ k.
Proof. apply Z.shiftr_div_pow2. Qed.

(** Rewrite shifts and masks by constants into division and remainder. *)
Ltac bits_to_arith :=
  rewrite ?land_3, ?land_7, ?land_15, ?land_31, ?land_63, ?land_255, ?land_1023;
  rewrite ?shiftr_div, ?Z.shiftl_mul_pow2 by lia;
  change (2 ^ 2) with 4; change (2 ^ 4) with 16; change (2 ^ 6) with 64;
  change (2 ^ 8) with 256; change (2 ^ 10) with 1024; change (2 ^ 12) with 4096;
  change (2 ^ 16) with 65536; change (2 ^ 18) with 262144.

(** Linear arithmetic with division and remainder by constants. *)
Ltac dlia := zify; Z.div_mod_to_equations; lia.

(** Induction two code units at a time, as the surrogate scans recurse. *)
Lemma list_pair_ind {A} (P : list A -> Prop) :
  P [] ->
  (forall c, P [c]) ->
  (forall c d s, P s -> P (d :: s) -> P (c :: d :: s)) ->
  forall s, P s.
Proof.
  intros Hnil Hone Hstep s.
  assert (H : P s /\ forall c, P (c :: s)); [|apply H].
  induction s as [|d s [IH1 IH2]].
  - split; [exact Hnil | exact Hone].
  - split; [apply IH2|]. intros c. now apply Hstep.
Qed.

(** ** The legacy key derivation *)

Lemma string_ok_lookup (s : list Z) i c :
  string_ok s = true -> s !! i = Some c -> 0 <= c < 65536.
Proof.
  unfold string_ok. rewrite forallb_forall. intros Hall Hi.
  assert (Hc : is_code_unit c = true).
  { apply Hall, list_elem_of_In, list_elem_of_lookup. eauto. }
  unfold is_code_unit in Hc. rewrite andb_true_iff, Z.leb_le, Z.ltb_lt in Hc. lia.
Qed.

Lemma string_ok_cons c s :
  string_ok (c :: s) = true <-> 0 <= c < 65536 /\ string_ok s = true.
Proof.
  unfold string_ok, is_code_unit. simpl.
  rewrite !andb_true_iff, Z.leb_le, Z.ltb_lt. tauto.
Qed.

Lemma deriveKeyFromPassword_loop_fold (password : list Z) :
  string_ok password = true ->
  forall fuel i hash,
    (i + fuel = length password)%nat -> 0 <= hash < 256 ->
    LegacyApp.deriveKeyFromPassword_loop password fuel i hash
    = fold_left (fun hash charCode => (hash * 31 + charCode) mod 256)
                (drop i password) hash.
Proof.
  intros Hok fuel. induction fuel as [|fuel IH]; intros i hash Hlen Hhash.
  - rewrite drop_ge by lia. reflexivity.
  - destruct (lookup_lt_is_Some_2 password i ltac:(lia)) as [c Hc].
    rewrite (drop_S _ _ _ Hc). simpl. rewrite Hc.
    pose proof (string_ok_lookup _ _ _ Hok Hc) as Hr.
    rewrite Z.rem_mod_nonneg by lia.
    apply IH; [lia|]. apply Z.mod_pos_bound. lia.
Qed.

Lemma rolling_hash_range (password : list Z) :
  forall hash, 0 <= hash < 256 ->
  0 <= fold_left (fun hash charCode => (hash * 31 + charCode) mod 256) password hash < 256.
Proof.
  induction password as [|c s IH]; intros hash Hh; simpl; [exact Hh|].
  apply IH, Z.mod_pos_bound. lia.
Qed.

(** C9: the legacy [deriveKeyFromPassword] computes the rolling hash
    [hash = (hash * 31 + charCode) % 256] from 0 over the char codes in
    order, and its result is a single value from 0 to 255. *)
Theorem legacy_deriveKeyFromPassword_rolling_hash (password : list Z) :
  string_ok password = true ->
  LegacyApp.deriveKeyFromPassword password = rolling_hash password
  /\ 0 <= LegacyApp.deriveKeyFromPassword password <= 255.
Proof.
  intros Hok.
  assert (Heq : LegacyApp.deriveKeyFromPassword password = rolling_hash password).
  { unfold LegacyApp.deriveKeyFromPassword, rolling_hash.
    now rewrite (deriveKeyFromPassword_loop_fold password Hok) by (simpl; lia). }
  split; [exact Heq|]. rewrite Heq.
  pose proof (rolling_hash_range password 0 ltac:(lia)) as Hr.
  unfold rolling_hash. lia.
Qed.

Lemma legacy_deriveKeyFromPassword_rolling_hash_witness :
  LegacyApp.deriveKeyFromPassword (js "secret") = rolling_hash (js "secret")
  /\ 0 <= LegacyApp.deriveKeyFromPassword (js "secret") <= 255.
Proof.
  apply (legacy_deriveKeyFromPassword_rolling_hash (js "secret")).
  vm_compute. reflexivity.
Defined.

(** ** The UTF-8 encoder writes bytes *)

Lemma is_scalar_value_range cp :
  is_scalar_value cp = true <->
  0 <= cp < 0x110000 /\ ~ (0xD800 <= cp <= 0xDFFF).
Proof.
  unfold is_scalar_value.
  rewrite !andb_true_iff, negb_true_iff, andb_false_iff.
  rewrite Z.leb_le, Z.ltb_lt, !Z.leb_gt. lia.
Qed.

Lemma is_lead_range c : is_lead c = true <-> 0xD800 <= c <= 0xDBFF.
Proof. unfold is_lead. rewrite andb_true_iff, !Z.leb_le. tauto. Qed.

Lemma is_trail_range c : is_trail c = true <-> 0xDC00 <= c <= 0xDFFF.
Proof. unfold is_trail. rewrite andb_true_iff, !Z.leb_le. tauto. Qed.

Lemma is_lead_false c : is_lead c = false <-> ~ (0xD800 <= c <= 0xDBFF).
Proof. rewrite <- is_lead_range. destruct (is_lead c); split; congruence. Qed.

Lemma is_trail_false c : is_trail c = false <-> ~ (0xDC00 <= c <= 0xDFFF).
Proof. rewrite <- is_trail_range. destruct (is_trail c); split; congruence. Qed.

Lemma scalar_values_scalar (s : list Z) :
  string_ok s = true ->
  Forall (fun cp => is_scalar_value cp = true) (scalar_values s).
Proof.
  induction s as [|c|c d s IH1 IH2] using list_pair_ind; intros Hok.
  - constructor.
  - apply string_ok_cons in Hok as [Hc _]. simpl.
    destruct (is_lead c) eqn:Hl; [repeat constructor|].
    destruct (is_trail c) eqn:Ht; [repeat constructor|].
    apply is_lead_false in Hl. apply is_trail_false in Ht.
    repeat constructor. apply is_scalar_value_range. lia.
  - pose proof Hok as Hok'.
    apply string_ok_cons in Hok as [Hc Hds].
    pose proof Hds as Hds'. apply string_ok_cons in Hds' as [Hd Hs].
    change (scalar_values (c :: d :: s)) with
      (if is_lead c then
         if is_trail d
         then (0x10000 + Z.shiftl (c - 0xD800) 10 + (d - 0xDC00)) :: scalar_values s
         else 0xFFFD :: scalar_values (d :: s)
       else if is_trail c then 0xFFFD :: scalar_values (d :: s)
       else c :: scalar_values (d :: s)).
    destruct (is_lead c) eqn:Hl.
    + destruct (is_trail d) eqn:Ht.
      * constructor; [|now apply IH1].
        apply is_lead_range in Hl. apply is_trail_range in Ht.
        apply is_scalar_value_range. bits_to_arith. lia.
      * constructor; [reflexivity | now apply IH2].
    + destruct (is_trail c) eqn:Ht.
      * constructor; [reflexivity | now apply IH2].
      * constructor; [|now apply IH2].
        apply is_lead_false in Hl. apply is_trail_false in Ht.
        apply is_scalar_value_range. lia.
Qed.

Lemma utf8_bytes_ok cp :
  is_scalar_value cp = true -> bytes_ok (utf8_bytes cp) = true.
Proof.
  intros Hcp. apply is_scalar_value_range in Hcp as [Hr _].
  apply bytes_ok_Forall. unfold utf8_bytes.
  destruct (Z.ltb_spec cp 0x80); [repeat constructor; lia|].
  destruct (Z.ltb_spec cp 0x800).
  { bits_to_arith.
    rewrite lor_0xC0, lor_0x80 by dlia.
    repeat constructor; dlia. }
  destruct (Z.ltb_spec cp 0x10000).
  { bits_to_arith.
    rewrite lor_0xE0, !lor_0x80 by dlia.
    repeat constructor; dlia. }
  bits_to_arith.
  rewrite lor_0xF0, !lor_0x80 by dlia.
  repeat constructor; dlia.
Qed.

Lemma bytes_ok_app a b :
  bytes_ok (a ++ b) = bytes_ok a && bytes_ok b.
Proof. apply forallb_app. Qed.

Lemma TextEncoder_encode_bytes_ok (s : list Z) :
  string_ok s = true -> bytes_ok (TextEncoder_encode s) = true.
Proof.
  intros Hok. unfold TextEncoder_encode.
  induction (scalar_values_scalar s Hok) as [|cp cps Hcp _ IH]; [reflexivity|].
  change (bytes_ok (utf8_bytes cp ++ (cps ≫= utf8_bytes)) = true).
  now rewrite bytes_ok_app, utf8_bytes_ok, IH.
Qed.

(** [String.fromCharCode] and [btoa] on bytes. *)
Lemma fmap_mod_bytes (a : list Z) :
  bytes_ok a = true -> (fun c => c mod 65536) <$> a = a.
Proof.
  intros Ha. apply bytes_ok_Forall in Ha.
  induction Ha as [|b a Hb _ IH]; [reflexivity|].
  rewrite fmap_cons, IH. f_equal. apply Z.mod_small. lia.
Qed.

Lemma String_fromCharCode_bytes {engine : Engine} (a : list Z) :
  bytes_ok a = true -> Z.of_nat (length a) <= max_arguments ->
  String_fromCharCode a = Normal a.
Proof.
  intros Ha Hlen. unfold String_fromCharCode.
  apply Z.leb_le in Hlen. now rewrite Hlen, fmap_mod_bytes.
Qed.

Lemma String_fromCharCode_long {engine : Engine} (a : list Z) :
  max_arguments < Z.of_nat (length a) ->
  String_fromCharCode a = Throw RangeError.
Proof.
  intros Hlen. unfold String_fromCharCode.
  apply Z.leb_gt in Hlen. now rewrite Hlen.
Qed.

Lemma btoa_bytes (a : list Z) :
  bytes_ok a = true -> btoa a = Normal (base64_encode a).
Proof.
  intros Ha. unfold btoa.
  assert (forallb (fun c => c <=? 0xFF) a = true) as ->; [|reflexivity].
  apply forallb_forall. intros c Hc.
  apply bytes_ok_Forall in Ha. rewrite Forall_forall in Ha.
  apply list_elem_of_In, Ha in Hc. apply Z.leb_le. lia.
Qed.

(** ** What the handlers write to the [messages] collection *)

Lemma not_appended {A} (l : list A) (r : A) : l = l ++ [r] -> False.
Proof.
  intros H. apply (f_equal length) in H. rewrite length_app in H. simpl in H. lia.
Qed.

Lemma appended_inj {A} (l : list A) (r r' : A) : l ++ [r] = l ++ [r'] -> r = r'.
Proof. intros H. apply app_inj_tail in H. tauto. Qed.

Lemma legacy_handleProcess_written {engine : Engine} now w r :
  LegacyApp.messages (LegacyApp.handleProcess now w) = LegacyApp.messages w ++ [r] ->
  exists base64,
    LegacyApp.encryptText (LegacyApp.text w)
      (LegacyApp.deriveKeyFromPassword (LegacyApp.password w)) = Normal base64
    /\ r = Log.Build (LegacyApp.sender w) (js "***") base64 encrypt now.
Proof.
  unfold LegacyApp.handleProcess.
  destruct (falsy (LegacyApp.text w) || _).
  { intros H. now apply not_appended in H. }
  destruct (LegacyApp.mode w) eqn:Hm.
  - destruct (LegacyApp.encryptText _ _) as [base64|c]; simpl.
    + intros H. apply appended_inj in H. subst r. eauto.
    + intros H. now apply not_appended in H.
  - destruct (LegacyApp.decryptText _ _); simpl;
      intros H; now apply not_appended in H.
Qed.

Lemma cipher_handleProcess_written {engine : Engine} now w r :
  CipherApp.messages (CipherApp.handleProcess now w) = CipherApp.messages w ++ [r] ->
  exists base64,
    CipherApp.encryptText (CipherApp.text w)
      (CipherApp.deriveKeyBytes (CipherApp.password w)) = Normal base64
    /\ r = Log.Build (CipherApp.sender w) (js "***") base64 encrypt now.
Proof.
  unfold CipherApp.handleProcess.
  destruct (falsy (CipherApp.text w) || _).
  { intros H. now apply not_appended in H. }
  destruct (CipherApp.mode w) eqn:Hm.
  - destruct (CipherApp.encryptText _ _) as [base64|c]; simpl.
    + intros H. apply appended_inj in H. subst r. eauto.
    + intros H. now apply not_appended in H.
  - destruct (CipherApp.decryptText _ _); simpl;
      intros H; now apply not_appended in H.
Qed.

Lemma digest_handleEncrypt_written {engine : Engine} now w r :
  DigestApp.messages (DigestApp.handleEncrypt now w) = DigestApp.messages w ++ [r] ->
  exists base64,
    DigestApp.encryptText (DigestApp.text w) (DigestApp.password w) = Normal base64
    /\ r = Log.Build (DigestApp.sender w) (js "") base64 encrypt now.
Proof.
  unfold DigestApp.handleEncrypt.
  destruct (falsy (DigestApp.text w) || _ || _).
  { intros H. now apply not_appended in H. }
  destruct (DigestApp.encryptText _ _) as [base64|c]; simpl.
  - intros H. apply appended_inj in H. subst r. eauto.
  - intros H. now apply not_appended in H.
Qed.

(** C8: whatever the sender, plaintext and password, the record a handler
    appends to the log holds a constant in its password field ("***" in
    the revisions with [handleProcess], the empty string in the revision
    with [handleEncrypt]); two runs with different passwords store the
    same password field. *)
Theorem stored_password_independent_of_password {engine : Engine} :
  (forall now1 w1 r1 now2 w2 r2,
     LegacyApp.messages (LegacyApp.handleProcess now1 w1) = LegacyApp.messages w1 ++ [r1] ->
     LegacyApp.messages (LegacyApp.handleProcess now2 w2) = LegacyApp.messages w2 ++ [r2] ->
     Log.password r1 = Log.password r2 /\ Log.password r1 = js "***")
  /\ (forall now1 w1 r1 now2 w2 r2,
     CipherApp.messages (CipherApp.handleProcess now1 w1) = CipherApp.messages w1 ++ [r1] ->
     CipherApp.messages (CipherApp.handleProcess now2 w2) = CipherApp.messages w2 ++ [r2] ->
     Log.password r1 = Log.password r2 /\ Log.password r1 = js "***")
  /\ (forall now1 w1 r1 now2 w2 r2,
     DigestApp.messages (DigestApp.handleEncrypt now1 w1) = DigestApp.messages w1 ++ [r1] ->
     DigestApp.messages (DigestApp.handleEncrypt now2 w2) = DigestApp.messages w2 ++ [r2] ->
     Log.password r1 = Log.password r2 /\ Log.password r1 = js "").
Proof.
  split; [|split]; intros now1 w1 r1 now2 w2 r2 H1 H2.
  - apply legacy_handleProcess_written in H1 as (? & _ & ->).
    apply legacy_handleProcess_written in H2 as (? & _ & ->). now split.
  - apply cipher_handleProcess_written in H1 as (? & _ & ->).
    apply cipher_handleProcess_written in H2 as (? & _ & ->). now split.
  - apply digest_handleEncrypt_written in H1 as (? & _ & ->).
    apply digest_handleEncrypt_written in H2 as (? & _ & ->). now split.
Qed.

Lemma stored_password_independent_of_password_witness :
  (exists r1 r2,
     LegacyApp.messages (LegacyApp.handleProcess (engine := example_engine) 1
       (LegacyApp.Build (js "bob") (js "pw") (js "hi") encrypt [] [] [])) = [r1]
     /\ LegacyApp.messages (LegacyApp.handleProcess (engine := example_engine) 2
       (LegacyApp.Build (js "eve") (js "other") (js "yo") encrypt [] [] [])) = [r2]
     /\ Log.password r1 = Log.password r2 /\ Log.password r1 = js "***")
  /\ (exists r1 r2,
     CipherApp.messages (CipherApp.handleProcess (engine := example_engine) 1
       (CipherApp.Build (js "bob") (js "pw") (js "hi") encrypt [] [] [])) = [r1]
     /\ CipherApp.messages (CipherApp.handleProcess (engine := example_engine) 2
       (CipherApp.Build (js "eve") (js "other") (js "yo") encrypt [] [] [])) = [r2]
     /\ Log.password r1 = Log.password r2 /\ Log.password r1 = js "***")
  /\ (exists r1 r2,
     DigestApp.messages (DigestApp.handleEncrypt (engine := example_engine) 1
       (DigestApp.Build (js "bob") (js "pw") (js "hi") [] [])) = [r1]
     /\ DigestApp.messages (DigestApp.handleEncrypt (engine := example_engine) 2
       (DigestApp.Build (js "eve") (js "other") (js "yo") [] [])) = [r2]
     /\ Log.password r1 = Log.password r2 /\ Log.password r1 = js "").
Proof.
  destruct (stored_password_independent_of_password (engine := example_engine))
    as (HL & HC & HD).
  split; [|split]; eexists; eexists.
  - split; [vm_compute; reflexivity|]. split; [vm_compute; reflexivity|].
    apply (HL 1 (LegacyApp.Build (js "bob") (js "pw") (js "hi") encrypt [] [] []) _
              2 (LegacyApp.Build (js "eve") (js "other") (js "yo") encrypt [] [] []) _);
      vm_compute; reflexivity.
  - split; [vm_compute; reflexivity|]. split; [vm_compute; reflexivity|].
    apply (HC 1 (CipherApp.Build (js "bob") (js "pw") (js "hi") encrypt [] [] []) _
              2 (CipherApp.Build (js "eve") (js "other") (js "yo") encrypt [] [] []) _);
      vm_compute; reflexivity.
  - split; [vm_compute; reflexivity|]. split; [vm_compute; reflexivity|].
    apply (HD 1 (DigestApp.Build (js "bob") (js "pw") (js "hi") [] []) _
              2 (DigestApp.Build (js "eve") (js "other") (js "yo") [] []) _);
      vm_compute; reflexivity.
Defined.

(** ** The digest *)

Lemma big_endian_length n z : length (big_endian n z) = n.
Proof. unfold big_endian. now rewrite length_fmap, length_reverse, length_seq. Qed.

Lemma big_endian_bytes_ok n z : bytes_ok (big_endian n z) = true.
Proof.
  apply bytes_ok_Forall. unfold big_endian. apply Forall_fmap, Forall_forall.
  intros i _. simpl. rewrite land_255. apply Z.mod_pos_bound. lia.
Qed.

Lemma SHA256_length msg : length (SHA256 msg) = 32%nat.
Proof.
  unfold SHA256. cbv zeta.
  generalize (sha_blocks (length (sha_pad msg) / 64) sha_initial (sha_pad msg)).
  intros s. cbn [mbind list_bind]. rewrite !length_app, !big_endian_length.
  reflexivity.
Qed.

Lemma SHA256_bytes_ok msg : bytes_ok (SHA256 msg) = true.
Proof.
  unfold SHA256. cbv zeta.
  generalize (sha_blocks (length (sha_pad msg) / 64) sha_initial (sha_pad msg)).
  intros s. cbn [mbind list_bind]. rewrite !bytes_ok_app, !big_endian_bytes_ok.
  reflexivity.
Qed.

(** The vector of the specification: "hi" under the password "secret". *)
Example encrypt_hi_secret :
  DigestApp.encryptText (engine := example_engine) (js "hi") (js "secret") = Normal (js "Q9E=")
  /\ DigestApp.decryptText (js "Q9E=") (js "secret") = Normal (js "hi").
Proof. split; vm_compute; reflexivity. Qed.

Lemma digest_key_facts (password : list Z) :
  length (DigestApp.deriveKeyFromPassword password) = 32%nat
  /\ bytes_ok (DigestApp.deriveKeyFromPassword password) = true.
Proof.
  unfold DigestApp.deriveKeyFromPassword, crypto_subtle_digest_SHA256.
  split; [apply SHA256_length | apply SHA256_bytes_ok].
Qed.

(** C4: the key derivation returns the SHA-256 digest of the UTF-8
    encoding of the password, which is exactly 32 bytes, for every string,
    the empty string included; it is a total function.  That the digest
    is SHA-256 is fixed by its known answers: the empty message, "abc"
    and the two-block message of FIPS 180 (56 bytes), and a password
    whose UTF-8 encoding differs from its code units. *)
Theorem deriveKeyBytes_digest (password : list Z) :
  CipherApp.deriveKeyBytes password = SHA256 (TextEncoder_encode password)
  /\ DigestApp.deriveKeyFromPassword password = CipherApp.deriveKeyBytes password
  /\ length (CipherApp.deriveKeyBytes password) = 32%nat
  /\ bytes_ok (CipherApp.deriveKeyBytes password) = true
  /\ CipherApp.deriveKeyBytes (js "")
     = [0xe3; 0xb0; 0xc4; 0x42; 0x98; 0xfc; 0x1c; 0x14; 0x9a; 0xfb; 0xf4; 0xc8;
        0x99; 0x6f; 0xb9; 0x24; 0x27; 0xae; 0x41; 0xe4; 0x64; 0x9b; 0x93; 0x4c;
        0xa4; 0x95; 0x99; 0x1b; 0x78; 0x52; 0xb8; 0x55]
  /\ CipherApp.deriveKeyBytes (js "abc")
     = [0xba; 0x78; 0x16; 0xbf; 0x8f; 0x01; 0xcf; 0xea; 0x41; 0x41; 0x40; 0xde;
        0x5d; 0xae; 0x22; 0x23; 0xb0; 0x03; 0x61; 0xa3; 0x96; 0x17; 0x7a; 0x9c;
        0xb4; 0x10; 0xff; 0x61; 0xf2; 0x00; 0x15; 0xad]
  /\ CipherApp.deriveKeyBytes
       (js "abcdbcdecdefdefgefghfghighijhijkijkljklmklmnlmnomnopnopq")
     = [0x24; 0x8d; 0x6a; 0x61; 0xd2; 0x06; 0x38; 0xb8; 0xe5; 0xc0; 0x26; 0x93;
        0x0c; 0x3e; 0x60; 0x39; 0xa3; 0x3c; 0xe4; 0x59; 0x64; 0xff; 0x21; 0x67;
        0xf6; 0xec; 0xed; 0xd4; 0x19; 0xdb; 0x06; 0xc1]
  /\ CipherApp.deriveKeyBytes (js "비밀")
     = [0x00; 0x89; 0x7c; 0x8f; 0x8b; 0x29; 0x8f; 0xae; 0x0a; 0x09; 0xbd; 0x61;
        0xb2; 0x33; 0xf3; 0x7b; 0x30; 0xf9; 0xfc; 0x49; 0x54; 0xb1; 0x33; 0x0a;
        0x23; 0x61; 0xa8; 0xe9; 0xa2; 0x5e; 0xda; 0xd8].
Proof.
  split; [reflexivity|]. split; [reflexivity|].
  split; [apply SHA256_length|]. split; [apply SHA256_bytes_ok|].
  repeat split; vm_compute; reflexivity.
Qed.

(** ** The legacy revision with key 0 *)

Lemma legacy_xor_zero (b : Z) :
  0 <= b < 256 -> ToUint8 (bitxor (Some b) (Some 0)) = b.
Proof.
  intros Hb. rewrite bitxor_bytes by lia.
  rewrite Z.lxor_0_r. now apply ToUint8_byte.
Qed.

Lemma legacy_encryptText_zero {engine : Engine} (text : list Z) :
  string_ok text = true ->
  Z.of_nat (length (TextEncoder_encode text)) <= max_arguments ->
  LegacyApp.encryptText text 0 = Normal (base64_encode (TextEncoder_encode text)).
Proof.
  intros Hok. unfold LegacyApp.encryptText.
  pose proof (TextEncoder_encode_bytes_ok text Hok) as Hb.
  assert (Hid : (fun b => ToUint8 (bitxor (Some b) (Some 0))) <$> TextEncoder_encode text
                = TextEncoder_encode text).
  { apply bytes_ok_Forall in Hb.
    induction Hb as [|b a Hr _ IH]; [reflexivity|].
    rewrite fmap_cons, IH. f_equal. now apply legacy_xor_zero. }
  intros Hlen. cbv zeta. rewrite Hid, String_fromCharCode_bytes by assumption.
  now apply btoa_bytes.
Qed.

(** The encrypt branch on a plaintext with more UTF-8 bytes than a call
    takes arguments. *)
Lemma legacy_encryptText_long {engine : Engine} (text : list Z) (key : Z) :
  max_arguments < Z.of_nat (length (TextEncoder_encode text)) ->
  LegacyApp.encryptText text key = Throw RangeError.
Proof.
  intros Hlen. unfold LegacyApp.encryptText. cbv zeta.
  rewrite String_fromCharCode_long; [reflexivity|].
  now rewrite length_fmap.
Qed.

(** C10, as the code has it: the empty password derives key 0 and XOR
    with 0 is the identity on bytes, but the handler returns before
    encrypting when the password is empty, and nothing is stored.  With a
    password that is not empty and derives key 0, a sender and a plaintext
    that are not empty, the handler appends a record whose text is exactly
    the Base64 of the UTF-8 bytes of the plaintext, as long as these bytes
    are no more than a call takes arguments; with more of them
    [String.fromCharCode(...encrypted)] throws and nothing is stored. *)
Theorem legacy_key_zero_stores_plain_base64 {engine : Engine} (now : Z) (w : LegacyApp.World) :
  LegacyApp.mode w = encrypt ->
  falsy (LegacyApp.text w) = false ->
  falsy (LegacyApp.password w) = false ->
  falsy (LegacyApp.sender w) = false ->
  string_ok (LegacyApp.text w) = true ->
  LegacyApp.deriveKeyFromPassword (LegacyApp.password w) = 0 ->
  LegacyApp.deriveKeyFromPassword [] = 0
  /\ (forall b, 0 <= b < 256 -> ToUint8 (bitxor (Some b) (Some 0)) = b)
  /\ (forall now' w',
        LegacyApp.mode w' = encrypt -> falsy (LegacyApp.password w') = true ->
        LegacyApp.handleProcess now' w' = w')
  /\ (Z.of_nat (length (TextEncoder_encode (LegacyApp.text w))) <= max_arguments ->
      LegacyApp.messages (LegacyApp.handleProcess now w)
      = LegacyApp.messages w
        ++ [Log.Build (LegacyApp.sender w) (js "***")
              (base64_encode (TextEncoder_encode (LegacyApp.text w))) encrypt now])
  /\ (max_arguments < Z.of_nat (length (TextEncoder_encode (LegacyApp.text w))) ->
      LegacyApp.handleProcess now w = w).
Proof.
  intros Hm Ht Hp Hs Hok Hkey.
  split; [reflexivity|]. split; [exact legacy_xor_zero|]. split; [|split].
  - intros now' w' Hm' Hp'. unfold LegacyApp.handleProcess.
    rewrite Hm', Hp'. now rewrite orb_true_r.
  - intros Hlen. unfold LegacyApp.handleProcess.
    rewrite Hm, Ht, Hp, Hs, Hkey, legacy_encryptText_zero by assumption.
    reflexivity.
  - intros Hlen. unfold LegacyApp.handleProcess.
    rewrite Hm, Ht, Hp, Hs, Hkey, legacy_encryptText_long by assumption.
    reflexivity.
Qed.

Lemma legacy_key_zero_stores_plain_base64_witness :
  LegacyApp.deriveKeyFromPassword [] = 0
  /\ (forall b, 0 <= b < 256 -> ToUint8 (bitxor (Some b) (Some 0)) = b)
  /\ (forall now' w',
        LegacyApp.mode w' = encrypt -> falsy (LegacyApp.password w') = true ->
        LegacyApp.handleProcess (engine := example_engine) now' w' = w')
  /\ LegacyApp.messages
       (LegacyApp.handleProcess (engine := example_engine) 7
          (LegacyApp.Build (js "bob") (js "aA") (js "hi") encrypt [] [] []))
     = [Log.Build (js "bob") (js "***")
          (base64_encode (TextEncoder_encode (js "hi"))) encrypt 7].
Proof.
  destruct (legacy_key_zero_stores_plain_base64 (engine := example_engine) 7
              (LegacyApp.Build (js "bob") (js "aA") (js "hi") encrypt [] [] []))
    as (H0 & Hx & He & Hs & _); try reflexivity.
  split; [exact H0|]. split; [exact Hx|]. split; [exact He|].
  apply Hs. vm_compute. discriminate.
Defined.

(** C10 as stated fails: with the empty password the legacy handler
    stores nothing.  Nor does it, under the password "aA" of key 0, store
    a plaintext of 65537 bytes when a call takes 65536 arguments. *)
Lemma legacy_empty_password_counterexample :
  LegacyApp.deriveKeyFromPassword (js "") = 0
  /\ LegacyApp.messages
       (LegacyApp.handleProcess (engine := example_engine) 7
          (LegacyApp.Build (js "bob") (js "") (js "hi") encrypt [] [] []))
     = []
  /\ LegacyApp.messages
       (LegacyApp.handleProcess (engine := example_engine) 7
          (LegacyApp.Build (js "bob") (js "") (js "hi") encrypt [] [] []))
     <> [Log.Build (js "bob") (js "***")
           (base64_encode (TextEncoder_encode (js "hi"))) encrypt 7]
  /\ LegacyApp.deriveKeyFromPassword (js "aA") = 0
  /\ LegacyApp.messages
       (LegacyApp.handleProcess (engine := example_engine) 7
          (LegacyApp.Build (js "bob") (js "aA") (replicate (Z.to_nat 65537) 97)
             encrypt [] [] []))
     = [].
Proof.
  split; [reflexivity|]. split; [vm_compute; reflexivity|].
  split; [vm_compute; discriminate|].
  split; vm_compute; reflexivity.
Qed.

(** ** What [atob] accepts *)

Lemma base64_index_alphabet c :
  is_Some (base64_index c) <-> base64_alphabet c = true.
Proof.
  unfold base64_index, base64_alphabet.
  destruct ((65 <=? c) && (c <=? 90)); [simpl; split; eauto|].
  destruct ((97 <=? c) && (c <=? 122)); [simpl; split; eauto|].
  destruct ((48 <=? c) && (c <=? 57)); [simpl; split; eauto|].
  destruct (c =? 43); [simpl; split; eauto|].
  destruct (c =? 47); [simpl; split; eauto|].
  simpl. split; [intros [? ?]; discriminate | discriminate].
Qed.

Lemma mapM_base64_index (data : list Z) :
  is_Some (mapM base64_index data) <-> forallb base64_alphabet data = true.
Proof.
  rewrite mapM_is_Some, forallb_forall, Forall_forall.
  split; intros H c Hc.
  - apply base64_index_alphabet, H, list_elem_of_In, Hc.
  - apply base64_index_alphabet, H, list_elem_of_In, Hc.
Qed.

(** The test [atob] makes once whitespace and padding are removed. *)
Lemma atob_throws (s : list Z) :
  atob s = Throw InvalidEncoding <->
  negb (length (remove_padding (without_whitespace s)) mod 4 =? 1)%nat
  && forallb base64_alphabet (remove_padding (without_whitespace s)) = false.
Proof.
  unfold atob, without_whitespace. cbv zeta.
  set (data := remove_padding _).
  destruct (length data mod 4 =? 1)%nat; [simpl; tauto|]. simpl.
  pose proof (mapM_base64_index data) as Hm.
  destruct (mapM base64_index data) as [indices|].
  - assert (forallb base64_alphabet data = true) as -> by (apply Hm; eauto).
    split; discriminate.
  - destruct (forallb base64_alphabet data); [|tauto].
    destruct (proj2 Hm eq_refl). discriminate.
Qed.

Lemma drop_trailing_equals_nil : drop_trailing_equals [] = [].
Proof. reflexivity. Qed.

Lemma drop_trailing_equals_snoc (l : list Z) c :
  drop_trailing_equals (l ++ [c]) = if c =? 61 then l else l ++ [c].
Proof.
  unfold drop_trailing_equals. rewrite reverse_snoc.
  destruct (c =? 61); [apply reverse_involutive | reflexivity].
Qed.

Lemma alphabet_snoc (l : list Z) c :
  forallb base64_alphabet (l ++ [c]) = forallb base64_alphabet l && base64_alphabet c.
Proof. rewrite forallb_app. simpl. now rewrite andb_true_r. Qed.

Lemma padded_with_0 (s : list Z) : padded_with 0 s = forallb base64_alphabet s.
Proof.
  unfold padded_with. rewrite Nat.sub_0_r, firstn_all, drop_all. simpl.
  now rewrite andb_true_r.
Qed.

Lemma padded_with_1_nil : padded_with 1 [] = false.
Proof. reflexivity. Qed.

Lemma padded_with_1_snoc (l : list Z) c :
  padded_with 1 (l ++ [c]) = forallb base64_alphabet l && (61 =? c).
Proof.
  unfold padded_with. rewrite length_app. simpl length.
  replace (length l + 1 - 1)%nat with (length l) by lia.
  rewrite take_app_length, drop_app_length.
  destruct (Nat.leb_spec 1 (length l + 1)); [|lia].
  cbn [forallb andb]. now rewrite andb_true_r.
Qed.

Lemma padded_with_2_short (s : list Z) : (length s < 2)%nat -> padded_with 2 s = false.
Proof.
  intros H. unfold padded_with.
  destruct (Nat.leb_spec 2 (length s)); [lia | reflexivity].
Qed.

Lemma padded_with_2_snoc (l : list Z) b c :
  padded_with 2 ((l ++ [b]) ++ [c])
  = forallb base64_alphabet l && ((61 =? b) && (61 =? c)).
Proof.
  unfold padded_with. rewrite <- app_assoc. rewrite length_app. simpl length.
  replace (length l + 2 - 2)%nat with (length l) by lia.
  rewrite take_app_length, drop_app_length.
  destruct (Nat.leb_spec 2 (length l + 2)); [|lia].
  cbn [app forallb andb]. now rewrite andb_true_r.
Qed.

Lemma alphabet_61 : base64_alphabet 61 = false.
Proof. reflexivity. Qed.

Lemma eqb_61_sym c : (61 =? c) = (c =? 61).
Proof. apply Z.eqb_sym. Qed.

Lemma alphabet_not_61 c : base64_alphabet c = true -> (c =? 61) = false.
Proof.
  intros H. destruct (Z.eqb_spec c 61) as [->|]; [discriminate | reflexivity].
Qed.

(** The test of [atob] after whitespace is removed accepts exactly padded
    Base64 and Base64 without its padding. *)
Lemma remove_padding_accepts (d : list Z) :
  negb (length (remove_padding d) mod 4 =? 1)%nat
  && forallb base64_alphabet (remove_padding d)
  = valid_padded_base64 d || unpadded_base64 d.
Proof.
  unfold remove_padding, valid_padded_base64, unpadded_base64.
  destruct (Nat.eqb_spec (length d mod 4) 0) as [H0|H0].
  - (* the length is a multiple of four: padding is removed *)
    assert ((length d mod 4 =? 2)%nat || (length d mod 4 =? 3)%nat = false) as ->.
    { rewrite H0. reflexivity. }
    rewrite andb_false_r, orb_false_r, andb_true_l, padded_with_0.
    destruct d as [|c l _] using rev_ind; [reflexivity|].
    rewrite length_app in H0. simpl length in H0.
    rewrite drop_trailing_equals_snoc, padded_with_1_snoc, alphabet_snoc, eqb_61_sym.
    destruct (Z.eqb_spec c 61) as [->|Hc].
    + (* one [=] at least *)
      rewrite alphabet_61, andb_false_r, andb_true_r, orb_false_l.
      destruct l as [|b l' _] using rev_ind; [discriminate|].
      rewrite length_app in H0. simpl length in H0.
      rewrite drop_trailing_equals_snoc, padded_with_2_snoc, alphabet_snoc.
      rewrite eqb_61_sym. change (61 =? 61) with true. rewrite andb_true_r.
      destruct (Z.eqb_spec b 61) as [->|Hb].
      * rewrite alphabet_61, andb_false_r, andb_true_r, orb_false_l.
        destruct (Nat.eqb_spec (length l' mod 4) 1); [dlia | reflexivity].
      * rewrite andb_false_r, orb_false_r, length_app. simpl length.
        destruct (Nat.eqb_spec ((length l' + 1) mod 4) 1); [dlia |].
        now rewrite alphabet_snoc.
    + (* no padding *)
      rewrite andb_false_r, orb_false_r, drop_trailing_equals_snoc.
      destruct (Z.eqb_spec c 61) as [|_]; [contradiction|].
      rewrite alphabet_snoc, length_app. simpl length.
      assert (padded_with 2 (l ++ [c]) = false) as ->.
      { destruct l as [|b l' _] using rev_ind; [reflexivity|].
        rewrite padded_with_2_snoc, (eqb_61_sym c).
        destruct (Z.eqb_spec c 61) as [|_]; [contradiction|].
        now rewrite !andb_false_r. }
      rewrite orb_false_r.
      destruct (Nat.eqb_spec ((length l + 1) mod 4) 1); [dlia | reflexivity].
  - (* otherwise the data is read as it is *)
    rewrite andb_false_l, orb_false_l, andb_comm. f_equal.
    destruct (Nat.eqb_spec (length d mod 4) 1), (Nat.eqb_spec (length d mod 4) 2),
      (Nat.eqb_spec (length d mod 4) 3); try reflexivity; dlia.
Qed.

(** [atob] throws exactly on the strings that, whitespace removed, are
    neither padded Base64 nor Base64 without its padding. *)
Lemma atob_throws_iff (s : list Z) :
  atob s = Throw InvalidEncoding <->
  valid_padded_base64 (without_whitespace s) = false
  /\ unpadded_base64 (without_whitespace s) = false.
Proof. rewrite atob_throws, remove_padding_accepts. apply orb_false_iff. Qed.

(** ** Decryption of malformed Base64 *)

Lemma digest_decryptText_atob text password :
  DigestApp.decryptText text password =
  match atob text with
  | Normal binaryStr =>
      Normal (TextDecoder_decode
                (DigestApp.decryptedBytes binaryStr
                   (DigestApp.deriveKeyFromPassword password)))
  | Throw c => Throw c
  end.
Proof. unfold DigestApp.decryptText. now destruct (atob text). Qed.

Lemma legacy_decryptText_atob text key :
  LegacyApp.decryptText text key =
  match atob text with
  | Normal binaryStr =>
      Normal (TextDecoder_decode
                (ToUint8 <$> ((fun b => bitxor (Some b) (Some key))
                              <$> spread_charCodes binaryStr)))
  | Throw c => Throw c
  end.
Proof. unfold LegacyApp.decryptText. now destruct (atob text). Qed.

Lemma cipher_decryptText_atob text keyBytes :
  CipherApp.decryptText text keyBytes =
  match atob text with
  | Normal binaryStr =>
      Normal (TextDecoder_decode
                (imap (fun i b => ToUint8 (xor_with_key keyBytes i b))
                      (ToUint8 <$> spread_charCodes binaryStr)))
  | Throw c => Throw c
  end.
Proof. unfold CipherApp.decryptText. now destruct (atob text). Qed.

(** C7, as the code has it: [atob] is forgiving.  When the text, with its
    ASCII whitespace removed, is neither padded Base64 nor Base64 without
    its padding, decryption fails with InvalidEncoding: [handleDecrypt]
    (password and text not empty) shows its failure message and the legacy
    [handleProcess] (text not empty) raises its alert.  The text
    "not-base64!!" is such a text. *)
Theorem decrypt_malformed_base64 {engine : Engine} (text password : list Z) :
  valid_padded_base64 (without_whitespace text) = false ->
  unpadded_base64 (without_whitespace text) = false ->
  falsy text = false ->
  falsy password = false ->
  DigestApp.decryptText text password = Throw InvalidEncoding
  /\ (forall sender result messages,
        DigestApp.handleDecrypt (DigestApp.Build sender password text result messages)
        = DigestApp.Build sender password text
            (js "복호화 실패: 키가 맞지 않거나 형식 오류") messages)
  /\ (forall key, LegacyApp.decryptText text key = Throw InvalidEncoding)
  /\ (forall now sender anyPassword decryptedResult messages alerts,
        LegacyApp.handleProcess now
          (LegacyApp.Build sender anyPassword text decrypt decryptedResult messages alerts)
        = LegacyApp.Build sender anyPassword text decrypt decryptedResult messages
            (alerts ++ [js "⚠️ 복호화 실패: 올바른 Base64 형식이 아닙니다."]))
  /\ DigestApp.decryptText (js "not-base64!!") password = Throw InvalidEncoding.
Proof.
  intros Hv Hu Ht Hp.
  assert (Ha : atob text = Throw InvalidEncoding) by now apply atob_throws_iff.
  assert (Hd : DigestApp.decryptText text password = Throw InvalidEncoding).
  { now rewrite digest_decryptText_atob, Ha. }
  assert (Hl : forall key, LegacyApp.decryptText text key = Throw InvalidEncoding).
  { intros key. now rewrite legacy_decryptText_atob, Ha. }
  split; [exact Hd|]. split; [|split; [exact Hl|split]].
  - intros sender result messages. unfold DigestApp.handleDecrypt. simpl.
    now rewrite Ht, Hp, Hd.
  - intros now sender anyPassword decryptedResult messages alerts.
    unfold LegacyApp.handleProcess. simpl. now rewrite Ht, Hl.
  - rewrite digest_decryptText_atob.
    assert (atob (js "not-base64!!") = Throw InvalidEncoding) as ->;
      [vm_compute|]; reflexivity.
Qed.

Lemma decrypt_malformed_base64_witness :
  DigestApp.decryptText (js "aGk=aGk=") (js "pw") = Throw InvalidEncoding
  /\ (forall sender result messages,
        DigestApp.handleDecrypt
          (DigestApp.Build sender (js "pw") (js "aGk=aGk=") result messages)
        = DigestApp.Build sender (js "pw") (js "aGk=aGk=")
            (js "복호화 실패: 키가 맞지 않거나 형식 오류") messages)
  /\ (forall key, LegacyApp.decryptText (js "aGk=aGk=") key = Throw InvalidEncoding)
  /\ (forall now sender anyPassword decryptedResult messages alerts,
        LegacyApp.handleProcess (engine := example_engine) now
          (LegacyApp.Build sender anyPassword (js "aGk=aGk=") decrypt
             decryptedResult messages alerts)
        = LegacyApp.Build sender anyPassword (js "aGk=aGk=") decrypt
            decryptedResult messages
            (alerts ++ [js "⚠️ 복호화 실패: 올바른 Base64 형식이 아닙니다."]))
  /\ DigestApp.decryptText (js "not-base64!!") (js "pw") = Throw InvalidEncoding.
Proof.
  apply (decrypt_malformed_base64 (js "aGk=aGk=") (js "pw")); reflexivity.
Defined.

(** C7 as stated fails: "YQ" has length 2, so it is not padded Base64, and
    " YQ==" has a space; both decrypt to a string under the password "pw",
    and with the empty password [handleDecrypt] returns without failing. *)
Lemma decrypt_malformed_base64_counterexample :
  valid_padded_base64 (js "YQ") = false
  /\ (exists decryptedText, DigestApp.decryptText (js "YQ") (js "pw") = Normal decryptedText)
  /\ DigestApp.decryptText (js "YQ") (js "pw") <> Throw InvalidEncoding
  /\ (exists decryptedText, LegacyApp.decryptText (js "YQ") 0 = Normal decryptedText)
  /\ valid_padded_base64 (js " YQ==") = false
  /\ (exists decryptedText, DigestApp.decryptText (js " YQ==") (js "pw") = Normal decryptedText)
  /\ DigestApp.handleDecrypt (DigestApp.Build [] (js "") (js "not-base64!!") [] [])
     = DigestApp.Build [] (js "") (js "not-base64!!") [] [].
Proof.
  split; [reflexivity|].
  split; [eexists; vm_compute; reflexivity|].
  split; [vm_compute; discriminate|].
  split; [eexists; vm_compute; reflexivity|].
  split; [reflexivity|].
  split; [eexists; vm_compute; reflexivity|].
  reflexivity.
Qed.

(** ** The UTF-8 decoder on what the encoder writes *)

Lemma utf8_handler_ascii b :
  b <= 0x7F -> utf8_handler utf8_fresh b = (utf8_fresh, [b]).
Proof.
  intros Hb. unfold utf8_handler, utf8_lead. simpl.
  destruct (Z.leb_spec b 0x7F); [reflexivity | lia].
Qed.

Lemma utf8_handler_lead2 b :
  0xC2 <= b <= 0xDF ->
  utf8_handler utf8_fresh b = (Utf8Decoder (Z.land b 0x1F) 0 1 0x80 0xBF, []).
Proof.
  intros Hb. unfold utf8_handler, utf8_lead. simpl.
  destruct (Z.leb_spec b 0x7F); [lia|].
  destruct (Z.leb_spec 0xC2 b), (Z.leb_spec b 0xDF); try lia. reflexivity.
Qed.

Lemma utf8_handler_lead3 b :
  0xE0 <= b <= 0xEF ->
  utf8_handler utf8_fresh b =
  (Utf8Decoder (Z.land b 0xF) 0 2
     (if b =? 0xE0 then 0xA0 else 0x80) (if b =? 0xED then 0x9F else 0xBF), []).
Proof.
  intros Hb. unfold utf8_handler, utf8_lead. simpl.
  destruct (Z.leb_spec b 0x7F); [lia|].
  destruct (Z.leb_spec 0xC2 b), (Z.leb_spec b 0xDF); try lia.
  destruct (Z.leb_spec 0xE0 b), (Z.leb_spec b 0xEF); try lia. reflexivity.
Qed.

Lemma utf8_handler_lead4 b :
  0xF0 <= b <= 0xF4 ->
  utf8_handler utf8_fresh b =
  (Utf8Decoder (Z.land b 0x7) 0 3
     (if b =? 0xF0 then 0x90 else 0x80) (if b =? 0xF4 then 0x8F else 0xBF), []).
Proof.
  intros Hb. unfold utf8_handler, utf8_lead. simpl.
  destruct (Z.leb_spec b 0x7F); [lia|].
  destruct (Z.leb_spec 0xC2 b), (Z.leb_spec b 0xDF); try lia.
  destruct (Z.leb_spec 0xE0 b), (Z.leb_spec b 0xEF); try lia.
  destruct (Z.leb_spec 0xF0 b), (Z.leb_spec b 0xF4); try lia. reflexivity.
Qed.

(** A continuation byte [128 + x] within the boundaries of the open
    sequence adds its six bits [x] to the code point. *)
Lemma utf8_handler_continue cp seen needed lower upper x :
  needed <> 0 -> 0 <= x < 64 -> lower <= 128 + x <= upper ->
  utf8_handler (Utf8Decoder cp seen needed lower upper) (128 + x) =
  if seen + 1 =? needed then (utf8_fresh, [cp * 64 + x])
  else (Utf8Decoder (cp * 64 + x) (seen + 1) needed 0x80 0xBF, []).
Proof.
  intros Hn Hx Hb. unfold utf8_handler. simpl.
  destruct (Z.eqb_spec needed 0); [contradiction|].
  destruct (Z.ltb_spec (128 + x) lower); [lia|].
  destruct (Z.ltb_spec upper (128 + x)); [lia|]. simpl.
  assert (Z.lor (Z.shiftl cp 6) (Z.land (128 + x) 0x3F) = cp * 64 + x) as ->.
  { change 0x3F with 63. rewrite land_63.
    replace ((128 + x) mod 64) with x by dlia.
    apply (lor_shiftl cp x 6); lia. }
  reflexivity.
Qed.

Lemma utf8_handler_last cp seen needed lower upper x :
  needed <> 0 -> 0 <= x < 64 -> lower <= 128 + x <= upper ->
  seen + 1 = needed ->
  utf8_handler (Utf8Decoder cp seen needed lower upper) (128 + x)
  = (utf8_fresh, [cp * 64 + x]).
Proof.
  intros Hn Hx Hb Hlast. rewrite utf8_handler_continue by assumption.
  destruct (Z.eqb_spec (seen + 1) needed); [reflexivity | contradiction].
Qed.

Lemma utf8_handler_more cp seen needed lower upper x :
  needed <> 0 -> 0 <= x < 64 -> lower <= 128 + x <= upper ->
  seen + 1 <> needed ->
  utf8_handler (Utf8Decoder cp seen needed lower upper) (128 + x)
  = (Utf8Decoder (cp * 64 + x) (seen + 1) needed 0x80 0xBF, []).
Proof.
  intros Hn Hx Hb Hmore. rewrite utf8_handler_continue by assumption.
  destruct (Z.eqb_spec (seen + 1) needed); [contradiction | reflexivity].
Qed.

Lemma utf8_decode_cons d b rest :
  utf8_decode d (b :: rest)
  = snd (utf8_handler d b) ++ utf8_decode (fst (utf8_handler d b)) rest.
Proof. reflexivity. Qed.

(** The bytes of a scalar value, as arithmetic. *)
Lemma utf8_bytes_arith cp :
  0 <= cp < 0x110000 ->
  utf8_bytes cp =
  if cp <? 0x80 then [cp]
  else if cp <? 0x800 then [192 + cp / 64; 128 + cp mod 64]
  else if cp <? 0x10000 then
    [224 + cp / 4096; 128 + (cp / 64) mod 64; 128 + cp mod 64]
  else [240 + cp / 262144; 128 + (cp / 4096) mod 64;
        128 + (cp / 64) mod 64; 128 + cp mod 64].
Proof.
  intros Hr. unfold utf8_bytes.
  destruct (Z.ltb_spec cp 0x80); [reflexivity|].
  destruct (Z.ltb_spec cp 0x800).
  { bits_to_arith. now rewrite lor_0xC0, lor_0x80 by dlia. }
  destruct (Z.ltb_spec cp 0x10000).
  { bits_to_arith. now rewrite lor_0xE0, !lor_0x80 by dlia. }
  bits_to_arith. now rewrite lor_0xF0, !lor_0x80 by dlia.
Qed.

(** Decoding the bytes of one scalar value gives it back and leaves the
    decoder ready for the next. *)
Lemma utf8_decode_bytes cp rest :
  is_scalar_value cp = true ->
  utf8_decode utf8_fresh (utf8_bytes cp ++ rest) = cp :: utf8_decode utf8_fresh rest.
Proof.
  intros Hcp. apply is_scalar_value_range in Hcp as [Hr Hs].
  rewrite utf8_bytes_arith by exact Hr.
  destruct (Z.ltb_spec cp 0x80).
  { cbn [app]. now rewrite utf8_decode_cons, utf8_handler_ascii by lia. }
  destruct (Z.ltb_spec cp 0x800).
  { cbn [app]. rewrite utf8_decode_cons, utf8_handler_lead2 by dlia.
    cbn [fst snd app]. rewrite utf8_decode_cons, utf8_handler_last by dlia.
    cbn [fst snd app]. f_equal.
    change 0x1F with 31. rewrite land_31. dlia. }
  destruct (Z.ltb_spec cp 0x10000).
  { cbn [app]. rewrite utf8_decode_cons, utf8_handler_lead3 by dlia.
    cbn [fst snd app].
    rewrite utf8_decode_cons, utf8_handler_more;
      [|lia|dlia|destruct (Z.eqb_spec (224 + cp / 4096) 0xE0),
                  (Z.eqb_spec (224 + cp / 4096) 0xED); dlia|lia].
    cbn [fst snd app].
    rewrite utf8_decode_cons, utf8_handler_last by dlia.
    cbn [fst snd app]. f_equal.
    change 0xF with 15. rewrite land_15. dlia. }
  cbn [app]. rewrite utf8_decode_cons, utf8_handler_lead4 by dlia.
  cbn [fst snd app].
  rewrite utf8_decode_cons, utf8_handler_more;
    [|lia|dlia|destruct (Z.eqb_spec (240 + cp / 262144) 0xF0),
                (Z.eqb_spec (240 + cp / 262144) 0xF4); dlia|lia].
  cbn [fst snd app].
  rewrite utf8_decode_cons, utf8_handler_more by dlia.
  cbn [fst snd app].
  rewrite utf8_decode_cons, utf8_handler_last by dlia.
  cbn [fst snd app]. f_equal.
  change 0x7 with 7. rewrite land_7. dlia.
Qed.

Lemma utf8_decode_encoded (cps : list Z) :
  Forall (fun cp => is_scalar_value cp = true) cps ->
  utf8_decode utf8_fresh (cps ≫= utf8_bytes) = cps.
Proof.
  induction 1 as [|cp cps Hcp _ IH]; [reflexivity|].
  change ((cp :: cps) ≫= utf8_bytes) with (utf8_bytes cp ++ (cps ≫= utf8_bytes)).
  now rewrite utf8_decode_bytes, IH.
Qed.

(** ** Strings as scalar values and back *)

Lemma well_formed_pair c d s :
  well_formed (c :: d :: s) =
  if is_lead c then is_trail d && well_formed s
  else is_code_unit c && negb (is_trail c) && well_formed (d :: s).
Proof. reflexivity. Qed.

Lemma scalar_values_pair c d s :
  scalar_values (c :: d :: s) =
  if is_lead c then
    if is_trail d
    then (0x10000 + Z.shiftl (c - 0xD800) 10 + (d - 0xDC00)) :: scalar_values s
    else 0xFFFD :: scalar_values (d :: s)
  else if is_trail c then 0xFFFD :: scalar_values (d :: s)
  else c :: scalar_values (d :: s).
Proof. reflexivity. Qed.

Lemma is_code_unit_range c : is_code_unit c = true <-> 0 <= c < 65536.
Proof. unfold is_code_unit. rewrite andb_true_iff, Z.leb_le, Z.ltb_lt. tauto. Qed.

Lemma well_formed_string_ok (s : list Z) :
  well_formed s = true -> string_ok s = true.
Proof.
  induction s as [|c|c d s IH1 IH2] using list_pair_ind.
  - reflexivity.
  - cbn [well_formed]. destruct (is_lead c); [discriminate|].
    rewrite !andb_true_iff. intros [[Hc _] _]. apply string_ok_cons.
    split; [now apply is_code_unit_range | reflexivity].
  - rewrite well_formed_pair. destruct (is_lead c) eqn:Hl.
    + rewrite andb_true_iff. intros [Ht Hs].
      apply is_lead_range in Hl. apply is_trail_range in Ht.
      apply string_ok_cons. split; [lia|].
      apply string_ok_cons. split; [lia | now apply IH1].
    + rewrite !andb_true_iff. intros [[Hc _] Hs].
      apply string_ok_cons. split; [now apply is_code_unit_range | now apply IH2].
Qed.

Lemma code_units_pair c d :
  0xD800 <= c <= 0xDBFF -> 0xDC00 <= d <= 0xDFFF ->
  code_units (0x10000 + Z.shiftl (c - 0xD800) 10 + (d - 0xDC00)) = [c; d].
Proof.
  intros Hc Hd. unfold code_units.
  destruct (Z.ltb_spec (0x10000 + Z.shiftl (c - 0xD800) 10 + (d - 0xDC00)) 0x10000)
    as [Hlt|_].
  { rewrite Z.shiftl_mul_pow2 in Hlt by lia. lia. }
  change 0x3FF with 1023. bits_to_arith.
  f_equal; [|f_equal]; dlia.
Qed.

(** A well-formed string is the UTF-16 form of its scalar values. *)
Lemma scalar_values_code_units (s : list Z) :
  well_formed s = true -> scalar_values s ≫= code_units = s.
Proof.
  induction s as [|c|c d s IH1 IH2] using list_pair_ind.
  - reflexivity.
  - simpl. destruct (is_lead c) eqn:Hl; [discriminate|].
    rewrite !andb_true_iff, negb_true_iff. intros [[Hc Ht] _]. rewrite Ht.
    apply is_code_unit_range in Hc.
    cbn [mbind list_bind app]. unfold code_units.
    destruct (Z.ltb_spec c 0x10000); [reflexivity | lia].
  - rewrite well_formed_pair, scalar_values_pair.
    destruct (is_lead c) eqn:Hl.
    + rewrite andb_true_iff. intros [Ht Hs]. rewrite Ht.
      apply is_lead_range in Hl. apply is_trail_range in Ht.
      cbn [mbind list_bind]. rewrite code_units_pair by assumption.
      cbn [app]. f_equal. f_equal. now apply IH1.
    + rewrite !andb_true_iff, negb_true_iff. intros [[Hc Ht] Hs]. rewrite Ht.
      apply is_code_unit_range in Hc.
      cbn [mbind list_bind]. unfold code_units at 1.
      destruct (Z.ltb_spec c 0x10000); [|lia].
      cbn [app]. f_equal. now apply IH2.
Qed.

(** The first scalar value of a well-formed string is U+FEFF only if its
    first code unit is. *)
Lemma strip_BOM_scalar_values (s : list Z) :
  well_formed s = true -> starts_with_BOM s = false ->
  strip_BOM (scalar_values s) = scalar_values s.
Proof.
  destruct s as [|c [|d s]].
  - reflexivity.
  - simpl. destruct (is_lead c); [discriminate|].
    rewrite !andb_true_iff, negb_true_iff. intros [[_ Ht] _] Hb. rewrite Ht.
    unfold strip_BOM. now rewrite Hb.
  - rewrite well_formed_pair, scalar_values_pair. unfold starts_with_BOM.
    destruct (is_lead c) eqn:Hl.
    + rewrite andb_true_iff. intros [Ht _] _. rewrite Ht.
      apply is_lead_range in Hl. apply is_trail_range in Ht.
      unfold strip_BOM.
      destruct (Z.eqb_spec (0x10000 + Z.shiftl (c - 0xD800) 10 + (d - 0xDC00)) 0xFEFF)
        as [Heq|_]; [|reflexivity].
      rewrite Z.shiftl_mul_pow2 in Heq by lia. lia.
    + rewrite !andb_true_iff, negb_true_iff. intros [[_ Ht] _] Hb. rewrite Ht.
      unfold strip_BOM. now rewrite Hb.
Qed.

(** Decoding after encoding is the identity on the well-formed strings
    that do not begin with U+FEFF. *)
Lemma TextDecoder_TextEncoder (s : list Z) :
  well_formed s = true -> starts_with_BOM s = false ->
  TextDecoder_decode (TextEncoder_encode s) = s.
Proof.
  intros Hwf Hbom. unfold TextDecoder_decode, TextEncoder_encode.
  rewrite utf8_decode_encoded
    by (apply scalar_values_scalar, well_formed_string_ok, Hwf).
  rewrite strip_BOM_scalar_values by assumption.
  now apply scalar_values_code_units.
Qed.

(** ** Base64: [atob] after [btoa] *)

Lemma list_triple_ind {A} (P : list A -> Prop) :
  P [] ->
  (forall x, P [x]) ->
  (forall x y, P [x; y]) ->
  (forall x y z rest, P rest -> P (x :: y :: z :: rest)) ->
  forall l, P l.
Proof.
  intros H0 H1 H2 H3 l.
  assert (H : P l /\ (forall x, P (x :: l)) /\ forall x y, P (x :: y :: l));
    [|apply H].
  induction l as [|z l (IH0 & IH1 & IH2)].
  - auto.
  - split; [apply IH1|]. split; [intros x; apply IH2|]. intros x y. now apply H3.
Qed.

Lemma base64_encode_triple x y z rest :
  base64_encode (x :: y :: z :: rest) =
  base64_char (Z.shiftr x 2)
  :: base64_char (Z.lor (Z.shiftl (Z.land x 3) 4) (Z.shiftr y 4))
  :: base64_char (Z.lor (Z.shiftl (Z.land y 15) 2) (Z.shiftr z 6))
  :: base64_char (Z.land z 63)
  :: base64_encode rest.
Proof. reflexivity. Qed.

Lemma sextets_triple x y z rest :
  sextets (x :: y :: z :: rest) =
  x / 4 :: x mod 4 * 16 + y / 16 :: y mod 16 * 4 + z / 64 :: z mod 64
  :: sextets rest.
Proof. reflexivity. Qed.

Lemma padding_length_triple {A} (x y z : A) rest :
  padding_length (length (x :: y :: z :: rest)) = padding_length (length rest).
Proof.
  unfold padding_length. cbn [length].
  replace (S (S (S (length rest))) mod 3)%nat with (length rest mod 3)%nat by dlia.
  reflexivity.
Qed.

(** [btoa] writes the characters of the six-bit groups, then the padding. *)
Lemma base64_encode_sextets (input : list Z) :
  bytes_ok input = true ->
  base64_encode input
  = (base64_char <$> sextets input) ++ replicate (padding_length (length input)) 61.
Proof.
  induction input as [|x|x y|x y z rest IH] using list_triple_ind; intros Hok.
  - reflexivity.
  - apply bytes_ok_Forall in Hok. inversion_clear Hok as [|? ? Hx _].
    cbn [base64_encode sextets]. bits_to_arith. reflexivity.
  - apply bytes_ok_Forall in Hok. inversion_clear Hok as [|? ? Hx Hok'].
    inversion_clear Hok' as [|? ? Hy _].
    cbn [base64_encode sextets]. bits_to_arith.
    rewrite (lor_x16 (x mod 4) (y / 16)) by dlia. reflexivity.
  - pose proof Hok as Hok'. apply bytes_ok_Forall in Hok'.
    inversion_clear Hok' as [|? ? Hx Hok1]. inversion_clear Hok1 as [|? ? Hy Hok2].
    inversion_clear Hok2 as [|? ? Hz Hrest]. apply bytes_ok_Forall in Hrest.
    rewrite base64_encode_triple, sextets_triple, padding_length_triple, IH by exact Hrest.
    bits_to_arith.
    rewrite (lor_x16 (x mod 4) (y / 16)) by dlia.
    rewrite (lor_x4 (y mod 16) (z / 64)) by dlia.
    reflexivity.
Qed.

Lemma sextets_range (input : list Z) :
  bytes_ok input = true -> Forall (fun i => 0 <= i < 64) (sextets input).
Proof.
  induction input as [|x|x y|x y z rest IH] using list_triple_ind; intros Hok.
  - constructor.
  - apply bytes_ok_Forall in Hok. inversion_clear Hok as [|? ? Hx _].
    cbn [sextets]. repeat constructor; dlia.
  - apply bytes_ok_Forall in Hok. inversion_clear Hok as [|? ? Hx Hok'].
    inversion_clear Hok' as [|? ? Hy _].
    cbn [sextets]. repeat constructor; dlia.
  - apply bytes_ok_Forall in Hok.
    inversion_clear Hok as [|? ? Hx Hok1]. inversion_clear Hok1 as [|? ? Hy Hok2].
    inversion_clear Hok2 as [|? ? Hz Hrest]. apply bytes_ok_Forall in Hrest.
    rewrite sextets_triple.
    repeat (constructor; [dlia|]). now apply IH.
Qed.

Lemma sextets_length (input : list Z) :
  (length (sextets input) + padding_length (length input)
   = 4 * ((length input + 2) / 3))%nat.
Proof.
  induction input as [|x|x y|x y z rest IH] using list_triple_ind;
    try reflexivity.
  rewrite sextets_triple, padding_length_triple. cbn [length].
  replace ((S (S (S (length rest))) + 2) / 3)%nat
    with (S ((length rest + 2) / 3)) by dlia.
  lia.
Qed.

Lemma padding_length_cases n :
  (padding_length n = 0 \/ padding_length n = 1 \/ padding_length n = 2)%nat.
Proof.
  unfold padding_length.
  destruct (n mod 3)%nat as [|[|[|?]]]; auto.
Qed.

Lemma base64_char_index i :
  0 <= i < 64 -> base64_index (base64_char i) = Some i.
Proof.
  intros Hi. unfold base64_char, base64_index.
  repeat match goal with
         | |- context [?a <? ?b] => destruct (Z.ltb_spec a b)
         | |- context [?a <=? ?b] => destruct (Z.leb_spec a b)
         | |- context [?a =? ?b] => destruct (Z.eqb_spec a b)
         end; cbn [andb]; try lia; f_equal; lia.
Qed.

Lemma base64_char_alphabet i :
  0 <= i < 64 -> base64_alphabet (base64_char i) = true.
Proof.
  intros Hi. apply base64_index_alphabet. rewrite base64_char_index; eauto.
Qed.

Lemma alphabet_not_whitespace c :
  base64_alphabet c = true -> is_ascii_whitespace c = false.
Proof.
  unfold base64_alphabet, is_ascii_whitespace. intros H.
  repeat match goal with
         | |- context [?a =? ?b] => destruct (Z.eqb_spec a b)
         end; subst; try reflexivity; discriminate.
Qed.

Lemma sextets_alphabet (input : list Z) :
  bytes_ok input = true ->
  forallb base64_alphabet (base64_char <$> sextets input) = true.
Proof.
  intros Hok. apply forallb_forall. intros c Hc.
  apply list_elem_of_In, list_elem_of_fmap in Hc as (i & -> & Hi).
  apply base64_char_alphabet.
  pose proof (sextets_range input Hok) as Hr. rewrite Forall_forall in Hr.
  now apply Hr.
Qed.

Lemma without_whitespace_base64_encode (input : list Z) :
  bytes_ok input = true ->
  without_whitespace (base64_encode input) = base64_encode input.
Proof.
  intros Hok. unfold without_whitespace. apply forallb_filter_id.
  rewrite base64_encode_sextets by exact Hok. rewrite forallb_app.
  apply andb_true_iff. split.
  - apply forallb_forall. intros c Hc. apply negb_true_iff, alphabet_not_whitespace.
    pose proof (sextets_alphabet input Hok) as Ha. rewrite forallb_forall in Ha.
    now apply Ha.
  - apply forallb_forall. intros c Hc.
    apply list_elem_of_In, elem_of_replicate in Hc as [-> _]. reflexivity.
Qed.

Lemma drop_trailing_equals_alphabet (body : list Z) :
  forallb base64_alphabet body = true -> drop_trailing_equals body = body.
Proof.
  destruct body as [|c l _] using rev_ind; [reflexivity|].
  rewrite alphabet_snoc, andb_true_iff. intros [_ Hc].
  rewrite drop_trailing_equals_snoc. now rewrite (alphabet_not_61 c Hc).
Qed.

Lemma remove_padding_base64_encode (input : list Z) :
  bytes_ok input = true ->
  remove_padding (base64_encode input) = base64_char <$> sextets input.
Proof.
  intros Hok. unfold remove_padding.
  rewrite base64_encode_sextets by exact Hok.
  pose proof (sextets_alphabet input Hok) as Ha.
  pose proof (sextets_length input) as Hlen.
  rewrite length_app, length_fmap, length_replicate.
  assert ((length (sextets input) + padding_length (length input)) mod 4 = 0)%nat
    as -> by (rewrite Hlen; dlia).
  cbn [Nat.eqb].
  destruct (padding_length_cases (length input)) as [-> | [-> | ->]].
  - cbn [replicate]. rewrite app_nil_r.
    rewrite (drop_trailing_equals_alphabet _ Ha).
    apply (drop_trailing_equals_alphabet _ Ha).
  - cbn [replicate]. rewrite drop_trailing_equals_snoc.
    change (61 =? 61) with true. cbv iota.
    apply (drop_trailing_equals_alphabet _ Ha).
  - cbn [replicate].
    change [61; 61] with ([61] ++ [61]). rewrite app_assoc.
    rewrite drop_trailing_equals_snoc. change (61 =? 61) with true. cbv iota.
    rewrite drop_trailing_equals_snoc. reflexivity.
Qed.

Lemma base64_bits_more buffer bits n rest :
  bits + 6 <> 24 ->
  base64_bits buffer bits (n :: rest)
  = base64_bits (Z.lor (Z.shiftl buffer 6) n) (bits + 6) rest.
Proof.
  intros H. cbn [base64_bits].
  destruct (Z.eqb_spec (bits + 6) 24); [contradiction | reflexivity].
Qed.

Lemma base64_bits_full buffer bits n rest :
  bits + 6 = 24 ->
  base64_bits buffer bits (n :: rest)
  = Z.shiftr (Z.lor (Z.shiftl buffer 6) n) 16
    :: Z.land (Z.shiftr (Z.lor (Z.shiftl buffer 6) n) 8) 255
    :: Z.land (Z.lor (Z.shiftl buffer 6) n) 255
    :: base64_bits 0 0 rest.
Proof.
  intros H. cbn [base64_bits].
  destruct (Z.eqb_spec (bits + 6) 24); [reflexivity | contradiction].
Qed.

Lemma base64_buffer buffer n :
  0 <= n < 64 -> Z.lor (Z.shiftl buffer 6) n = buffer * 64 + n.
Proof. intros Hn. apply (lor_shiftl buffer n 6); lia. Qed.

(** Reading the six-bit groups of a byte sequence gives the bytes back. *)
Lemma base64_bits_sextets (input : list Z) :
  bytes_ok input = true -> base64_bits 0 0 (sextets input) = input.
Proof.
  induction input as [|x|x y|x y z rest IH] using list_triple_ind; intros Hok.
  - reflexivity.
  - apply bytes_ok_Forall in Hok. inversion_clear Hok as [|? ? Hx _].
    cbn [sextets]. rewrite !base64_bits_more by lia. cbn [base64_bits].
    change (0 + 6 + 6 =? 12) with true. cbv iota.
    rewrite !base64_buffer by dlia. bits_to_arith. f_equal. dlia.
  - apply bytes_ok_Forall in Hok. inversion_clear Hok as [|? ? Hx Hok'].
    inversion_clear Hok' as [|? ? Hy _].
    cbn [sextets]. rewrite !base64_bits_more by lia. cbn [base64_bits].
    change (0 + 6 + 6 + 6 =? 12) with false. change (0 + 6 + 6 + 6 =? 18) with true.
    cbv iota. rewrite !base64_buffer by dlia. bits_to_arith.
    assert (((0 * 64 + x / 4) * 64 + (x mod 4 * 16 + y / 16)) * 64 + y mod 16 * 4
            = x * 1024 + y * 4) as -> by dlia.
    f_equal; [|f_equal]; dlia.
  - apply bytes_ok_Forall in Hok.
    inversion_clear Hok as [|? ? Hx Hok1]. inversion_clear Hok1 as [|? ? Hy Hok2].
    inversion_clear Hok2 as [|? ? Hz Hrest]. apply bytes_ok_Forall in Hrest.
    rewrite sextets_triple.
    rewrite !base64_bits_more, base64_bits_full by lia.
    rewrite !base64_buffer by dlia. bits_to_arith.
    assert ((((0 * 64 + x / 4) * 64 + (x mod 4 * 16 + y / 16)) * 64
             + (y mod 16 * 4 + z / 64)) * 64 + z mod 64
            = x * 65536 + y * 256 + z) as -> by dlia.
    rewrite IH by exact Hrest.
    f_equal; [|f_equal; [|f_equal]]; dlia.
Qed.

Lemma sextets_length_mod (input : list Z) :
  (length (sextets input) mod 4 <> 1)%nat.
Proof.
  pose proof (sextets_length input) as Hlen.
  destruct (padding_length_cases (length input)) as [H | [H | H]];
    rewrite H in Hlen; dlia.
Qed.

Lemma mapM_sextets (input : list Z) :
  bytes_ok input = true ->
  mapM base64_index (base64_char <$> sextets input) = Some (sextets input).
Proof.
  intros Hok. apply mapM_fmap_Forall_Some.
  eapply Forall_impl; [apply sextets_range, Hok|].
  intros i Hi. now apply base64_char_index.
Qed.

(** [atob] gives back the bytes that [btoa] was given. *)
Lemma atob_base64_encode (input : list Z) :
  bytes_ok input = true -> atob (base64_encode input) = Normal input.
Proof.
  intros Hok. unfold atob.
  change (List.filter _ (base64_encode input))
    with (without_whitespace (base64_encode input)).
  rewrite without_whitespace_base64_encode, remove_padding_base64_encode by exact Hok.
  cbv zeta. rewrite length_fmap.
  destruct (Nat.eqb_spec (length (sextets input) mod 4) 1) as [H1|_].
  { now apply sextets_length_mod in H1. }
  now rewrite mapM_sextets, base64_bits_sextets.
Qed.

(** ** Encryption followed by decryption *)

Lemma spread_charCodes_bytes (a : list Z) :
  bytes_ok a = true -> spread_charCodes a = a.
Proof.
  intros Ha. apply bytes_ok_Forall in Ha.
  induction Ha as [|b a Hb _ IH]; [reflexivity|].
  cbn [spread_charCodes].
  assert (is_lead b = false) as -> by (apply is_lead_false; lia).
  now rewrite IH.
Qed.

Lemma ToUint8_bytes (a : list Z) :
  bytes_ok a = true -> ToUint8 <$> a = a.
Proof.
  intros Ha. apply bytes_ok_Forall in Ha.
  induction Ha as [|b a Hb _ IH]; [reflexivity|].
  now rewrite fmap_cons, IH, ToUint8_byte.
Qed.

Lemma digest_key_ok password :
  bytes_ok (DigestApp.deriveKeyFromPassword password) = true
  /\ (1 <= length (DigestApp.deriveKeyFromPassword password))%nat.
Proof.
  destruct (digest_key_facts password) as (Hlen & Hok).
  split; [exact Hok | lia].
Qed.

Lemma digest_encryptText {engine : Engine} text password :
  string_ok text = true ->
  Z.of_nat (length (TextEncoder_encode text)) <= max_arguments ->
  DigestApp.encryptText text password =
  Normal (base64_encode
            (imap (fun i b => ToUint8 (xor_with_key
                                         (DigestApp.deriveKeyFromPassword password) i b))
                  (TextEncoder_encode text))).
Proof.
  intros Hok Hlen. unfold DigestApp.encryptText. cbv zeta.
  destruct (digest_key_ok password) as [Hk Hl].
  pose proof (stream_bytes_ok _ Hk Hl _ (TextEncoder_encode_bytes_ok text Hok)) as He.
  rewrite String_fromCharCode_bytes by (rewrite ?length_imap; assumption).
  now apply btoa_bytes.
Qed.

(** [handleEncrypt] on a plaintext with more UTF-8 bytes than a call
    takes arguments. *)
Lemma digest_encryptText_long {engine : Engine} text password :
  max_arguments < Z.of_nat (length (TextEncoder_encode text)) ->
  DigestApp.encryptText text password = Throw RangeError.
Proof.
  intros Hlen. unfold DigestApp.encryptText. cbv zeta.
  rewrite String_fromCharCode_long; [reflexivity|].
  now rewrite length_imap.
Qed.

Lemma digest_decrypt_encrypted {engine : Engine} text password :
  well_formed text = true -> starts_with_BOM text = false ->
  Z.of_nat (length (TextEncoder_encode text)) <= max_arguments ->
  exists base64,
    DigestApp.encryptText text password = Normal base64
    /\ DigestApp.decryptText base64 password = Normal text.
Proof.
  intros Hwf Hbom Hlen.
  pose proof (well_formed_string_ok text Hwf) as Hok.
  destruct (digest_key_ok password) as [Hk Hl].
  pose proof (TextEncoder_encode_bytes_ok text Hok) as Hb.
  pose proof (stream_bytes_ok _ Hk Hl _ Hb) as He.
  eexists. split; [now apply digest_encryptText|].
  rewrite digest_decryptText_atob, atob_base64_encode by exact He.
  unfold DigestApp.decryptedBytes. cbv zeta.
  rewrite spread_charCodes_bytes by exact He.
  rewrite fmap_imap.
  change (imap (fun n => ToUint8 ∘ _) ?l)
    with (imap (fun i b => ToUint8 (xor_with_key
                                      (DigestApp.deriveKeyFromPassword password) i b)) l).
  rewrite (stream_involutive _ Hk Hl _ Hb).
  now rewrite TextDecoder_TextEncoder.
Qed.

Lemma digest_decryptText_empty password :
  DigestApp.decryptText [] password = Normal [].
Proof. reflexivity. Qed.

(** C1, as the code has it: for a sender, a password and a plaintext that
    are not empty, the plaintext a well-formed string (no unpaired
    surrogate) that does not begin with U+FEFF and whose UTF-8 encoding
    has no more bytes than a call takes arguments, [handleEncrypt] stores
    and shows a Base64 text that [handleDecrypt] turns back into the
    plaintext under the same password.  With an empty plaintext, password
    or sender [handleEncrypt] returns without producing anything, and so
    it does, by the error of [String.fromCharCode(...encrypted)], on a
    plaintext with more bytes than a call takes arguments. *)
Theorem digest_encrypt_decrypt_roundtrip {engine : Engine} (now : Z) (w : DigestApp.World) :
  falsy (DigestApp.text w) = false ->
  falsy (DigestApp.password w) = false ->
  falsy (DigestApp.sender w) = false ->
  well_formed (DigestApp.text w) = true ->
  starts_with_BOM (DigestApp.text w) = false ->
  Z.of_nat (length (TextEncoder_encode (DigestApp.text w))) <= max_arguments ->
  (exists base64,
    DigestApp.encryptText (DigestApp.text w) (DigestApp.password w) = Normal base64
    /\ DigestApp.handleEncrypt now w
       = DigestApp.Build (DigestApp.sender w) (DigestApp.password w) [] base64
           (DigestApp.messages w
            ++ [Log.Build (DigestApp.sender w) (js "") base64 encrypt now])
    /\ DigestApp.decryptText base64 (DigestApp.password w) = Normal (DigestApp.text w)
    /\ forall sender result messages,
         DigestApp.handleDecrypt
           (DigestApp.Build sender (DigestApp.password w) base64 result messages)
         = DigestApp.Build sender (DigestApp.password w) base64
             (DigestApp.text w) messages)
  /\ (forall now' w',
        falsy (DigestApp.text w') || falsy (DigestApp.password w')
        || falsy (DigestApp.sender w') = true ->
        DigestApp.handleEncrypt now' w' = w')
  /\ (forall now' w',
        max_arguments < Z.of_nat (length (TextEncoder_encode (DigestApp.text w'))) ->
        DigestApp.handleEncrypt now' w' = w').
Proof.
  intros Ht Hp Hs Hwf Hbom Hlen.
  destruct (digest_decrypt_encrypted _ (DigestApp.password w) Hwf Hbom Hlen)
    as (base64 & Henc & Hdec).
  split; [|split].
  - exists base64. split; [exact Henc|]. split; [|split; [exact Hdec|]].
    + unfold DigestApp.handleEncrypt. rewrite Ht, Hp, Hs. cbn [orb]. now rewrite Henc.
    + intros sender result messages. unfold DigestApp.handleDecrypt.
      cbn [DigestApp.text DigestApp.password DigestApp.sender DigestApp.messages].
      assert (falsy base64 = false) as ->.
      { destruct base64; [|reflexivity].
        rewrite digest_decryptText_empty in Hdec. injection Hdec as Hnil.
        rewrite <- Hnil in Ht. discriminate. }
      now rewrite Hp, Hdec.
  - intros now' w' Hempty. unfold DigestApp.handleEncrypt. now rewrite Hempty.
  - intros now' w' Hlong. unfold DigestApp.handleEncrypt.
    destruct (falsy (DigestApp.text w') || _ || _); [reflexivity|].
    now rewrite digest_encryptText_long.
Qed.

Lemma digest_encrypt_decrypt_roundtrip_witness :
  (exists base64,
    DigestApp.encryptText (engine := example_engine) (js "안녕 hi") (js "secret")
    = Normal base64
    /\ DigestApp.handleEncrypt (engine := example_engine) 7
         (DigestApp.Build (js "bob") (js "secret") (js "안녕 hi") [] [])
       = DigestApp.Build (js "bob") (js "secret") [] base64
           ([] ++ [Log.Build (js "bob") (js "") base64 encrypt 7])
    /\ DigestApp.decryptText base64 (js "secret") = Normal (js "안녕 hi")
    /\ forall sender result messages,
         DigestApp.handleDecrypt
           (DigestApp.Build sender (js "secret") base64 result messages)
         = DigestApp.Build sender (js "secret") base64 (js "안녕 hi") messages)
  /\ (forall now' w',
        falsy (DigestApp.text w') || falsy (DigestApp.password w')
        || falsy (DigestApp.sender w') = true ->
        DigestApp.handleEncrypt (engine := example_engine) now' w' = w')
  /\ (forall now' w',
        max_arguments (Engine := example_engine)
        < Z.of_nat (length (TextEncoder_encode (DigestApp.text w'))) ->
        DigestApp.handleEncrypt (engine := example_engine) now' w' = w').
Proof.
  apply (digest_encrypt_decrypt_roundtrip (engine := example_engine) 7
           (DigestApp.Build (js "bob") (js "secret") (js "안녕 hi") [] []));
    try reflexivity.
  vm_compute. discriminate.
Defined.

(** C1 as stated fails: a plaintext that begins with U+FEFF comes back
    without it, an unpaired surrogate comes back as U+FFFD, with an
    empty plaintext or an empty password [handleEncrypt] does nothing,
    and a plaintext of 65537 bytes is not stored when a call takes 65536
    arguments. *)
Lemma digest_roundtrip_counterexample :
  (exists base64,
     DigestApp.encryptText (engine := example_engine) [0xFEFF; 104; 105] (js "pw") = Normal base64
     /\ DigestApp.decryptText base64 (js "pw") = Normal [104; 105])
  /\ (exists base64,
     DigestApp.encryptText (engine := example_engine) [0xD800] (js "pw") = Normal base64
     /\ DigestApp.decryptText base64 (js "pw") = Normal [0xFFFD])
  /\ DigestApp.handleEncrypt (engine := example_engine) 7 (DigestApp.Build (js "bob") (js "pw") (js "") [] [])
     = DigestApp.Build (js "bob") (js "pw") (js "") [] []
  /\ DigestApp.handleEncrypt (engine := example_engine) 7 (DigestApp.Build (js "bob") (js "") (js "hi") [] [])
     = DigestApp.Build (js "bob") (js "") (js "hi") [] []
  /\ DigestApp.messages
       (DigestApp.handleEncrypt (engine := example_engine) 7
          (DigestApp.Build (js "bob") (js "pw") (replicate (Z.to_nat 65537) 97) [] []))
     = [].
Proof.
  split; [eexists; split; [vm_compute; reflexivity | vm_compute; reflexivity]|].
  split; [eexists; split; [vm_compute; reflexivity | vm_compute; reflexivity]|].
  split; [reflexivity|]. split; [reflexivity|].
  unfold DigestApp.handleEncrypt.
  cbn [DigestApp.text DigestApp.password DigestApp.sender DigestApp.messages].
  assert (falsy (replicate (Z.to_nat 65537) 97) = false) as -> by (vm_compute; reflexivity).
  rewrite digest_encryptText_long by (vm_compute; reflexivity).
  reflexivity.
Qed.

(** ** The decoder on malformed UTF-8 *)

(** Decide the comparisons of the goal that the context settles. *)
Ltac settle_comparisons :=
  repeat match goal with
         | |- context [?a <=? ?b] =>
             first [ replace (a <=? b) with true by (symmetry; apply Z.leb_le; lia)
                   | replace (a <=? b) with false by (symmetry; apply Z.leb_gt; lia) ]
         | |- context [?a <? ?b] =>
             first [ replace (a <? b) with true by (symmetry; apply Z.ltb_lt; lia)
                   | replace (a <? b) with false by (symmetry; apply Z.ltb_ge; lia) ]
         | |- context [?a =? ?b] =>
             first [ replace (a =? b) with true by (symmetry; apply Z.eqb_eq; lia)
                   | replace (a =? b) with false by (symmetry; apply Z.eqb_neq; lia) ]
         end; cbn [andb orb negb].

Lemma utf8_decode_eof d :
  bytes_needed d <> 0 -> utf8_decode d [] = [0xFFFD].
Proof.
  intros H. cbn [utf8_decode].
  destruct (Z.eqb_spec (bytes_needed d) 0); [contradiction | reflexivity].
Qed.

Lemma utf8_decode_ascii b r :
  b <= 0x7F -> utf8_decode utf8_fresh (b :: r) = b :: utf8_decode utf8_fresh r.
Proof. intros H. now rewrite utf8_decode_cons, utf8_handler_ascii. Qed.

Lemma utf8_decode_bad_lead b r :
  0x80 <= b <= 0xC1 \/ 0xF5 <= b -> In 0xFFFD (utf8_decode utf8_fresh (b :: r)).
Proof.
  intros H. rewrite utf8_decode_cons. unfold utf8_handler, utf8_lead.
  cbn [bytes_needed utf8_fresh]. change (0 =? 0) with true. cbv iota.
  destruct H; settle_comparisons; cbn [fst snd app]; now left.
Qed.

(** A byte read inside an open sequence. *)
Lemma utf8_decode_open cp seen needed lower upper b r :
  needed <> 0 -> 0x80 <= lower -> upper <= 0xBF ->
  utf8_decode (Utf8Decoder cp seen needed lower upper) (b :: r) =
  if in_byte_range (lower, upper) b then
    if seen + 1 =? needed
    then cp * 64 + (b - 128) :: utf8_decode utf8_fresh r
    else utf8_decode (Utf8Decoder (cp * 64 + (b - 128)) (seen + 1) needed 0x80 0xBF) r
  else 0xFFFD :: snd (utf8_lead b) ++ utf8_decode (fst (utf8_lead b)) r.
Proof.
  intros Hn Hl Hu. rewrite utf8_decode_cons. unfold in_byte_range. cbn [fst snd].
  destruct (Z.leb_spec lower b) as [Hlb|Hlb]; cbn [andb].
  - destruct (Z.leb_spec b upper) as [Hbu|Hbu].
    + replace b with (128 + (b - 128)) at 1 2 by lia.
      rewrite utf8_handler_continue by lia.
      now destruct (seen + 1 =? needed).
    + unfold utf8_handler. cbn [bytes_needed lower_boundary upper_boundary].
      settle_comparisons. reflexivity.
  - unfold utf8_handler. cbn [bytes_needed lower_boundary upper_boundary].
    settle_comparisons. reflexivity.
Qed.

Lemma valid_utf8_ascii b0 r :
  0 <= b0 <= 0x7F -> valid_utf8 (b0 :: r) = valid_utf8 r.
Proof. intros H. cbn [valid_utf8]. now settle_comparisons. Qed.

Lemma valid_utf8_two b0 r :
  0xC2 <= b0 <= 0xDF ->
  valid_utf8 (b0 :: r) =
  match r with
  | b1 :: r1 => continuation_byte b1 && valid_utf8 r1
  | _ => false
  end.
Proof. intros H. cbn [valid_utf8]. now settle_comparisons. Qed.

Lemma valid_utf8_three b0 r :
  0xE0 <= b0 <= 0xEF ->
  valid_utf8 (b0 :: r) =
  match r with
  | b1 :: b2 :: r2 =>
      in_byte_range (if b0 =? 0xE0 then 0xA0 else 0x80,
                     if b0 =? 0xED then 0x9F else 0xBF) b1
      && continuation_byte b2 && valid_utf8 r2
  | _ => false
  end.
Proof.
  intros H. cbn [valid_utf8]. settle_comparisons.
  destruct r as [|b1 [|b2 r2]]; try reflexivity.
  unfold second_byte_range.
  destruct (Z.eqb_spec b0 0xE0), (Z.eqb_spec b0 0xED); try lia;
    settle_comparisons; reflexivity.
Qed.

Lemma valid_utf8_four b0 r :
  0xF0 <= b0 <= 0xF4 ->
  valid_utf8 (b0 :: r) =
  match r with
  | b1 :: b2 :: b3 :: r3 =>
      in_byte_range (if b0 =? 0xF0 then 0x90 else 0x80,
                     if b0 =? 0xF4 then 0x8F else 0xBF) b1
      && continuation_byte b2 && continuation_byte b3 && valid_utf8 r3
  | _ => false
  end.
Proof.
  intros H. cbn [valid_utf8]. settle_comparisons.
  destruct r as [|b1 [|b2 [|b3 r3]]]; try reflexivity.
  unfold second_byte_range.
  destruct (Z.eqb_spec b0 0xF0), (Z.eqb_spec b0 0xF4); try lia;
    settle_comparisons; reflexivity.
Qed.

Lemma bytes_ok_cons b a :
  bytes_ok (b :: a) = true <-> 0 <= b < 256 /\ bytes_ok a = true.
Proof.
  unfold bytes_ok. cbn [forallb]. rewrite andb_true_iff, is_byte_range. tauto.
Qed.

(** On a byte sequence that is not well-formed UTF-8 the decoder emits
    U+FFFD at least once. *)
Lemma utf8_decode_invalid (n : nat) :
  forall input, (length input <= n)%nat -> bytes_ok input = true ->
    valid_utf8 input = false -> In 0xFFFD (utf8_decode utf8_fresh input).
Proof.
  induction n as [|n IH]; intros input Hlen Hok Hv.
  { destruct input; [discriminate | cbn [length] in Hlen; lia]. }
  destruct input as [|b0 r0]; [discriminate|].
  apply bytes_ok_cons in Hok as [Hb0 Hr0]. cbn [length] in Hlen.
  destruct (Z.le_gt_cases b0 0x7F).
  { rewrite valid_utf8_ascii in Hv by lia. rewrite utf8_decode_ascii by lia.
    right. apply IH; [lia | assumption | assumption]. }
  destruct (Z.le_gt_cases b0 0xC1); [apply utf8_decode_bad_lead; lia|].
  destruct (Z.le_gt_cases b0 0xDF).
  { (* two bytes *)
    rewrite valid_utf8_two in Hv by lia.
    rewrite utf8_decode_cons, utf8_handler_lead2 by lia. cbn [fst snd app].
    destruct r0 as [|b1 r1]; [rewrite utf8_decode_eof by (cbn; lia); now left|].
    apply bytes_ok_cons in Hr0 as [_ Hr1]. cbn [length] in Hlen.
    rewrite utf8_decode_open by lia. unfold continuation_byte in Hv.
    destruct (in_byte_range (0x80, 0xBF) b1); [|now left].
    change (0 + 1 =? 1) with true. cbv iota.
    right. apply IH; [lia | assumption | assumption]. }
  destruct (Z.le_gt_cases b0 0xEF).
  { (* three bytes *)
    rewrite valid_utf8_three in Hv by lia.
    rewrite utf8_decode_cons, utf8_handler_lead3 by lia. cbn [fst snd app].
    destruct r0 as [|b1 r1]; [rewrite utf8_decode_eof by (cbn; lia); now left|].
    apply bytes_ok_cons in Hr0 as [_ Hr1]. cbn [length] in Hlen.
    rewrite utf8_decode_open;
      [|lia|destruct (b0 =? 0xE0); lia|destruct (b0 =? 0xED); lia].
    destruct (in_byte_range _ b1); [|now left].
    change (0 + 1 =? 2) with false. cbv iota.
    destruct r1 as [|b2 r2]; [rewrite utf8_decode_eof by (cbn; lia); now left|].
    apply bytes_ok_cons in Hr1 as [_ Hr2]. cbn [length] in Hlen.
    rewrite utf8_decode_open by lia. unfold continuation_byte in Hv.
    destruct (in_byte_range (0x80, 0xBF) b2); [|now left].
    change (0 + 1 + 1 =? 2) with true. cbv iota.
    right. apply IH; [lia | assumption | assumption]. }
  destruct (Z.le_gt_cases b0 0xF4); [|apply utf8_decode_bad_lead; lia].
  (* four bytes *)
  rewrite valid_utf8_four in Hv by lia.
  rewrite utf8_decode_cons, utf8_handler_lead4 by lia. cbn [fst snd app].
  destruct r0 as [|b1 r1]; [rewrite utf8_decode_eof by (cbn; lia); now left|].
  apply bytes_ok_cons in Hr0 as [_ Hr1]. cbn [length] in Hlen.
  rewrite utf8_decode_open;
    [|lia|destruct (b0 =? 0xF0); lia|destruct (b0 =? 0xF4); lia].
  destruct (in_byte_range _ b1); [|now left].
  change (0 + 1 =? 3) with false. cbv iota.
  destruct r1 as [|b2 r2]; [rewrite utf8_decode_eof by (cbn; lia); now left|].
  apply bytes_ok_cons in Hr1 as [_ Hr2]. cbn [length] in Hlen.
  rewrite utf8_decode_open by lia. unfold continuation_byte in Hv.
  destruct (in_byte_range (0x80, 0xBF) b2); [|now left].
  change (0 + 1 + 1 =? 3) with false. cbv iota.
  destruct r2 as [|b3 r3]; [rewrite utf8_decode_eof by (cbn; lia); now left|].
  apply bytes_ok_cons in Hr2 as [_ Hr3]. cbn [length] in Hlen.
  rewrite utf8_decode_open by lia.
  destruct (in_byte_range (0x80, 0xBF) b3); [|now left].
  change (0 + 1 + 1 + 1 =? 3) with true. cbv iota.
  right. apply IH; [lia | assumption | assumption].
Qed.

Lemma strip_BOM_keeps_replacement (cps : list Z) :
  In 0xFFFD cps -> In 0xFFFD (strip_BOM cps).
Proof.
  destruct cps as [|c rest]; [contradiction|]. unfold strip_BOM.
  destruct (Z.eqb_spec c 0xFEFF) as [->|_]; [|tauto].
  intros [H|H]; [discriminate | exact H].
Qed.

(** The string decoded from malformed UTF-8 contains U+FFFD. *)
Lemma TextDecoder_decode_invalid (input : list Z) :
  bytes_ok input = true -> valid_utf8 input = false ->
  In 0xFFFD (TextDecoder_decode input).
Proof.
  intros Hok Hv. unfold TextDecoder_decode.
  apply list_elem_of_In, list_elem_of_bind. exists 0xFFFD.
  split; [apply list_elem_of_In; now left|].
  apply list_elem_of_In, strip_BOM_keeps_replacement.
  now apply (utf8_decode_invalid (length input)).
Qed.

(** ** What [atob] returns *)

Lemma base64_index_range c i : base64_index c = Some i -> 0 <= i < 64.
Proof.
  unfold base64_index.
  repeat match goal with
         | |- context [?a <=? ?b] => destruct (Z.leb_spec a b)
         | |- context [?a =? ?b] => destruct (Z.eqb_spec a b)
         end; cbn [andb]; intros [= <-]; lia.
Qed.

Lemma base64_bits_bytes_ok (indices : list Z) :
  Forall (fun i => 0 <= i < 64) indices ->
  forall buffer bits,
    (bits = 0 /\ buffer = 0) \/ (bits = 6 /\ 0 <= buffer < 64)
    \/ (bits = 12 /\ 0 <= buffer < 4096) \/ (bits = 18 /\ 0 <= buffer < 262144) ->
    bytes_ok (base64_bits buffer bits indices) = true.
Proof.
  induction 1 as [|n rest Hn _ IH]; intros buffer bits Hinv.
  - cbn [base64_bits].
    destruct Hinv as [[-> ->] | [[-> Hb] | [[-> Hb] | [-> Hb]]]]; try reflexivity.
    + change (12 =? 12) with true. cbv iota. apply bytes_ok_cons.
      split; [bits_to_arith; dlia | reflexivity].
    + change (18 =? 12) with false. change (18 =? 18) with true. cbv iota.
      apply bytes_ok_cons. split; [bits_to_arith; dlia|].
      apply bytes_ok_cons. split; [bits_to_arith; dlia | reflexivity].
  - destruct Hinv as [[-> ->] | [[-> Hb] | [[-> Hb] | [-> Hb]]]].
    + rewrite base64_bits_more, base64_buffer by lia.
      apply IH. right. left. split; lia.
    + rewrite base64_bits_more, base64_buffer by lia.
      apply IH. right. right. left. split; lia.
    + rewrite base64_bits_more, base64_buffer by lia.
      apply IH. right. right. right. split; lia.
    + rewrite base64_bits_full, base64_buffer by lia.
      apply bytes_ok_cons. split; [bits_to_arith; dlia|].
      apply bytes_ok_cons. split; [bits_to_arith; dlia|].
      apply bytes_ok_cons. split; [bits_to_arith; dlia|].
      apply IH. left. split; reflexivity.
Qed.

Lemma atob_bytes_ok (s binaryStr : list Z) :
  atob s = Normal binaryStr -> bytes_ok binaryStr = true.
Proof.
  unfold atob. cbv zeta.
  destruct (length _ mod 4 =? 1)%nat; [discriminate|].
  destruct (mapM base64_index _) as [indices|] eqn:Hm; [|discriminate].
  intros [= <-]. apply base64_bits_bytes_ok; [|left; split; reflexivity].
  apply mapM_Some_1 in Hm.
  induction Hm as [|c i l k Hci _ IH]; constructor; [|exact IH].
  now apply base64_index_range in Hci.
Qed.

Lemma atob_cases (s : list Z) :
  atob s = Throw InvalidEncoding \/ exists binaryStr, atob s = Normal binaryStr.
Proof.
  unfold atob. cbv zeta.
  destruct (length _ mod 4 =? 1)%nat; [now left|].
  destruct (mapM base64_index _); [right; eauto | now left].
Qed.

Lemma padded_with_no_whitespace pad (s : list Z) :
  padded_with pad s = true ->
  forallb (fun c => negb (is_ascii_whitespace c)) s = true.
Proof.
  unfold padded_with. rewrite !andb_true_iff. intros [[_ Ha] He].
  rewrite <- (take_drop (length s - pad) s), forallb_app.
  apply andb_true_iff. split.
  - rewrite forallb_forall in *. intros c Hc.
    apply negb_true_iff, alphabet_not_whitespace, Ha, Hc.
  - rewrite forallb_forall in *. intros c Hc.
    apply He, Z.eqb_eq in Hc. now subst c.
Qed.

Lemma valid_padded_no_whitespace (s : list Z) :
  valid_padded_base64 s = true -> without_whitespace s = s.
Proof.
  unfold valid_padded_base64. rewrite andb_true_iff, !orb_true_iff.
  intros [_ [[H | H] | H]]; apply forallb_filter_id;
    eapply padded_with_no_whitespace; exact H.
Qed.

(** [atob] accepts padded Base64. *)
Lemma valid_padded_atob (text : list Z) :
  valid_padded_base64 text = true ->
  exists binaryStr, atob text = Normal binaryStr.
Proof.
  intros Hv. destruct (atob_cases text) as [Ht | Hn]; [|exact Hn].
  apply atob_throws_iff in Ht as [Hf _].
  rewrite valid_padded_no_whitespace in Hf by exact Hv. congruence.
Qed.

Lemma ToUint8_bytes_ok (a : list Z) : bytes_ok (ToUint8 <$> a) = true.
Proof.
  apply bytes_ok_Forall, Forall_fmap, Forall_forall. intros z _.
  apply Z.mod_pos_bound. lia.
Qed.

Lemma digest_decryptedBytes_ok binaryStr key :
  bytes_ok (DigestApp.decryptedBytes binaryStr key) = true.
Proof. apply ToUint8_bytes_ok. Qed.

(** On what [atob] returns the two digest revisions decode the same bytes. *)
Lemma cipher_decryptText_digest text password binaryStr :
  atob text = Normal binaryStr ->
  CipherApp.decryptText text (CipherApp.deriveKeyBytes password)
  = Normal (TextDecoder_decode
              (DigestApp.decryptedBytes binaryStr
                 (DigestApp.deriveKeyFromPassword password))).
Proof.
  intros Ha. pose proof (atob_bytes_ok _ _ Ha) as Hb.
  rewrite cipher_decryptText_atob, Ha. unfold DigestApp.decryptedBytes. cbv zeta.
  rewrite spread_charCodes_bytes, ToUint8_bytes, fmap_imap by assumption.
  reflexivity.
Qed.

(** C5: the code does not report what its failure messages announce.
    [handleDecrypt] and [handleInlineDecrypt] catch a failure and name a
    key that does not match, but the decoder they build is not fatal and
    nothing in [try] throws on the bytes a wrong key leaves.  For a
    password and a text that are not empty, the text valid padded Base64
    whose XOR transform under the key of the password is not valid UTF-8,
    decryption raises no condition: it returns the decoded string, which
    contains U+FFFD, [handleDecrypt] shows it as the result, the inline
    handler records it without an alert, and [handleProcess] of the
    cipher revision shows it and clears the text without an alert. *)
Theorem decrypt_invalid_utf8_not_reported {engine : Engine}
    (text password binaryStr : list Z) :
  falsy text = false ->
  falsy password = false ->
  valid_padded_base64 text = true ->
  atob text = Normal binaryStr ->
  valid_utf8 (DigestApp.decryptedBytes binaryStr
                (DigestApp.deriveKeyFromPassword password)) = false ->
  let decoded :=
    TextDecoder_decode (DigestApp.decryptedBytes binaryStr
                          (DigestApp.deriveKeyFromPassword password)) in
  In 0xFFFD decoded
  /\ DigestApp.decryptText text password = Normal decoded
  /\ CipherApp.decryptText text (CipherApp.deriveKeyBytes password) = Normal decoded
  /\ (forall sender result messages,
        DigestApp.handleDecrypt (DigestApp.Build sender password text result messages)
        = DigestApp.Build sender password text decoded messages)
  /\ (forall e v,
        Log.text (entry_log e) = text ->
        DigestInline.handleInlineDecrypt e password v
        = MkView (<[id_key e := decoded]> (visibleDecryptIds v))
            (showPasswordInputs v) (inlinePasswords v) (view_alerts v))
  /\ (forall now sender decryptedResult messages alerts,
        CipherApp.handleProcess now
          (CipherApp.Build sender password text decrypt decryptedResult messages alerts)
        = CipherApp.Build sender password [] decrypt decoded messages alerts).
Proof.
  intros Ht Hp _ Ha Hinvalid decoded.
  assert (Hd : DigestApp.decryptText text password = Normal decoded).
  { now rewrite digest_decryptText_atob, Ha. }
  assert (Hc : CipherApp.decryptText text (CipherApp.deriveKeyBytes password)
               = Normal decoded).
  { now apply cipher_decryptText_digest. }
  split; [|split; [exact Hd|split; [exact Hc|split; [|split]]]].
  - apply TextDecoder_decode_invalid; [apply digest_decryptedBytes_ok | exact Hinvalid].
  - intros sender result messages. unfold DigestApp.handleDecrypt.
    cbn [DigestApp.text DigestApp.password DigestApp.sender DigestApp.messages].
    now rewrite Ht, Hp, Hd.
  - intros e v He. unfold DigestInline.handleInlineDecrypt. now rewrite He, Hd.
  - intros now sender decryptedResult messages alerts. unfold CipherApp.handleProcess.
    cbn [CipherApp.text CipherApp.password CipherApp.sender CipherApp.messages
         CipherApp.mode CipherApp.alerts CipherApp.decryptedResult].
    rewrite Ht. cbn [orb]. now rewrite Hc.
Qed.

(** The failing input: "/w==" is valid Base64 of the byte 0xFF, which the
    key of "pw" turns into 0xCF, not valid UTF-8; the handlers show the
    string U+FFFD and report nothing. *)
Lemma decrypt_invalid_utf8_not_reported_witness :
  (atob (js "/w==") = Normal [0xFF]
   /\ DigestApp.decryptedBytes [0xFF] (DigestApp.deriveKeyFromPassword (js "pw")) = [0xCF]
   /\ valid_utf8 [0xCF] = false
   /\ TextDecoder_decode [0xCF] = [0xFFFD])
  /\ (In 0xFFFD (TextDecoder_decode (DigestApp.decryptedBytes [0xFF]
                                        (DigestApp.deriveKeyFromPassword (js "pw"))))
      /\ DigestApp.decryptText (js "/w==") (js "pw")
         = Normal (TextDecoder_decode (DigestApp.decryptedBytes [0xFF]
                                         (DigestApp.deriveKeyFromPassword (js "pw"))))
      /\ CipherApp.decryptText (js "/w==") (CipherApp.deriveKeyBytes (js "pw"))
         = Normal (TextDecoder_decode (DigestApp.decryptedBytes [0xFF]
                                         (DigestApp.deriveKeyFromPassword (js "pw"))))
      /\ (forall sender result messages,
            DigestApp.handleDecrypt
              (DigestApp.Build sender (js "pw") (js "/w==") result messages)
            = DigestApp.Build sender (js "pw") (js "/w==")
                (TextDecoder_decode (DigestApp.decryptedBytes [0xFF]
                                       (DigestApp.deriveKeyFromPassword (js "pw"))))
                messages)
      /\ (forall e v,
            Log.text (entry_log e) = js "/w==" ->
            DigestInline.handleInlineDecrypt e (js "pw") v
            = MkView (<[id_key e := TextDecoder_decode
                                     (DigestApp.decryptedBytes [0xFF]
                                        (DigestApp.deriveKeyFromPassword (js "pw")))]>
                        (visibleDecryptIds v))
                (showPasswordInputs v) (inlinePasswords v) (view_alerts v))
      /\ (forall now sender decryptedResult messages alerts,
            CipherApp.handleProcess (engine := example_engine) now
              (CipherApp.Build sender (js "pw") (js "/w==") decrypt decryptedResult
                 messages alerts)
            = CipherApp.Build sender (js "pw") [] decrypt
                (TextDecoder_decode (DigestApp.decryptedBytes [0xFF]
                                       (DigestApp.deriveKeyFromPassword (js "pw"))))
                messages alerts)).
Proof.
  split.
  - repeat split; vm_compute; reflexivity.
  - apply (decrypt_invalid_utf8_not_reported (engine := example_engine)
             (js "/w==") (js "pw") [0xFF]); vm_compute; reflexivity.
Defined.

(** * Further properties of the handlers *)

(** ** Encryption and the number of arguments of a call *)


Lemma TextEncoder_encode_nonempty (s : list Z) :
  falsy s = false -> falsy (TextEncoder_encode s) = false.
Proof.
  destruct s as [|c s]; [discriminate|]. intros _.
  assert (Hb : forall cp rest, falsy (utf8_bytes cp ++ rest) = false).
  { intros cp rest. unfold utf8_bytes.
    destruct (cp <? 0x80); [reflexivity|].
    destruct (cp <? 0x800); [reflexivity|].
    destruct (cp <? 0x10000); reflexivity. }
  unfold TextEncoder_encode. cbn [scalar_values].
  destruct (is_lead c).
  - destruct s as [|d s]; [reflexivity|]. destruct (is_trail d); apply Hb.
  - destruct (is_trail c); apply Hb.
Qed.

Lemma base64_encode_nonempty (b : list Z) :
  falsy b = false -> falsy (base64_encode b) = false.
Proof. destruct b as [|x [|y [|z r]]]; [discriminate|reflexivity..]. Qed.

Lemma imap_nonempty (f : nat -> Z -> Z) (l : list Z) :
  falsy (imap f l) = falsy l.
Proof. now destruct l. Qed.


(** The bytes [handleDecrypt] decodes, under the password of the
    encryption, are the bytes [handleEncrypt] encoded. *)
Lemma digest_decrypt_bytes {engine : Engine} text password :
  string_ok text = true ->
  Z.of_nat (length (TextEncoder_encode text)) <= max_arguments ->
  exists base64 binaryStr,
    DigestApp.encryptText text password = Normal base64
    /\ falsy base64 = falsy text
    /\ atob base64 = Normal binaryStr
    /\ DigestApp.decryptedBytes binaryStr (DigestApp.deriveKeyFromPassword password)
       = TextEncoder_encode text
    /\ DigestApp.decryptText base64 password
       = Normal (TextDecoder_decode (TextEncoder_encode text)).
Proof.
  intros Hok Hlen.
  destruct (digest_key_ok password) as [Hk Hl].
  pose proof (TextEncoder_encode_bytes_ok text Hok) as Hb.
  pose proof (stream_bytes_ok _ Hk Hl _ Hb) as He.
  assert (Hd : DigestApp.decryptedBytes
                 (imap (fun i b => ToUint8 (xor_with_key
                                              (DigestApp.deriveKeyFromPassword password) i b))
                       (TextEncoder_encode text))
                 (DigestApp.deriveKeyFromPassword password)
               = TextEncoder_encode text).
  { unfold DigestApp.decryptedBytes. cbv zeta.
    rewrite spread_charCodes_bytes by exact He. rewrite fmap_imap.
    change (imap (fun n => ToUint8 ∘ _) ?l)
      with (imap (fun i b => ToUint8 (xor_with_key
                                        (DigestApp.deriveKeyFromPassword password) i b)) l).
    apply (stream_involutive _ Hk Hl _ Hb). }
  eexists. eexists. split; [now apply digest_encryptText|].
  split.
  { destruct text as [|c text].
    - reflexivity.
    - apply base64_encode_nonempty. rewrite imap_nonempty.
      now apply TextEncoder_encode_nonempty. }
  split; [now apply atob_base64_encode|].
  split; [exact Hd|].
  now rewrite digest_decryptText_atob, atob_base64_encode, Hd.
Qed.

Lemma cipher_encryptText_digest {engine : Engine} text password :
  CipherApp.encryptText text (CipherApp.deriveKeyBytes password)
  = DigestApp.encryptText text password.
Proof. reflexivity. Qed.

Lemma legacy_key_range password :
  string_ok password = true -> 0 <= LegacyApp.deriveKeyFromPassword password < 256.
Proof.
  intros Hok. unfold LegacyApp.deriveKeyFromPassword.
  rewrite (deriveKeyFromPassword_loop_fold password Hok) by (simpl; lia).
  apply rolling_hash_range. lia.
Qed.


Lemma legacy_encrypted_bytes_ok key (a : list Z) :
  0 <= key < 256 -> bytes_ok a = true ->
  bytes_ok ((fun b => ToUint8 (bitxor (Some b) (Some key))) <$> a) = true.
Proof.
  intros Hk Ha. apply bytes_ok_Forall, Forall_fmap.
  apply bytes_ok_Forall in Ha. eapply Forall_impl; [exact Ha|].
  intros b Hb. unfold compose. cbv beta in *. rewrite bitxor_bytes by lia.
  rewrite ToUint8_byte; apply lxor_byte; lia.
Qed.


(** ** What comes back from an arbitrary plaintext *)

Lemma replace_unpaired_pair c d s :
  replace_unpaired_surrogates (c :: d :: s) =
  if is_lead c then
    if is_trail d then c :: d :: replace_unpaired_surrogates s
    else 0xFFFD :: replace_unpaired_surrogates (d :: s)
  else if is_trail c then 0xFFFD :: replace_unpaired_surrogates (d :: s)
  else c :: replace_unpaired_surrogates (d :: s).
Proof. reflexivity. Qed.

Lemma code_units_small cp : cp < 0x10000 -> code_units cp = [cp].
Proof.
  intros H. unfold code_units. destruct (Z.ltb_spec cp 0x10000); [reflexivity | lia].
Qed.

Lemma scalar_values_replace_unpaired (s : list Z) :
  string_ok s = true ->
  scalar_values s ≫= code_units = replace_unpaired_surrogates s.
Proof.
  induction s as [|c|c d s IH1 IH2] using list_pair_ind; intros Hok.
  - reflexivity.
  - apply string_ok_cons in Hok as [Hc _].
    cbn [scalar_values replace_unpaired_surrogates].
    destruct (is_lead c); [reflexivity|]. destruct (is_trail c); [reflexivity|].
    cbn [mbind list_bind]. now rewrite code_units_small by lia.
  - apply string_ok_cons in Hok as [Hc Hds].
    pose proof Hds as Hds'. apply string_ok_cons in Hds' as [Hd Hs].
    rewrite scalar_values_pair, replace_unpaired_pair.
    destruct (is_lead c) eqn:Hl.
    + destruct (is_trail d) eqn:Ht.
      * apply is_lead_range in Hl. apply is_trail_range in Ht.
        cbn [mbind list_bind]. rewrite code_units_pair by assumption.
        cbn [app]. now rewrite <- IH1.
      * cbn [mbind list_bind]. rewrite code_units_small by lia.
        cbn [app]. now rewrite <- IH2.
    + destruct (is_trail c) eqn:Ht.
      * cbn [mbind list_bind]. rewrite code_units_small by lia.
        cbn [app]. now rewrite <- IH2.
      * cbn [mbind list_bind]. rewrite code_units_small by lia.
        cbn [app]. now rewrite <- IH2.
Qed.

Lemma strip_BOM_code_units (cps : list Z) :
  Forall (fun cp => is_scalar_value cp = true) cps ->
  strip_BOM cps ≫= code_units = strip_BOM (cps ≫= code_units).
Proof.
  intros Hs. destruct Hs as [|cp rest Hcp _]; [reflexivity|].
  apply is_scalar_value_range in Hcp as [Hr _].
  cbn [strip_BOM mbind list_bind].
  destruct (Z.eqb_spec cp 0xFEFF) as [->|Hne]; [reflexivity|].
  cbn [mbind list_bind].
  destruct (Z.ltb_spec cp 0x10000) as [Hlt|Hge].
  - rewrite code_units_small by exact Hlt. cbn [app strip_BOM].
    now destruct (Z.eqb_spec cp 0xFEFF).
  - unfold code_units. destruct (Z.ltb_spec cp 0x10000); [lia|].
    cbn [app strip_BOM]. bits_to_arith.
    destruct (Z.eqb_spec (0xD800 + (cp - 0x10000) / 1024) 0xFEFF) as [Heq|_];
      [dlia | reflexivity].
Qed.

(** Decoding after encoding replaces the unpaired surrogates by U+FFFD
    and then removes a leading U+FEFF. *)
Lemma TextDecoder_TextEncoder_any (s : list Z) :
  string_ok s = true ->
  TextDecoder_decode (TextEncoder_encode s)
  = strip_BOM (replace_unpaired_surrogates s).
Proof.
  intros Hok. unfold TextDecoder_decode, TextEncoder_encode.
  pose proof (scalar_values_scalar s Hok) as Hs.
  rewrite utf8_decode_encoded by exact Hs.
  rewrite strip_BOM_code_units by exact Hs.
  now rewrite scalar_values_replace_unpaired.
Qed.




(** ** Round trips through the other handlers *)


(** X1: whatever the plaintext, as long as its UTF-8 encoding has no
    more bytes than a call takes arguments, [handleDecrypt] under the
    password of [handleEncrypt] shows the plaintext with U+FFFD in place
    of each unpaired surrogate and without a leading U+FEFF. *)
Theorem digest_roundtrip_any_plaintext {engine : Engine} (now : Z) (w : DigestApp.World) :
  falsy (DigestApp.text w) = false ->
  falsy (DigestApp.password w) = false ->
  falsy (DigestApp.sender w) = false ->
  string_ok (DigestApp.text w) = true ->
  Z.of_nat (length (TextEncoder_encode (DigestApp.text w))) <= max_arguments ->
  exists base64,
    DigestApp.handleEncrypt now w
    = DigestApp.Build (DigestApp.sender w) (DigestApp.password w) [] base64
        (DigestApp.messages w
         ++ [Log.Build (DigestApp.sender w) (js "") base64 encrypt now])
    /\ forall sender result messages,
         DigestApp.handleDecrypt
           (DigestApp.Build sender (DigestApp.password w) base64 result messages)
         = DigestApp.Build sender (DigestApp.password w) base64
             (strip_BOM (replace_unpaired_surrogates (DigestApp.text w))) messages.
Proof.
  intros Ht Hp Hs Hok Hlen.
  destruct (digest_decrypt_bytes _ (DigestApp.password w) Hok Hlen)
    as (base64 & binaryStr & Henc & Hf & _ & _ & Hd).
  rewrite TextDecoder_TextEncoder_any in Hd by exact Hok.
  exists base64. split.
  - unfold DigestApp.handleEncrypt. rewrite Ht, Hp, Hs. cbn [orb]. now rewrite Henc.
  - intros sender result messages. unfold DigestApp.handleDecrypt.
    cbn [DigestApp.text DigestApp.password DigestApp.sender DigestApp.messages].
    now rewrite Hf, Ht, Hp, Hd.
Qed.

Lemma digest_roundtrip_any_plaintext_witness :
  exists base64,
    DigestApp.handleEncrypt (engine := example_engine) 7
      (DigestApp.Build (js "bob") (js "pw") [0xFEFF; 0xD800; 104; 0xDC00] [] [])
    = DigestApp.Build (js "bob") (js "pw") [] base64
        ([] ++ [Log.Build (js "bob") (js "") base64 encrypt 7])
    /\ forall sender result messages,
         DigestApp.handleDecrypt (DigestApp.Build sender (js "pw") base64 result messages)
         = DigestApp.Build sender (js "pw") base64
             (strip_BOM (replace_unpaired_surrogates [0xFEFF; 0xD800; 104; 0xDC00]))
             messages.
Proof.
  apply (digest_roundtrip_any_plaintext 7
           (DigestApp.Build (js "bob") (js "pw") [0xFEFF; 0xD800; 104; 0xDC00] [] []));
    [reflexivity..|].
  vm_compute. discriminate.
Defined.





(** ** The stored text *)

Lemma padded_with_replicate pad (body : list Z) :
  forallb base64_alphabet body = true ->
  padded_with pad (body ++ replicate pad 61) = true.
Proof.
  intros Ha. unfold padded_with.
  rewrite length_app, length_replicate.
  replace (length body + pad - pad)%nat with (length body) by lia.
  rewrite take_app_length, drop_app_length, Ha.
  destruct (Nat.leb_spec pad (length body + pad)); [|lia].
  cbn [andb]. apply forallb_forall. intros c Hc.
  apply list_elem_of_In, elem_of_replicate in Hc as [-> _]. reflexivity.
Qed.

(** [btoa] writes padded Base64, four characters for every three bytes. *)
Lemma base64_encode_valid (input : list Z) :
  bytes_ok input = true ->
  valid_padded_base64 (base64_encode input) = true
  /\ length (base64_encode input) = (4 * ((length input + 2) / 3))%nat.
Proof.
  intros Hok. rewrite base64_encode_sextets by exact Hok.
  pose proof (sextets_alphabet input Hok) as Ha.
  pose proof (sextets_length input) as Hlen.
  assert (Hl : length ((base64_char <$> sextets input)
                       ++ replicate (padding_length (length input)) 61)
               = (4 * ((length input + 2) / 3))%nat).
  { now rewrite length_app, length_fmap, length_replicate. }
  split; [|exact Hl].
  unfold valid_padded_base64. rewrite Hl.
  replace ((4 * ((length input + 2) / 3)) mod 4)%nat with 0%nat by dlia.
  cbn [Nat.eqb andb].
  pose proof (padded_with_replicate (padding_length (length input)) _ Ha) as Hp.
  destruct (padding_length_cases (length input)) as [H | [H | H]];
    rewrite H in Hp |- *; rewrite Hp; cbn [orb];
    repeat (rewrite ?orb_true_r; cbn [orb]); reflexivity.
Qed.

Lemma digest_encryptText_valid {engine : Engine} text password :
  string_ok text = true ->
  Z.of_nat (length (TextEncoder_encode text)) <= max_arguments ->
  exists base64,
    DigestApp.encryptText text password = Normal base64
    /\ valid_padded_base64 base64 = true
    /\ length base64 = (4 * ((length (TextEncoder_encode text) + 2) / 3))%nat.
Proof.
  intros Hok Hmax. destruct (digest_key_ok password) as [Hk Hl].
  pose proof (stream_bytes_ok _ Hk Hl _ (TextEncoder_encode_bytes_ok text Hok)) as He.
  eexists. split; [apply digest_encryptText; assumption|].
  destruct (base64_encode_valid _ He) as [Hv Hlen].
  split; [exact Hv|]. now rewrite Hlen, length_imap.
Qed.

Lemma legacy_encryptText_valid {engine : Engine} text key :
  0 <= key < 256 -> string_ok text = true ->
  Z.of_nat (length (TextEncoder_encode text)) <= max_arguments ->
  exists base64,
    LegacyApp.encryptText text key = Normal base64
    /\ valid_padded_base64 base64 = true
    /\ length base64 = (4 * ((length (TextEncoder_encode text) + 2) / 3))%nat.
Proof.
  intros Hk Hok Hmax.
  pose proof (TextEncoder_encode_bytes_ok text Hok) as Hb.
  pose proof (legacy_encrypted_bytes_ok key _ Hk Hb) as He.
  eexists. split.
  { unfold LegacyApp.encryptText. cbv zeta.
    rewrite String_fromCharCode_bytes by (rewrite ?length_fmap; assumption).
    now apply btoa_bytes. }
  destruct (base64_encode_valid _ He) as [Hv Hlen].
  split; [exact Hv|]. now rewrite Hlen, length_fmap.
Qed.

(** X4: with a sender, a password and a plaintext that are not empty, the
    UTF-8 encoding of the plaintext of no more bytes than a call takes
    arguments, each encrypt handler appends exactly one record with the
    sender, the mode and the time, and clears the text box.  The stored
    text is valid padded Base64, four characters for every three bytes of
    the UTF-8 plaintext.  On a plaintext of more bytes the handlers fail
    in [String.fromCharCode(...encrypted)]: nothing is stored and the
    text box keeps the plaintext. *)
Theorem encrypt_stores_one_base64_record {engine : Engine} (now : Z) (sender password text : list Z) :
  falsy text = false -> falsy password = false -> falsy sender = false ->
  string_ok text = true -> string_ok password = true ->
  Z.of_nat (length (TextEncoder_encode text)) <= max_arguments ->
  (exists base64,
     valid_padded_base64 base64 = true
     /\ length base64 = (4 * ((length (TextEncoder_encode text) + 2) / 3))%nat
     /\ forall decryptedResult messages alerts,
          LegacyApp.handleProcess now
            (LegacyApp.Build sender password text encrypt decryptedResult messages alerts)
          = LegacyApp.Build sender password [] encrypt decryptedResult
              (messages ++ [Log.Build sender (js "***") base64 encrypt now]) alerts)
  /\ (exists base64,
     valid_padded_base64 base64 = true
     /\ length base64 = (4 * ((length (TextEncoder_encode text) + 2) / 3))%nat
     /\ forall decryptedResult messages alerts,
          CipherApp.handleProcess now
            (CipherApp.Build sender password text encrypt decryptedResult messages alerts)
          = CipherApp.Build sender password [] encrypt decryptedResult
              (messages ++ [Log.Build sender (js "***") base64 encrypt now]) alerts)
  /\ (exists base64,
     valid_padded_base64 base64 = true
     /\ length base64 = (4 * ((length (TextEncoder_encode text) + 2) / 3))%nat
     /\ forall result messages,
          DigestApp.handleEncrypt now
            (DigestApp.Build sender password text result messages)
          = DigestApp.Build sender password [] base64
              (messages ++ [Log.Build sender (js "") base64 encrypt now]))
  /\ (forall long decryptedResult result messages alerts,
       max_arguments < Z.of_nat (length (TextEncoder_encode long)) ->
       LegacyApp.handleProcess now
         (LegacyApp.Build sender password long encrypt decryptedResult messages alerts)
       = LegacyApp.Build sender password long encrypt decryptedResult messages alerts
       /\ CipherApp.handleProcess now
            (CipherApp.Build sender password long encrypt decryptedResult messages alerts)
          = CipherApp.Build sender password long encrypt decryptedResult messages alerts
       /\ DigestApp.handleEncrypt now
            (DigestApp.Build sender password long result messages)
          = DigestApp.Build sender password long result messages).
Proof.
  intros Ht Hp Hs Hok Hpok Hmax. split; [|split; [|split]].
  - destruct (legacy_encryptText_valid text _ (legacy_key_range _ Hpok) Hok Hmax)
      as (base64 & Henc & Hv & Hlen).
    exists base64. split; [exact Hv|]. split; [exact Hlen|].
    intros decryptedResult messages alerts. unfold LegacyApp.handleProcess.
    cbn [LegacyApp.text LegacyApp.password LegacyApp.sender LegacyApp.messages
         LegacyApp.mode LegacyApp.alerts LegacyApp.decryptedResult].
    rewrite Ht, Hp, Hs. cbn [orb]. now rewrite Henc.
  - destruct (digest_encryptText_valid text password Hok Hmax)
      as (base64 & Henc & Hv & Hlen).
    rewrite <- cipher_encryptText_digest in Henc.
    exists base64. split; [exact Hv|]. split; [exact Hlen|].
    intros decryptedResult messages alerts. unfold CipherApp.handleProcess.
    cbn [CipherApp.text CipherApp.password CipherApp.sender CipherApp.messages
         CipherApp.mode CipherApp.alerts CipherApp.decryptedResult].
    rewrite Ht, Hp, Hs. cbn [orb]. now rewrite Henc.
  - destruct (digest_encryptText_valid text password Hok Hmax)
      as (base64 & Henc & Hv & Hlen).
    exists base64. split; [exact Hv|]. split; [exact Hlen|].
    intros result messages. unfold DigestApp.handleEncrypt.
    cbn [DigestApp.text DigestApp.password DigestApp.sender DigestApp.messages].
    rewrite Ht, Hp, Hs. cbn [orb]. now rewrite Henc.
  - intros long decryptedResult result messages alerts Hlong.
    split; [|split].
    + unfold LegacyApp.handleProcess.
      cbn [LegacyApp.text LegacyApp.password LegacyApp.sender LegacyApp.messages
           LegacyApp.mode LegacyApp.alerts LegacyApp.decryptedResult].
      destruct (falsy long || _); [reflexivity|].
      now rewrite legacy_encryptText_long.
    + unfold CipherApp.handleProcess.
      cbn [CipherApp.text CipherApp.password CipherApp.sender CipherApp.messages
           CipherApp.mode CipherApp.alerts CipherApp.decryptedResult].
      destruct (falsy long || _); [reflexivity|].
      now rewrite cipher_encryptText_digest, digest_encryptText_long.
    + unfold DigestApp.handleEncrypt.
      cbn [DigestApp.text DigestApp.password DigestApp.sender DigestApp.messages].
      destruct (falsy long || _ || _); [reflexivity|].
      now rewrite digest_encryptText_long.
Qed.

Lemma encrypt_stores_one_base64_record_witness :
  (exists base64,
     valid_padded_base64 base64 = true
     /\ length base64 = (4 * ((length (TextEncoder_encode [0xD800; 104; 105; 33]%Z) + 2) / 3))%nat
     /\ forall decryptedResult messages alerts,
          LegacyApp.handleProcess (engine := example_engine) 7
            (LegacyApp.Build (js "bob") (js "pw") [0xD800; 104; 105; 33] encrypt
               decryptedResult messages alerts)
          = LegacyApp.Build (js "bob") (js "pw") [] encrypt decryptedResult
              (messages ++ [Log.Build (js "bob") (js "***") base64 encrypt 7]) alerts)
  /\ (exists base64,
     valid_padded_base64 base64 = true
     /\ length base64 = (4 * ((length (TextEncoder_encode [0xD800; 104; 105; 33]%Z) + 2) / 3))%nat
     /\ forall decryptedResult messages alerts,
          CipherApp.handleProcess (engine := example_engine) 7
            (CipherApp.Build (js "bob") (js "pw") [0xD800; 104; 105; 33] encrypt
               decryptedResult messages alerts)
          = CipherApp.Build (js "bob") (js "pw") [] encrypt decryptedResult
              (messages ++ [Log.Build (js "bob") (js "***") base64 encrypt 7]) alerts)
  /\ (exists base64,
     valid_padded_base64 base64 = true
     /\ length base64 = (4 * ((length (TextEncoder_encode [0xD800; 104; 105; 33]%Z) + 2) / 3))%nat
     /\ forall result messages,
          DigestApp.handleEncrypt (engine := example_engine) 7
            (DigestApp.Build (js "bob") (js "pw") [0xD800; 104; 105; 33] result messages)
          = DigestApp.Build (js "bob") (js "pw") [] base64
              (messages ++ [Log.Build (js "bob") (js "") base64 encrypt 7]))
  /\ (forall long decryptedResult result messages alerts,
       max_arguments (Engine := example_engine)
       < Z.of_nat (length (TextEncoder_encode long)) ->
       LegacyApp.handleProcess (engine := example_engine) 7
         (LegacyApp.Build (js "bob") (js "pw") long encrypt decryptedResult messages alerts)
       = LegacyApp.Build (js "bob") (js "pw") long encrypt decryptedResult messages alerts
       /\ CipherApp.handleProcess (engine := example_engine) 7
            (CipherApp.Build (js "bob") (js "pw") long encrypt decryptedResult messages alerts)
          = CipherApp.Build (js "bob") (js "pw") long encrypt decryptedResult messages alerts
       /\ DigestApp.handleEncrypt (engine := example_engine) 7
            (DigestApp.Build (js "bob") (js "pw") long result messages)
          = DigestApp.Build (js "bob") (js "pw") long result messages).
Proof.
  apply (encrypt_stores_one_base64_record (engine := example_engine) 7
           (js "bob") (js "pw") [0xD800; 104; 105; 33]);
    [reflexivity..|].
  vm_compute. discriminate.
Defined.

(** ** The log is only appended to *)

(** X5: a handler leaves the records of the log as they are and appends
    at most one; decryption, whatever its outcome, writes nothing. *)
Theorem handlers_only_append {engine : Engine} :
  (forall now w,
     exists added,
       LegacyApp.messages (LegacyApp.handleProcess now w) = LegacyApp.messages w ++ added
       /\ (length added <= 1)%nat
       /\ (LegacyApp.mode w = decrypt -> added = []))
  /\ (forall now w,
     exists added,
       CipherApp.messages (CipherApp.handleProcess now w) = CipherApp.messages w ++ added
       /\ (length added <= 1)%nat
       /\ (CipherApp.mode w = decrypt -> added = []))
  /\ (forall now w,
     exists added,
       DigestApp.messages (DigestApp.handleEncrypt now w) = DigestApp.messages w ++ added
       /\ (length added <= 1)%nat)
  /\ (forall w, DigestApp.messages (DigestApp.handleDecrypt w) = DigestApp.messages w).
Proof.
  split; [|split; [|split]].
  - intros now w. unfold LegacyApp.handleProcess.
    destruct (falsy (LegacyApp.text w) || _).
    { exists []. rewrite app_nil_r. split; [reflexivity|]. split; [cbn; lia | reflexivity]. }
    destruct (LegacyApp.mode w).
    + destruct (LegacyApp.encryptText _ _); cbn [LegacyApp.messages].
      * eexists. split; [reflexivity|]. split; [cbn; lia | discriminate].
      * exists []. rewrite app_nil_r. split; [reflexivity|]. split; [cbn; lia | reflexivity].
    + destruct (LegacyApp.decryptText _ _); cbn [LegacyApp.messages];
        exists []; rewrite app_nil_r; (split; [reflexivity|]);
        (split; [cbn; lia | reflexivity]).
  - intros now w. unfold CipherApp.handleProcess.
    destruct (falsy (CipherApp.text w) || _).
    { exists []. rewrite app_nil_r. split; [reflexivity|]. split; [cbn; lia | reflexivity]. }
    destruct (CipherApp.mode w).
    + destruct (CipherApp.encryptText _ _); cbn [CipherApp.messages].
      * eexists. split; [reflexivity|]. split; [cbn; lia | discriminate].
      * exists []. rewrite app_nil_r. split; [reflexivity|]. split; [cbn; lia | reflexivity].
    + destruct (CipherApp.decryptText _ _); cbn [CipherApp.messages];
        exists []; rewrite app_nil_r; (split; [reflexivity|]);
        (split; [cbn; lia | reflexivity]).
  - intros now w. unfold DigestApp.handleEncrypt.
    destruct (falsy (DigestApp.text w) || _ || _).
    { exists []. rewrite app_nil_r. split; [reflexivity | cbn; lia]. }
    destruct (DigestApp.encryptText _ _); cbn [DigestApp.messages].
    + eexists. split; [reflexivity | cbn; lia].
    + exists []. rewrite app_nil_r. split; [reflexivity | cbn; lia].
  - intros w. unfold DigestApp.handleDecrypt.
    destruct (falsy (DigestApp.text w) || _); [reflexivity|].
    now destruct (DigestApp.decryptText _ _).
Qed.

(** ** Inline decryption in the log list *)








Lemma not_appended_alert {A} (l : list A) (a : A) : l ++ [a] <> l.
Proof. intros H. symmetry in H. now apply not_appended in H. Qed.

(** X7: the inline handler raises its alert exactly when the text of the
    log is malformed Base64, whatever the password; on every other text it
    records a decrypted text for the log and raises nothing, so a wrong
    password is never reported. *)
Theorem inline_alert_only_for_malformed_base64 (e : Entry) (password : list Z) (v : View) :
  (valid_padded_base64 (without_whitespace (Log.text (entry_log e)))
   || unpadded_base64 (without_whitespace (Log.text (entry_log e))) = false ->
   DigestInline.handleInlineDecrypt e password v
   = MkView (visibleDecryptIds v) (showPasswordInputs v) (inlinePasswords v)
       (view_alerts v ++ [js "복호화 실패: 키가 맞지 않거나 암호문 형식이 잘못됨."])
   /\ CipherInline.handleInlineDecrypt e password v
      = MkView (visibleDecryptIds v) (showPasswordInputs v) (inlinePasswords v)
          (view_alerts v ++ [js "❌ 복호화 실패!"]))
  /\ (valid_padded_base64 (without_whitespace (Log.text (entry_log e)))
      || unpadded_base64 (without_whitespace (Log.text (entry_log e))) = true ->
      view_alerts (DigestInline.handleInlineDecrypt e password v) = view_alerts v
      /\ is_Some (visibleDecryptIds (DigestInline.handleInlineDecrypt e password v)
                  !! id_key e)
      /\ view_alerts (CipherInline.handleInlineDecrypt e password v) = view_alerts v
      /\ is_Some (visibleDecryptIds (CipherInline.handleInlineDecrypt e password v)
                  !! id_key e)).
Proof.
  unfold DigestInline.handleInlineDecrypt, CipherInline.handleInlineDecrypt.
  rewrite digest_decryptText_atob, cipher_decryptText_atob.
  split.
  - intros Hbad. apply orb_false_iff, atob_throws_iff in Hbad. now rewrite Hbad.
  - intros Hgood.
    destruct (atob_cases (Log.text (entry_log e))) as [Ht | [binaryStr Hn]].
    + apply atob_throws_iff, orb_false_iff in Ht. congruence.
    + rewrite Hn. cbn [view_alerts visibleDecryptIds].
      rewrite !lookup_insert_eq. repeat split; eauto.
Qed.

(** ** Keys and key streams *)

Lemma rolling_fold_mod (password : list Z) :
  forall hash,
    fold_left (fun hash charCode => (hash * 31 + charCode) mod 256)
              ((fun c => c mod 256) <$> password) hash
    = fold_left (fun hash charCode => (hash * 31 + charCode) mod 256) password hash.
Proof.
  induction password as [|c s IH]; intros hash; [reflexivity|].
  rewrite fmap_cons. cbn [fold_left]. rewrite IH. f_equal.
  now rewrite Z.add_mod_idemp_r by lia.
Qed.

Lemma string_ok_mod (s : list Z) : string_ok ((fun c => c mod 256) <$> s) = true.
Proof.
  unfold string_ok. apply forallb_forall. intros c Hc.
  apply list_elem_of_In, list_elem_of_fmap in Hc as (x & -> & _).
  unfold is_code_unit. apply andb_true_iff. rewrite Z.leb_le, Z.ltb_lt. dlia.
Qed.

(** X8: the legacy key depends on the char codes of the password only
    modulo 256: a password and the password with every char code reduced
    modulo 256 derive the same key. *)
Theorem legacy_key_ignores_high_byte (password : list Z) :
  string_ok password = true ->
  LegacyApp.deriveKeyFromPassword ((fun c => c mod 256) <$> password)
  = LegacyApp.deriveKeyFromPassword password.
Proof.
  intros Hok. unfold LegacyApp.deriveKeyFromPassword.
  rewrite (deriveKeyFromPassword_loop_fold _ (string_ok_mod password))
    by (simpl; lia).
  rewrite (deriveKeyFromPassword_loop_fold password Hok) by (simpl; lia).
  rewrite !drop_0. apply rolling_fold_mod.
Qed.

Lemma legacy_key_ignores_high_byte_witness :
  LegacyApp.deriveKeyFromPassword ((fun c => c mod 256) <$> js "비밀번호")
  = LegacyApp.deriveKeyFromPassword (js "비밀번호").
Proof. apply (legacy_key_ignores_high_byte (js "비밀번호")). reflexivity. Defined.

(** X9: the key stream repeats with the length of the key (32 bytes for a
    derived key): the XOR of two bytes of the output that are one key
    length apart is the XOR of the two bytes of the data, whatever the key. *)
Theorem xorEncryptDecrypt_keystream_repeats (data key out : list Z) (i : nat) (a b : Z) :
  bytes_ok data = true -> bytes_ok key = true -> (1 <= length key)%nat ->
  CipherApp.xorEncryptDecrypt data key = Normal out ->
  data !! i = Some a -> data !! (i + length key)%nat = Some b ->
  exists ca cb,
    out !! i = Some ca /\ out !! (i + length key)%nat = Some cb
    /\ Z.lxor ca cb = Z.lxor a b.
Proof.
  intros Hd Hk Hlen Hout Ha Hb. injection Hout as <-.
  pose proof (bytes_ok_lookup _ _ _ Hd Ha) as Hra.
  pose proof (bytes_ok_lookup _ _ _ Hd Hb) as Hrb.
  destruct (stream_byte key Hk Hlen i a Hra) as (k & Hki & _ & Hfa).
  destruct (stream_byte key Hk Hlen (i + length key) b Hrb) as (k' & Hki' & _ & Hfb).
  assert (Hmod : ((i + length key) mod length key = i mod length key)%nat).
  { rewrite <- (Nat.mul_1_l (length key)) at 1. apply Nat.Div0.mod_add. }
  rewrite Hmod, Hki in Hki'. injection Hki' as <-.
  exists (Z.lxor a k), (Z.lxor b k).
  rewrite !list_lookup_imap, Ha, Hb. cbn [fmap option_fmap option_map].
  rewrite Hfa, Hfb. repeat split.
  rewrite (Z.lxor_comm b k), Z.lxor_assoc, <- (Z.lxor_assoc k k b).
  now rewrite Z.lxor_nilpotent, Z.lxor_0_l.
Qed.

Lemma xorEncryptDecrypt_keystream_repeats_witness :
  exists ca cb,
    [Z.lxor 104 7; Z.lxor 105 200; Z.lxor 33 7] !! 0%nat = Some ca
    /\ [Z.lxor 104 7; Z.lxor 105 200; Z.lxor 33 7] !! (0 + length [7; 200])%nat = Some cb
    /\ Z.lxor ca cb = Z.lxor 104 33.
Proof.
  apply (xorEncryptDecrypt_keystream_repeats [104; 105; 33] [7; 200]
           [Z.lxor 104 7; Z.lxor 105 200; Z.lxor 33 7] 0 104 33);
    try reflexivity. simpl. lia.
Defined.

(** X10: one known byte of the data gives the byte of the key at its
    position: the XOR of the output byte and the data byte is
    [key[i mod len(key)]]. *)
Theorem xorEncryptDecrypt_known_plaintext (data key out : list Z) (i : nat) (a c : Z) :
  bytes_ok data = true -> bytes_ok key = true -> (1 <= length key)%nat ->
  CipherApp.xorEncryptDecrypt data key = Normal out ->
  data !! i = Some a -> out !! i = Some c ->
  key !! (i mod length key)%nat = Some (Z.lxor c a).
Proof.
  intros Hd Hk Hlen Hout Ha Hc. injection Hout as <-.
  pose proof (bytes_ok_lookup _ _ _ Hd Ha) as Hra.
  destruct (stream_byte key Hk Hlen i a Hra) as (k & Hki & _ & Hfa).
  rewrite list_lookup_imap, Ha in Hc. cbn [fmap option_fmap option_map] in Hc.
  rewrite Hfa in Hc. injection Hc as <-. rewrite Hki. f_equal.
  rewrite (Z.lxor_comm a k), Z.lxor_assoc. 
  now rewrite Z.lxor_nilpotent, Z.lxor_0_r.
Qed.

Lemma xorEncryptDecrypt_known_plaintext_witness :
  [7; 200] !! (1 mod length [7; 200])%nat = Some (Z.lxor (Z.lxor 105 200) 105).
Proof.
  apply (xorEncryptDecrypt_known_plaintext [104; 105; 33] [7; 200]
           [Z.lxor 104 7; Z.lxor 105 200; Z.lxor 33 7] 1 105 (Z.lxor 105 200));
    try reflexivity. simpl. lia.
Defined.

(** ** Pagination of the log list *)

Lemma totalPages_nat {A} (logs : list A) :
  Pagination.totalPages logs = Z.of_nat ((length logs + 9) / 10).
Proof.
  unfold Pagination.totalPages, Pagination.Math_ceil_div, Pagination.LOGS_PER_PAGE.
  destruct (Z.eqb_spec (Z.of_nat (length logs) mod 10) 0); dlia.
Qed.

(** From page 1 on, a page is ten logs after those of the pages before. *)
Lemma paginatedLogs_take_drop {A} (logs : list A) (p : Z) :
  1 <= p ->
  Pagination.paginatedLogs logs p = take 10 (drop (10 * Z.to_nat (p - 1)) logs).
Proof.
  intros Hp. unfold Pagination.paginatedLogs, Pagination.slice, Pagination.LOGS_PER_PAGE.
  cbv zeta.
  destruct (Z.ltb_spec ((p - 1) * 10) 0); [lia|].
  destruct (Z.ltb_spec (p * 10) 0); [lia|].
  destruct (Z.le_gt_cases ((p - 1) * 10) (Z.of_nat (length logs))) as [Hin|Hout].
  - rewrite (Z.min_l ((p - 1) * 10)) by lia.
    replace (Z.to_nat ((p - 1) * 10)) with (10 * Z.to_nat (p - 1))%nat by lia.
    destruct (Z.le_gt_cases (p * 10) (Z.of_nat (length logs))).
    + rewrite Z.min_l by lia. f_equal. lia.
    + rewrite Z.min_r by lia.
      rewrite !take_ge; [reflexivity|rewrite length_drop; lia..].
  - rewrite !Z.min_r by lia.
    rewrite (drop_ge logs (10 * Z.to_nat (p - 1))) by lia.
    replace (Z.to_nat (Z.max (Z.of_nat (length logs) - Z.of_nat (length logs)) 0))
      with 0%nat by lia.
    now rewrite take_0, take_nil.
Qed.

Lemma chunks_concat {A} (k : nat) :
  forall logs : list A, (length logs <= 10 * k)%nat ->
    concat ((fun i => take 10 (drop (10 * i) logs)) <$> seq 0 k) = logs.
Proof.
  induction k as [|k IH]; intros logs Hlen.
  - destruct logs; [reflexivity | cbn in Hlen; lia].
  - cbn [seq]. rewrite fmap_cons. cbn [concat].
    change (10 * 0)%nat with 0%nat. rewrite drop_0.
    rewrite <- fmap_S_seq, <- list_fmap_compose.
    etransitivity; [|apply (take_drop 10 logs)]. f_equal.
    etransitivity; [|apply (IH (drop 10 logs)); rewrite length_drop; lia].
    f_equal. apply list_fmap_ext. intros _ i _. unfold compose.
    rewrite drop_drop. do 2 f_equal. lia.
Qed.

(** X11: the pages 1 to [totalPages] hold every log exactly once and in
    order; a page has at most ten logs, none of these pages is empty, and
    every page after them is. *)
Theorem pages_partition_logs {A} (logs : list A) :
  concat ((fun p => Pagination.paginatedLogs logs (Z.of_nat p))
          <$> seq 1 (Z.to_nat (Pagination.totalPages logs))) = logs
  /\ (forall p, 1 <= p -> (length (Pagination.paginatedLogs logs p) <= 10)%nat)
  /\ (forall p, 1 <= p <= Pagination.totalPages logs ->
        Pagination.paginatedLogs logs p <> [])
  /\ (forall p, Pagination.totalPages logs < p ->
        Pagination.paginatedLogs logs p = []).
Proof.
  rewrite totalPages_nat. split; [|split; [|split]].
  - rewrite Nat2Z.id, <- fmap_S_seq, <- list_fmap_compose.
    etransitivity; [|apply (chunks_concat ((length logs + 9) / 10) logs); dlia].
    f_equal. apply list_fmap_ext. intros _ i _. unfold compose.
    rewrite paginatedLogs_take_drop by lia. do 3 f_equal. lia.
  - intros p Hp. rewrite paginatedLogs_take_drop by exact Hp.
    rewrite length_take. lia.
  - intros p Hp. rewrite paginatedLogs_take_drop by lia.
    intros Hnil. apply (f_equal length) in Hnil.
    rewrite length_take, length_drop in Hnil. cbn [length] in Hnil. dlia.
  - intros p Hp.
    assert (H1 : 1 <= p) by lia.
    rewrite paginatedLogs_take_drop by exact H1.
    rewrite drop_ge by dlia. apply take_nil.
Qed.

(** X12: starting from page 1, the buttons keep the current page between
    1 and the number of pages (1 when there is none), also when logs
    arrive; so while there are logs the page shown is never empty. *)
Theorem navigation_keeps_page_in_range {A} (logs more : list A) (currentPage : Z) :
  1 <= currentPage <= Z.max 1 (Pagination.totalPages logs) ->
  1 <= Pagination.previous currentPage <= Z.max 1 (Pagination.totalPages logs)
  /\ 1 <= Pagination.next (Pagination.totalPages logs) currentPage
       <= Z.max 1 (Pagination.totalPages logs)
  /\ 1 <= currentPage <= Z.max 1 (Pagination.totalPages (more ++ logs))
  /\ (logs <> [] -> Pagination.paginatedLogs logs currentPage <> []).
Proof.
  intros Hin. unfold Pagination.previous, Pagination.next.
  pose proof (totalPages_nat logs) as Ht.
  pose proof (totalPages_nat (more ++ logs)) as Ht'.
  rewrite length_app in Ht'.
  split; [destruct (Z.eqb_spec currentPage 1); lia|].
  split.
  { destruct (Z.eqb_spec currentPage (Pagination.totalPages logs)),
      (Z.eqb_spec (Pagination.totalPages logs) 0); cbn [orb]; lia. }
  split; [dlia|].
  intros Hne. rewrite paginatedLogs_take_drop by lia.
  intros Hnil. apply (f_equal length) in Hnil.
  rewrite length_take, length_drop in Hnil. cbn [length] in Hnil.
  destruct logs as [|x logs]; [contradiction|]. cbn [length] in *. dlia.
Qed.

Lemma navigation_keeps_page_in_range_witness :
  1 <= Pagination.previous 2 <= Z.max 1 (Pagination.totalPages (seq 0 25))
  /\ 1 <= Pagination.next (Pagination.totalPages (seq 0 25)) 2
       <= Z.max 1 (Pagination.totalPages (seq 0 25))
  /\ 1 <= 2 <= Z.max 1 (Pagination.totalPages ([100; 101]%nat ++ seq 0 25))
  /\ (seq 0 25 <> [] -> Pagination.paginatedLogs (seq 0 25) 2 <> []).
Proof.
  apply (navigation_keeps_page_in_range (seq 0 25) [100; 101]%nat 2).
  vm_compute. split; discriminate.
Defined.

(** ** Whitespace and padding in a pasted text *)

Lemma without_whitespace_idempotent (s : list Z) :
  without_whitespace (without_whitespace s) = without_whitespace s.
Proof.
  unfold without_whitespace. apply forallb_filter_id, forallb_forall.
  intros c Hc. now apply filter_In in Hc.
Qed.

Lemma without_whitespace_app (a b : list Z) :
  without_whitespace (a ++ b) = without_whitespace a ++ without_whitespace b.
Proof. unfold without_whitespace. apply List.filter_app. Qed.

Lemma without_whitespace_length (s : list Z) :
  (length (without_whitespace s) <= length s)%nat.
Proof. unfold without_whitespace. apply List.filter_length_le. Qed.

Lemma without_whitespace_prefix (a b : list Z) :
  without_whitespace (a ++ b) = a ++ b -> without_whitespace a = a.
Proof.
  rewrite without_whitespace_app. intros H.
  pose proof (without_whitespace_length a) as Ha.
  pose proof (without_whitespace_length b) as Hb.
  pose proof (f_equal length H) as Hl. rewrite !length_app in Hl.
  apply app_inj_1 in H; [tauto | lia].
Qed.

Lemma drop_trailing_equals_cases (d : list Z) :
  drop_trailing_equals d = d \/ d = drop_trailing_equals d ++ [61].
Proof.
  destruct d as [|c l _] using rev_ind; [now left|].
  rewrite drop_trailing_equals_snoc.
  destruct (Z.eqb_spec c 61) as [->|]; [now right | now left].
Qed.

Lemma remove_padding_cases (d : list Z) :
  remove_padding d = d
  \/ ((length d mod 4 = 0)%nat
      /\ (d = remove_padding d ++ [61] \/ d = remove_padding d ++ [61; 61])).
Proof.
  unfold remove_padding.
  destruct (Nat.eqb_spec (length d mod 4) 0) as [H0|]; [|now left].
  destruct (drop_trailing_equals_cases d) as [Hd | Hd].
  - rewrite Hd. destruct (drop_trailing_equals_cases d) as [Hd' | Hd'].
    + now left.
    + rewrite Hd in Hd'. rewrite Hd. now left.
  - destruct (drop_trailing_equals_cases (drop_trailing_equals d)) as [Hd' | Hd'].
    + rewrite Hd'. right. split; [exact H0 | now left].
    + right. split; [exact H0|]. right.
      rewrite Hd at 1. rewrite Hd' at 1. now rewrite <- app_assoc.
Qed.

Lemma remove_padding_idempotent (d : list Z) :
  remove_padding (remove_padding d) = remove_padding d.
Proof.
  destruct (remove_padding_cases d) as [H | [H0 [H | H]]].
  - now rewrite H.
  - apply (f_equal length) in H. rewrite length_app in H. cbn [length] in H.
    unfold remove_padding at 1.
    destruct (Nat.eqb_spec (length (remove_padding d) mod 4) 0); [dlia | reflexivity].
  - apply (f_equal length) in H. rewrite length_app in H. cbn [length] in H.
    unfold remove_padding at 1.
    destruct (Nat.eqb_spec (length (remove_padding d) mod 4) 0); [dlia | reflexivity].
Qed.

Lemma remove_padding_without_whitespace (d : list Z) :
  without_whitespace d = d ->
  without_whitespace (remove_padding d) = remove_padding d.
Proof.
  intros Hd. destruct (remove_padding_cases d) as [H | [_ [H | H]]].
  - now rewrite H.
  - rewrite H in Hd. now apply without_whitespace_prefix in Hd.
  - rewrite H in Hd. now apply without_whitespace_prefix in Hd.
Qed.

(** [atob] reads a text as it reads the text without its whitespace and
    padding. *)
Lemma atob_stripped (s : list Z) :
  atob (remove_padding (without_whitespace s)) = atob s.
Proof.
  unfold atob.
  change (List.filter (fun c => negb (is_ascii_whitespace c)) ?x)
    with (without_whitespace x).
  rewrite remove_padding_without_whitespace by apply without_whitespace_idempotent.
  now rewrite remove_padding_idempotent.
Qed.

Lemma atob_same_without_whitespace (s s' : list Z) :
  without_whitespace s' = without_whitespace s -> atob s' = atob s.
Proof.
  intros H. unfold atob.
  change (List.filter (fun c => negb (is_ascii_whitespace c)) ?x)
    with (without_whitespace x).
  now rewrite H.
Qed.

Lemma pasted_whitespace c :
  existsb (Z.eqb c) [9; 10; 12; 13; 32] = is_ascii_whitespace c.
Proof.
  unfold is_ascii_whitespace. cbn [existsb]. now rewrite orb_false_r, !orb_assoc.
Qed.

Lemma without_whitespace_cons c (s : list Z) :
  without_whitespace (c :: s) = c :: s ->
  is_ascii_whitespace c = false /\ without_whitespace s = s.
Proof.
  unfold without_whitespace. cbn [List.filter].
  destruct (is_ascii_whitespace c); cbn [negb]; intros H.
  - pose proof (List.filter_length_le (fun c => negb (is_ascii_whitespace c)) s) as Hl.
    apply (f_equal length) in H. cbn [length] in H. lia.
  - injection H as H. now split.
Qed.

(** A pasted text without its whitespace is the text it came from. *)
Lemma is_pasted_without_whitespace (pasted s : list Z) :
  without_whitespace s = s -> is_pasted s pasted = true ->
  without_whitespace pasted = s.
Proof.
  revert s. induction pasted as [|c rest IH]; intros s Hs Hp.
  - destruct s; [reflexivity | discriminate].
  - cbn [is_pasted] in Hp. rewrite pasted_whitespace in Hp.
    apply orb_true_iff in Hp as [Hp | Hp].
    + apply andb_true_iff in Hp as [Hc Hp].
      unfold without_whitespace. cbn [List.filter]. rewrite Hc. cbn [negb].
      now apply IH.
    + destruct s as [|d s']; [discriminate|].
      apply andb_true_iff in Hp as [Hc Hp]. apply Z.eqb_eq in Hc. subst d.
      apply without_whitespace_cons in Hs as [Hc Hs].
      unfold without_whitespace. cbn [List.filter]. rewrite Hc. cbn [negb].
      f_equal. now apply IH.
Qed.

Lemma is_pasted_nonempty (pasted s : list Z) :
  falsy s = false -> is_pasted s pasted = true -> falsy pasted = false.
Proof. destruct pasted; [cbn; congruence | reflexivity]. Qed.

Lemma without_equals_app (a b : list Z) :
  without_equals (a ++ b) = without_equals a ++ without_equals b.
Proof. unfold without_equals. apply List.filter_app. Qed.

Lemma without_equals_alphabet (body : list Z) :
  forallb base64_alphabet body = true -> without_equals body = body.
Proof.
  intros Ha. unfold without_equals. apply forallb_filter_id.
  rewrite forallb_forall in *. intros c Hc.
  now rewrite (alphabet_not_61 c (Ha c Hc)).
Qed.

(** Padded Base64 is alphabet characters and then its padding. *)
Lemma padded_with_split pad (s : list Z) :
  padded_with pad s = true ->
  exists body,
    s = body ++ replicate pad 61 /\ forallb base64_alphabet body = true.
Proof.
  unfold padded_with. rewrite !andb_true_iff. intros [[Hl Ha] He].
  apply Nat.leb_le in Hl.
  exists (take (length s - pad) s). split; [|exact Ha].
  rewrite <- (take_drop (length s - pad) s) at 1. f_equal.
  assert (Hd : length (drop (length s - pad) s) = pad) by (rewrite length_drop; lia).
  revert Hd He. generalize (drop (length s - pad) s). clear.
  intros l <-. induction l as [|c l IH]; [reflexivity|].
  cbn [forallb length replicate]. rewrite andb_true_iff. intros [Hc Hl].
  apply Z.eqb_eq in Hc. subst c. f_equal. now apply IH.
Qed.

Lemma without_equals_replicate pad : without_equals (replicate pad 61) = [].
Proof. induction pad as [|pad IH]; [reflexivity | exact IH]. Qed.

(** What [atob] removes from padded Base64 is its characters [=]. *)
Lemma remove_padding_valid (s : list Z) :
  valid_padded_base64 s = true -> remove_padding s = without_equals s.
Proof.
  unfold valid_padded_base64. rewrite andb_true_iff, !orb_true_iff.
  intros [Hlen Hpad]. unfold remove_padding. rewrite Hlen.
  assert (Hcases : exists pad body,
             (pad <= 2)%nat /\ s = body ++ replicate pad 61
             /\ forallb base64_alphabet body = true).
  { destruct Hpad as [[H | H] | H]; apply padded_with_split in H as (body & -> & Ha);
      [exists 0%nat, body | exists 1%nat, body | exists 2%nat, body];
      (split; [lia | split; [reflexivity | exact Ha]]). }
  destruct Hcases as (pad & body & Hle & -> & Ha).
  rewrite without_equals_app, without_equals_replicate, app_nil_r,
    (without_equals_alphabet _ Ha).
  destruct pad as [|[|[|pad]]]; [| | |lia]; cbn [replicate].
  - rewrite app_nil_r.
    rewrite (drop_trailing_equals_alphabet _ Ha). exact (drop_trailing_equals_alphabet _ Ha).
  - rewrite drop_trailing_equals_snoc. change (61 =? 61) with true. cbv iota.
    now apply drop_trailing_equals_alphabet.
  - change [61; 61] with ([61] ++ [61]). rewrite app_assoc.
    rewrite drop_trailing_equals_snoc. change (61 =? 61) with true. cbv iota.
    rewrite drop_trailing_equals_snoc. now change (61 =? 61) with true.
Qed.

Lemma without_equals_no_whitespace (s : list Z) :
  without_whitespace s = s -> without_whitespace (without_equals s) = without_equals s.
Proof.
  intros Hs. unfold without_whitespace, without_equals in *.
  apply forallb_filter_id, forallb_forall. intros c Hc.
  apply filter_In in Hc as [Hc _].
  rewrite <- Hs in Hc. now apply filter_In in Hc.
Qed.

(** [atob] reads the pasted text as it reads the Base64 it came from. *)
Lemma atob_pasted (base64 pasted : list Z) :
  valid_padded_base64 base64 = true -> pasted_from base64 pasted = true ->
  atob pasted = atob base64.
Proof.
  intros Hv Hp. pose proof (valid_padded_no_whitespace _ Hv) as Hw.
  apply orb_true_iff in Hp as [Hp | Hp].
  - apply atob_same_without_whitespace.
    now rewrite (is_pasted_without_whitespace _ _ Hw Hp).
  - pose proof (without_equals_no_whitespace _ Hw) as Hw'.
    rewrite (atob_same_without_whitespace (without_equals base64) pasted)
      by now rewrite (is_pasted_without_whitespace _ _ Hw' Hp).
    rewrite <- (atob_stripped base64), Hw. now rewrite remove_padding_valid.
Qed.

(** Padded Base64 that is not empty has a character that is not [=]. *)
Lemma without_equals_nonempty (s : list Z) :
  valid_padded_base64 s = true -> falsy s = false -> falsy (without_equals s) = false.
Proof.
  intros Hv Hs. pose proof Hv as Hv'.
  unfold valid_padded_base64 in Hv. rewrite andb_true_iff, !orb_true_iff in Hv.
  destruct Hv as [Hlen Hpad]. apply Nat.eqb_eq in Hlen.
  assert (Hcases : exists pad body,
             (pad <= 2)%nat /\ s = body ++ replicate pad 61
             /\ forallb base64_alphabet body = true).
  { destruct Hpad as [[H | H] | H]; apply padded_with_split in H as (body & -> & Ha);
      [exists 0%nat, body | exists 1%nat, body | exists 2%nat, body];
      (split; [lia | split; [reflexivity | exact Ha]]). }
  destruct Hcases as (pad & body & Hle & -> & Ha).
  rewrite without_equals_app, without_equals_replicate, app_nil_r,
    (without_equals_alphabet _ Ha).
  destruct body; [|reflexivity].
  rewrite app_nil_l, length_replicate in Hlen.
  destruct pad as [|[|[|pad]]]; [discriminate | discriminate | discriminate | lia].
Qed.

(** X13: a Base64 text that is pasted with spaces, tabs or line breaks
    in it, or without its padding, is decrypted like the text itself:
    [handleDecrypt] shows the same result, and [handleProcess] in decrypt
    mode ends in the same state.  The text is valid padded Base64 and not
    empty; [handleDecrypt] needs a password. *)
Theorem decrypt_ignores_whitespace_and_padding {engine : Engine}
    (base64 pasted password : list Z) :
  valid_padded_base64 base64 = true ->
  falsy base64 = false ->
  pasted_from base64 pasted = true ->
  (forall sender result messages,
     DigestApp.result
       (DigestApp.handleDecrypt (DigestApp.Build sender password pasted result messages))
     = DigestApp.result
         (DigestApp.handleDecrypt (DigestApp.Build sender password base64 result messages)))
  /\ (forall now sender decryptedResult messages alerts,
       CipherApp.handleProcess now
         (CipherApp.Build sender password pasted decrypt decryptedResult messages alerts)
       = CipherApp.handleProcess now
           (CipherApp.Build sender password base64 decrypt decryptedResult messages alerts))
  /\ (forall now sender decryptedResult messages alerts,
       LegacyApp.handleProcess now
         (LegacyApp.Build sender password pasted decrypt decryptedResult messages alerts)
       = LegacyApp.handleProcess now
           (LegacyApp.Build sender password base64 decrypt decryptedResult messages alerts)).
Proof.
  intros Hv Hne Hp.
  pose proof (atob_pasted _ _ Hv Hp) as Ha.
  destruct (valid_padded_atob _ Hv) as [binaryStr Hb].
  assert (Hpasted : falsy pasted = false).
  { apply orb_true_iff in Hp as [Hp | Hp].
    - exact (is_pasted_nonempty _ _ Hne Hp).
    - exact (is_pasted_nonempty _ _ (without_equals_nonempty _ Hv Hne) Hp). }
  split; [|split].
  - intros sender result messages. unfold DigestApp.handleDecrypt.
    cbn [DigestApp.text DigestApp.password DigestApp.sender DigestApp.messages].
    rewrite Hne, Hpasted. cbn [orb].
    destruct (falsy password); [reflexivity|].
    rewrite !digest_decryptText_atob, Ha, Hb. reflexivity.
  - intros now sender decryptedResult messages alerts. unfold CipherApp.handleProcess.
    cbn [CipherApp.text CipherApp.password CipherApp.sender CipherApp.messages
         CipherApp.mode CipherApp.alerts CipherApp.decryptedResult].
    rewrite Hne, Hpasted. cbn [orb].
    rewrite !cipher_decryptText_atob, Ha, Hb. reflexivity.
  - intros now sender decryptedResult messages alerts. unfold LegacyApp.handleProcess.
    cbn [LegacyApp.text LegacyApp.password LegacyApp.sender LegacyApp.messages
         LegacyApp.mode LegacyApp.alerts LegacyApp.decryptedResult].
    rewrite Hne, Hpasted. cbn [orb].
    rewrite !legacy_decryptText_atob, Ha, Hb. reflexivity.
Qed.

Lemma decrypt_ignores_whitespace_and_padding_witness :
  (forall sender result messages,
     DigestApp.result
       (DigestApp.handleDecrypt
          (DigestApp.Build sender (js "secret") (js " Q9" ++ [10; 9] ++ js "E ")
             result messages))
     = DigestApp.result
         (DigestApp.handleDecrypt
            (DigestApp.Build sender (js "secret") (js "Q9E=") result messages)))
  /\ (forall now sender decryptedResult messages alerts,
       CipherApp.handleProcess (engine := example_engine) now
         (CipherApp.Build sender (js "secret") (js " Q9" ++ [10; 9] ++ js "E ") decrypt
            decryptedResult messages alerts)
       = CipherApp.handleProcess (engine := example_engine) now
           (CipherApp.Build sender (js "secret") (js "Q9E=") decrypt
              decryptedResult messages alerts))
  /\ (forall now sender decryptedResult messages alerts,
       LegacyApp.handleProcess (engine := example_engine) now
         (LegacyApp.Build sender (js "secret") (js " Q9" ++ [10; 9] ++ js "E ") decrypt
            decryptedResult messages alerts)
       = LegacyApp.handleProcess (engine := example_engine) now
           (LegacyApp.Build sender (js "secret") (js "Q9E=") decrypt
              decryptedResult messages alerts)).
Proof.
  apply (decrypt_ignores_whitespace_and_padding (engine := example_engine)
           (js "Q9E=") (js " Q9" ++ [10; 9] ++ js "E ") (js "secret"));
    reflexivity.
Defined.

(** ** What the decoder is given and what it gives *)

(** Decide the comparisons of the goal that the context settles, with
    division and remainder by constants. *)
Ltac settle_comparisons_div :=
  repeat match goal with
         | |- context [?a <=? ?b] =>
             first [ replace (a <=? b) with true by (symmetry; apply Z.leb_le; dlia)
                   | replace (a <=? b) with false by (symmetry; apply Z.leb_gt; dlia) ]
         end; cbn [andb orb negb].

Lemma valid_utf8_bytes cp rest :
  is_scalar_value cp = true ->
  valid_utf8 (utf8_bytes cp ++ rest) = valid_utf8 rest.
Proof.
  intros Hcp. apply is_scalar_value_range in Hcp as [Hr Hs].
  rewrite utf8_bytes_arith by exact Hr.
  destruct (Z.ltb_spec cp 0x80).
  { cbn [app]. now rewrite valid_utf8_ascii by lia. }
  destruct (Z.ltb_spec cp 0x800).
  { cbn [app]. rewrite valid_utf8_two by dlia.
    unfold continuation_byte, in_byte_range. cbn [fst snd].
    now settle_comparisons_div. }
  destruct (Z.ltb_spec cp 0x10000).
  { cbn [app]. rewrite valid_utf8_three by dlia.
    unfold continuation_byte, in_byte_range. cbn [fst snd].
    destruct (Z.eqb_spec (224 + cp / 4096) 0xE0),
      (Z.eqb_spec (224 + cp / 4096) 0xED); now settle_comparisons_div. }
  cbn [app]. rewrite valid_utf8_four by dlia.
  unfold continuation_byte, in_byte_range. cbn [fst snd].
  destruct (Z.eqb_spec (240 + cp / 262144) 0xF0),
    (Z.eqb_spec (240 + cp / 262144) 0xF4); now settle_comparisons_div.
Qed.

(** The encoder writes valid UTF-8, whatever the string. *)
Lemma TextEncoder_encode_valid (s : list Z) :
  string_ok s = true -> valid_utf8 (TextEncoder_encode s) = true.
Proof.
  intros Hok. unfold TextEncoder_encode.
  induction (scalar_values_scalar s Hok) as [|cp cps Hcp _ IH]; [reflexivity|].
  change (valid_utf8 (utf8_bytes cp ++ (cps ≫= utf8_bytes)) = true).
  now rewrite valid_utf8_bytes.
Qed.

Lemma scalar_0xFFFD : is_scalar_value 0xFFFD = true.
Proof. reflexivity. Qed.

(** Choose the case of [utf8_state_ok] that arithmetic proves. *)
Ltac choose_state :=
  unfold utf8_state_ok;
  cbn [fst snd code_point bytes_seen bytes_needed lower_boundary upper_boundary];
  solve [ repeat (first [ left; solve [repeat split; lia] | right ]);
          repeat split; lia ].

Lemma utf8_lead_ok b :
  0 <= b < 256 ->
  utf8_state_ok (fst (utf8_lead b))
  /\ Forall (fun cp => is_scalar_value cp = true) (snd (utf8_lead b)).
Proof.
  intros Hb. unfold utf8_lead.
  destruct (Z.le_gt_cases b 0x7F).
  { settle_comparisons. split; [now left|].
    repeat constructor. apply is_scalar_value_range. lia. }
  destruct (Z.le_gt_cases b 0xC1).
  { settle_comparisons. split; [now left | repeat constructor]. }
  destruct (Z.le_gt_cases b 0xDF).
  { settle_comparisons. split; [|constructor].
    change 0x1F with 31. rewrite land_31.
    assert (2 <= b mod 32 <= 31) by dlia. choose_state. }
  destruct (Z.le_gt_cases b 0xEF).
  { settle_comparisons. split; [|constructor].
    change 0xF with 15. rewrite land_15.
    assert (b mod 16 = b - 224) as -> by dlia.
    destruct (Z.eqb_spec b 0xE0), (Z.eqb_spec b 0xED);
      destruct (Z.eqb_spec (b - 224) 0), (Z.eqb_spec (b - 224) 13); try lia;
      unfold utf8_state_ok;
      cbn [code_point bytes_seen bytes_needed lower_boundary upper_boundary fst];
      right; right; left;
      destruct (Z.eqb_spec (b - 224) 0), (Z.eqb_spec (b - 224) 13); try lia;
      repeat split; lia. }
  destruct (Z.le_gt_cases b 0xF4).
  { settle_comparisons. split; [|constructor].
    change 0x7 with 7. rewrite land_7.
    assert (b mod 8 = b - 240) as -> by dlia.
    destruct (Z.eqb_spec b 0xF0), (Z.eqb_spec b 0xF4);
      unfold utf8_state_ok;
      cbn [code_point bytes_seen bytes_needed lower_boundary upper_boundary fst];
      right; right; right; right; left;
      destruct (Z.eqb_spec (b - 240) 0), (Z.eqb_spec (b - 240) 4); try lia;
      repeat split; lia. }
  settle_comparisons. split; [now left | repeat constructor].
Qed.

Lemma utf8_handler_in_range cp seen needed lower upper b :
  needed <> 0 -> 0x80 <= lower -> upper <= 0xBF -> lower <= b <= upper ->
  utf8_handler (Utf8Decoder cp seen needed lower upper) b =
  if seen + 1 =? needed then (utf8_fresh, [cp * 64 + (b - 128)])
  else (Utf8Decoder (cp * 64 + (b - 128)) (seen + 1) needed 0x80 0xBF, []).
Proof.
  intros Hn Hl Hu Hb. replace b with (128 + (b - 128)) at 1 by lia.
  now rewrite utf8_handler_continue by lia.
Qed.

Lemma utf8_handler_out_of_range cp seen needed lower upper b :
  needed <> 0 -> b < lower \/ upper < b ->
  utf8_handler (Utf8Decoder cp seen needed lower upper) b
  = (fst (utf8_lead b), 0xFFFD :: snd (utf8_lead b)).
Proof.
  intros Hn Hb. unfold utf8_handler.
  cbn [bytes_needed lower_boundary upper_boundary].
  destruct (Z.eqb_spec needed 0); [contradiction|].
  destruct (Z.ltb_spec b lower), (Z.ltb_spec upper b); cbn [orb]; try reflexivity; lia.
Qed.

(** A byte takes the decoder from a state it can be in to another, and
    every code point it emits is a scalar value. *)
Lemma utf8_handler_ok d b :
  utf8_state_ok d -> 0 <= b < 256 ->
  utf8_state_ok (fst (utf8_handler d b))
  /\ Forall (fun cp => is_scalar_value cp = true) (snd (utf8_handler d b)).
Proof.
  intros Hinv Hb. destruct d as [cp seen needed lower upper].
  unfold utf8_state_ok in Hinv.
  cbn [code_point bytes_seen bytes_needed lower_boundary upper_boundary] in Hinv.
  destruct (Z.eq_dec needed 0) as [->|Hn].
  { unfold utf8_handler. cbn [bytes_needed]. change (0 =? 0) with true. cbv iota.
    now apply utf8_lead_ok. }
  assert (Hbounds : 0x80 <= lower /\ upper <= 0xBF).
  { destruct Hinv as [H|[(_&_&_&->&->)|[(_&_&_&->&->)|[(_&_&_&_&->&->)
                    |[(_&_&_&->&->)|[(_&_&_&->&->)|(_&_&_&->&->)]]]]]]; [lia|..];
      repeat match goal with
             | |- context [?a =? ?b] => destruct (Z.eqb_spec a b)
             end; lia. }
  destruct (Z_lt_dec b lower) as [Hlow|Hlow];
    [rewrite utf8_handler_out_of_range by tauto; cbn [fst snd];
     destruct (utf8_lead_ok b Hb); split; [assumption | now constructor]|].
  destruct (Z_lt_dec upper b) as [Hup|Hup];
    [rewrite utf8_handler_out_of_range by tauto; cbn [fst snd];
     destruct (utf8_lead_ok b Hb); split; [assumption | now constructor]|].
  rewrite utf8_handler_in_range by lia.
  destruct Hinv as [H|[(->&->&Hr&->&->)|[(->&->&Hr&->&->)|[(->&->&Hr&Hns&->&->)
                  |[(->&->&Hr&->&->)|[(->&->&Hr&->&->)|(->&->&Hr&->&->)]]]]]]; [lia|..];
    repeat match goal with
           | H : context [?a =? ?b] |- _ => destruct (Z.eqb_spec a b)
           end;
    match goal with
    | |- context [?a =? ?b] => destruct (Z.eqb_spec a b); try lia
    end; cbn [fst snd];
    (split;
     [ first [ now left | choose_state ]
     | repeat constructor; try (apply is_scalar_value_range; lia) ]).
Qed.

Lemma utf8_fresh_ok : utf8_state_ok utf8_fresh.
Proof. now left. Qed.

Lemma utf8_decode_scalars (input : list Z) :
  bytes_ok input = true ->
  forall d, utf8_state_ok d ->
    Forall (fun cp => is_scalar_value cp = true) (utf8_decode d input).
Proof.
  induction input as [|b rest IH]; intros Hok d Hd.
  - cbn [utf8_decode]. destruct (bytes_needed d =? 0); repeat constructor.
  - apply bytes_ok_cons in Hok as [Hb Hrest].
    rewrite utf8_decode_cons.
    destruct (utf8_handler_ok d b Hd Hb) as [Hd' Hout].
    apply Forall_app. split; [exact Hout | now apply IH].
Qed.

Lemma well_formed_code_units cp rest :
  is_scalar_value cp = true ->
  well_formed (code_units cp ++ rest) = well_formed rest.
Proof.
  intros Hcp. apply is_scalar_value_range in Hcp as [Hr Hs].
  unfold code_units. destruct (Z.ltb_spec cp 0x10000).
  - cbn [app well_formed].
    assert (is_lead cp = false) as -> by (apply is_lead_false; lia).
    assert (is_trail cp = false) as -> by (apply is_trail_false; lia).
    assert (is_code_unit cp = true) as -> by (apply is_code_unit_range; lia).
    reflexivity.
  - change 0x3FF with 1023. bits_to_arith. cbn [app well_formed].
    assert (is_lead (0xD800 + (cp - 0x10000) / 1024) = true) as ->
      by (apply is_lead_range; dlia).
    assert (is_trail (0xDC00 + (cp - 0x10000) mod 1024) = true) as ->
      by (apply is_trail_range; dlia).
    reflexivity.
Qed.

Lemma well_formed_scalars (cps : list Z) :
  Forall (fun cp => is_scalar_value cp = true) cps ->
  well_formed (cps ≫= code_units) = true.
Proof.
  induction 1 as [|cp cps Hcp _ IH]; [reflexivity|].
  change ((cp :: cps) ≫= code_units) with (code_units cp ++ (cps ≫= code_units)).
  now rewrite well_formed_code_units.
Qed.

Lemma strip_BOM_scalars (cps : list Z) :
  Forall (fun cp => is_scalar_value cp = true) cps ->
  Forall (fun cp => is_scalar_value cp = true) (strip_BOM cps).
Proof.
  intros H. destruct H as [|cp cps Hcp Hrest]; [constructor|].
  unfold strip_BOM. destruct (cp =? 0xFEFF); [exact Hrest | now constructor].
Qed.

(** Whatever the bytes, the decoder returns a well-formed string. *)
Lemma TextDecoder_decode_well_formed (input : list Z) :
  bytes_ok input = true -> well_formed (TextDecoder_decode input) = true.
Proof.
  intros Hok. unfold TextDecoder_decode.
  apply well_formed_scalars, strip_BOM_scalars.
  now apply utf8_decode_scalars; [|apply utf8_fresh_ok].
Qed.

Lemma imap_ToUint8_bytes_ok (f : nat -> Z -> Z) (a : list Z) :
  bytes_ok (imap (fun i b => ToUint8 (f i b)) a) = true.
Proof.
  apply bytes_ok_Forall, Forall_lookup. intros i x Hx.
  rewrite list_lookup_imap in Hx.
  destruct (a !! i); [|discriminate]. injection Hx as <-.
  apply Z.mod_pos_bound. lia.
Qed.

(** X14: whatever the text and the password (or the legacy key), a text
    that decryption returns is a well-formed string: 16-bit code units
    with every surrogate in a pair. *)
Theorem decrypted_text_is_well_formed (text password decryptedText : list Z) (key : Z) :
  DigestApp.decryptText text password = Normal decryptedText
  \/ CipherApp.decryptText text (CipherApp.deriveKeyBytes password) = Normal decryptedText
  \/ LegacyApp.decryptText text key = Normal decryptedText ->
  well_formed decryptedText = true /\ string_ok decryptedText = true.
Proof.
  intros H.
  assert (Hwf : well_formed decryptedText = true);
    [|split; [exact Hwf | now apply well_formed_string_ok]].
  rewrite digest_decryptText_atob, cipher_decryptText_atob, legacy_decryptText_atob in H.
  destruct (atob text) as [binaryStr|c]; [|destruct H as [H|[H|H]]; discriminate].
  destruct H as [H|[H|H]]; injection H as <-; apply TextDecoder_decode_well_formed.
  - apply digest_decryptedBytes_ok.
  - apply imap_ToUint8_bytes_ok.
  - apply ToUint8_bytes_ok.
Qed.

Lemma decrypted_text_is_well_formed_witness :
  well_formed [0xFFFD] = true /\ string_ok [0xFFFD] = true.
Proof.
  apply (decrypted_text_is_well_formed (js "/w==") (js "pw") [0xFFFD] 0).
  left. vm_compute. reflexivity.
Defined.

(** X15: under the password of the encryption the bytes [handleDecrypt]
    hands to the decoder are the bytes the encoder wrote for the
    plaintext, and they are valid UTF-8 whatever the plaintext, unpaired
    surrogates included; the plaintext is one that [handleEncrypt] can
    encrypt, of no more UTF-8 bytes than a call takes arguments. *)
Theorem right_password_decodes_valid_utf8 {engine : Engine} (text password : list Z) :
  string_ok text = true ->
  Z.of_nat (length (TextEncoder_encode text)) <= max_arguments ->
  exists base64 binaryStr,
    DigestApp.encryptText text password = Normal base64
    /\ atob base64 = Normal binaryStr
    /\ DigestApp.decryptedBytes binaryStr (DigestApp.deriveKeyFromPassword password)
       = TextEncoder_encode text
    /\ valid_utf8 (DigestApp.decryptedBytes binaryStr
                     (DigestApp.deriveKeyFromPassword password)) = true.
Proof.
  intros Hok Hmax.
  destruct (digest_decrypt_bytes text password Hok Hmax)
    as (base64 & binaryStr & Henc & _ & Ha & Hb & _).
  exists base64, binaryStr. repeat split; try assumption.
  rewrite Hb. now apply TextEncoder_encode_valid.
Qed.

Lemma right_password_decodes_valid_utf8_witness :
  exists base64 binaryStr,
    DigestApp.encryptText (engine := example_engine) [0xD800; 0xD55C] (js "pw") = Normal base64
    /\ atob base64 = Normal binaryStr
    /\ DigestApp.decryptedBytes binaryStr (DigestApp.deriveKeyFromPassword (js "pw"))
       = TextEncoder_encode [0xD800; 0xD55C]
    /\ valid_utf8 (DigestApp.decryptedBytes binaryStr
                     (DigestApp.deriveKeyFromPassword (js "pw"))) = true.
Proof.
  apply (right_password_decodes_valid_utf8 [0xD800; 0xD55C] (js "pw")).
  - reflexivity.
  - vm_compute. discriminate.
Defined.

(** ** One key for every message *)

(** X16: two byte sequences transformed with the same key: the XOR of
    the two outputs at a position is the XOR of the two inputs there, so
    the key cancels out. *)
Theorem xorEncryptDecrypt_same_key_cancels
    (data1 data2 key out1 out2 : list Z) (i : nat) (a b : Z) :
  bytes_ok data1 = true -> bytes_ok data2 = true ->
  bytes_ok key = true -> (1 <= length key)%nat ->
  CipherApp.xorEncryptDecrypt data1 key = Normal out1 ->
  CipherApp.xorEncryptDecrypt data2 key = Normal out2 ->
  data1 !! i = Some a -> data2 !! i = Some b ->
  exists ca cb,
    out1 !! i = Some ca /\ out2 !! i = Some cb /\ Z.lxor ca cb = Z.lxor a b.
Proof.
  intros Hd1 Hd2 Hk Hlen Hout1 Hout2 Ha Hb.
  injection Hout1 as <-. injection Hout2 as <-.
  pose proof (bytes_ok_lookup _ _ _ Hd1 Ha) as Hra.
  pose proof (bytes_ok_lookup _ _ _ Hd2 Hb) as Hrb.
  destruct (stream_byte key Hk Hlen i a Hra) as (k & Hki & _ & Hfa).
  destruct (stream_byte key Hk Hlen i b Hrb) as (k' & Hki' & _ & Hfb).
  rewrite Hki in Hki'. injection Hki' as <-.
  exists (Z.lxor a k), (Z.lxor b k).
  rewrite !list_lookup_imap, Ha, Hb. cbn [fmap option_fmap option_map].
  rewrite Hfa, Hfb. repeat split.
  rewrite (Z.lxor_comm b k), Z.lxor_assoc, <- (Z.lxor_assoc k k b).
  now rewrite Z.lxor_nilpotent, Z.lxor_0_l.
Qed.

Lemma xorEncryptDecrypt_same_key_cancels_witness :
  exists ca cb,
    [Z.lxor 104 7; Z.lxor 105 200] !! 1%nat = Some ca
    /\ [Z.lxor 33 7; Z.lxor 63 200; Z.lxor 1 7] !! 1%nat = Some cb
    /\ Z.lxor ca cb = Z.lxor 105 63.
Proof.
  apply (xorEncryptDecrypt_same_key_cancels [104; 105] [33; 63; 1] [7; 200]
           [Z.lxor 104 7; Z.lxor 105 200]
           [Z.lxor 33 7; Z.lxor 63 200; Z.lxor 1 7] 1 105 63);
    try reflexivity. simpl. lia.
Defined.

(** ** The prompt of the legacy log list *)


